(** * Kinematic hand solver: [xrt/tracking/hand/mercury/kine/kinematic_main.cpp]

    A shallow embedding of the inverse-kinematics core of the optical
    hand tracker, and the properties its specification states about it.

    Scalars.  The source computes in single-precision floats; the
    embedding computes in the real numbers [R].  A tolerance [eps] of the
    specification appears as an arbitrary non-negative real, and the
    divisor of the one division a property is about is a definition of
    its own ([tangent_divisor]).

    Libraries.  The routines of Eigen and of the C library that the
    source calls are written out in exact arithmetic, branch for branch
    ([Eigen], [Libm]); where Eigen tests "opposite up to its tolerance"
    the exact test is "opposite".  What the source takes from headers
    that are not at hand -- the rigid alignment [umeyama], forward
    kinematics [_statics_init_world_poses], [Affine3f::rotation()], the
    hidden-thumb macro, the flag bits and the joint indices -- is a
    parameter of the solver (Section [Solver]).

    Layout.
    - [Libm], [Eigen], [TinyMath]: what the source calls.
    - the hand model, as the source reads and writes it.
    - the per-bone steps: [do_it_for_bone], [clamp_to_x_axis],
      [clamp_proximals].
    - the schedule: [do_it_for_finger], [optimize], over an interface of
      steps, with the log of calls as a second instance.
    - the frame entry point: [two], [make_joint_at_matrix],
      [optimize_new_frame].
    - notions used in the properties, sample hands and frames.
    - the properties. *)

From Stdlib Require Import Reals Lra Lia ZArith List Bool.
From Stdlib Require Import RNsatz.
From stdpp Require Import base list.
Import ListNotations.

Open Scope R_scope.

(* ================================================================== *)
(** * The C library *)

Module Libm.

(** [atan2 y x]: the angle of the point [(x, y)], in [(-PI, PI]]. *)
Definition atan2 (y x : R) : R :=
  if Rlt_dec 0 x then atan (y / x)
  else if Rlt_dec x 0 then
    (if Rle_dec 0 y then atan (y / x) + PI else atan (y / x) - PI)
  else if Rlt_dec 0 y then PI / 2
  else if Rlt_dec y 0 then - (PI / 2)
  else 0.

Definition fabs (x : R) : R := Rabs x.

End Libm.

(* ================================================================== *)
(** * Eigen, in exact arithmetic *)

Module Eigen.

Record Vector3f : Type := Vec3 { vx : R; vy : R; vz : R }.

Definition Zero : Vector3f := Vec3 0 0 0.
Definition UnitX : Vector3f := Vec3 1 0 0.
Definition UnitY : Vector3f := Vec3 0 1 0.
Definition UnitZ : Vector3f := Vec3 0 0 1.

Definition vadd (a b : Vector3f) : Vector3f :=
  Vec3 (vx a + vx b) (vy a + vy b) (vz a + vz b).

Definition vscale (k : R) (a : Vector3f) : Vector3f :=
  Vec3 (k * vx a) (k * vy a) (k * vz a).

Definition vneg (a : Vector3f) : Vector3f := Vec3 (- vx a) (- vy a) (- vz a).

Definition dot (a b : Vector3f) : R := vx a * vx b + vy a * vy b + vz a * vz b.

Definition cross (a b : Vector3f) : Vector3f :=
  Vec3 (vy a * vz b - vz a * vy b)
       (vz a * vx b - vx a * vz b)
       (vx a * vy b - vy a * vx b).

Definition squaredNorm (a : Vector3f) : R := dot a a.

Definition norm (a : Vector3f) : R := sqrt (squaredNorm a).

(** [v.normalized()]: [v / sqrt z] when the squared norm [z] is positive,
    and a copy of [v] otherwise. *)
Definition normalized (a : Vector3f) : Vector3f :=
  if Rlt_dec 0 (squaredNorm a) then vscale (/ sqrt (squaredNorm a)) a else a.

(** Coefficient [i] of a vector, as in [v(i)]. *)
Definition coeff (a : Vector3f) (i : nat) : R :=
  match i with O => vx a | S O => vy a | _ => vz a end.

(** A 3x3 matrix, [mIJ] being the coefficient of row [I] and column [J]. *)
Record Matrix3f : Type := Mat3 {
  m00 : R; m01 : R; m02 : R;
  m10 : R; m11 : R; m12 : R;
  m20 : R; m21 : R; m22 : R }.

Definition Identity : Matrix3f := Mat3 1 0 0  0 1 0  0 0 1.

Definition mmul (a b : Matrix3f) : Matrix3f :=
  Mat3 (m00 a * m00 b + m01 a * m10 b + m02 a * m20 b)
       (m00 a * m01 b + m01 a * m11 b + m02 a * m21 b)
       (m00 a * m02 b + m01 a * m12 b + m02 a * m22 b)
       (m10 a * m00 b + m11 a * m10 b + m12 a * m20 b)
       (m10 a * m01 b + m11 a * m11 b + m12 a * m21 b)
       (m10 a * m02 b + m11 a * m12 b + m12 a * m22 b)
       (m20 a * m00 b + m21 a * m10 b + m22 a * m20 b)
       (m20 a * m01 b + m21 a * m11 b + m22 a * m21 b)
       (m20 a * m02 b + m21 a * m12 b + m22 a * m22 b).

Definition mulv (a : Matrix3f) (v : Vector3f) : Vector3f :=
  Vec3 (m00 a * vx v + m01 a * vy v + m02 a * vz v)
       (m10 a * vx v + m11 a * vy v + m12 a * vz v)
       (m20 a * vx v + m21 a * vy v + m22 a * vz v).

Definition transpose (a : Matrix3f) : Matrix3f :=
  Mat3 (m00 a) (m10 a) (m20 a)
       (m01 a) (m11 a) (m21 a)
       (m02 a) (m12 a) (m22 a).

Definition determinant (a : Matrix3f) : R :=
  m00 a * (m11 a * m22 a - m12 a * m21 a)
  - m01 a * (m10 a * m22 a - m12 a * m20 a)
  + m02 a * (m10 a * m21 a - m11 a * m20 a).

(** [m.inverse()] of a fixed-size 3x3 matrix: the transposed cofactor
    matrix over the determinant. *)
Definition inverse (a : Matrix3f) : Matrix3f :=
  let d := / determinant a in
  Mat3 ((m11 a * m22 a - m12 a * m21 a) * d)
       ((m02 a * m21 a - m01 a * m22 a) * d)
       ((m01 a * m12 a - m02 a * m11 a) * d)
       ((m12 a * m20 a - m10 a * m22 a) * d)
       ((m00 a * m22 a - m02 a * m20 a) * d)
       ((m02 a * m10 a - m00 a * m12 a) * d)
       ((m10 a * m21 a - m11 a * m20 a) * d)
       ((m01 a * m20 a - m00 a * m21 a) * d)
       ((m00 a * m11 a - m01 a * m10 a) * d).

Definition trace (a : Matrix3f) : R := m00 a + m11 a + m22 a.

(** A rotation: orthonormal and of determinant one. *)
Definition is_rotation (a : Matrix3f) : Prop :=
  mmul (transpose a) a = Identity /\ determinant a = 1.

(** ** Quaternions *)

Record Quaternionf : Type := Quat { qw : R; qx : R; qy : R; qz : R }.

Definition qvec (q : Quaternionf) : Vector3f := Vec3 (qx q) (qy q) (qz q).

(** [q.matrix()], also [q.toRotationMatrix()]. *)
Definition toRotationMatrix (q : Quaternionf) : Matrix3f :=
  let tx := 2 * qx q in
  let ty := 2 * qy q in
  let tz := 2 * qz q in
  let twx := tx * qw q in
  let twy := ty * qw q in
  let twz := tz * qw q in
  let txx := tx * qx q in
  let txy := ty * qx q in
  let txz := tz * qx q in
  let tyy := ty * qy q in
  let tyz := tz * qy q in
  let tzz := tz * qz q in
  Mat3 (1 - (tyy + tzz)) (txy - twz) (txz + twy)
       (txy + twz) (1 - (txx + tzz)) (tyz - twx)
       (txz - twy) (tyz + twx) (1 - (txx + tyy)).

(** The axis Eigen takes when the two directions are opposite: a unit
    vector orthogonal to [v0] (Eigen reads it off a singular value
    decomposition; the embedding picks a definite one). *)
Definition orthogonal_axis (v0 : Vector3f) : Vector3f :=
  if Req_dec_T (vx v0 * vx v0 + vy v0 * vy v0) 0
  then UnitX
  else normalized (Vec3 (- vy v0) (vx v0) 0).

(** [Quaternionf().setFromTwoVectors(a, b)]: the rotation sending the
    direction of [a] to the direction of [b] along the shortest arc.
    Eigen enters its first branch when the directions are opposite up to
    its floating-point tolerance; in exact arithmetic that is [c <= -1]. *)
Definition setFromTwoVectors (a b : Vector3f) : Quaternionf :=
  let v0 := normalized a in
  let v1 := normalized b in
  let c := dot v1 v0 in
  if Rle_dec c (-1) then
    let c' := Rmax c (-1) in
    let axis := orthogonal_axis v0 in
    let w2 := (1 + c') * (1 / 2) in
    let k := sqrt (1 - w2) in
    Quat (sqrt w2) (vx axis * k) (vy axis * k) (vz axis * k)
  else
    let axis := cross v0 v1 in
    let s := sqrt ((1 + c) * 2) in
    let invs := 1 / s in
    Quat (s * (1 / 2)) (vx axis * invs) (vy axis * invs) (vz axis * invs).

(** [Quaternionf(m)]: the quaternion of a rotation matrix. *)
Definition quaternion_of_matrix (m : Matrix3f) : Quaternionf :=
  let t := trace m in
  if Rlt_dec 0 t then
    let t1 := sqrt (t + 1) in
    let t2 := (1 / 2) / t1 in
    Quat ((1 / 2) * t1)
         ((m21 m - m12 m) * t2) ((m02 m - m20 m) * t2) ((m10 m - m01 m) * t2)
  else if Rlt_dec (m00 m) (m11 m) then
    if Rlt_dec (m11 m) (m22 m) then
      (* i = 2, j = 0, k = 1 *)
      let t1 := sqrt (m22 m - m00 m - m11 m + 1) in
      let t2 := (1 / 2) / t1 in
      Quat ((m10 m - m01 m) * t2)
           ((m02 m + m20 m) * t2) ((m12 m + m21 m) * t2) ((1 / 2) * t1)
    else
      (* i = 1, j = 2, k = 0 *)
      let t1 := sqrt (m11 m - m22 m - m00 m + 1) in
      let t2 := (1 / 2) / t1 in
      Quat ((m02 m - m20 m) * t2)
           ((m01 m + m10 m) * t2) ((1 / 2) * t1) ((m21 m + m12 m) * t2)
  else
    if Rlt_dec (m00 m) (m22 m) then
      let t1 := sqrt (m22 m - m00 m - m11 m + 1) in
      let t2 := (1 / 2) / t1 in
      Quat ((m10 m - m01 m) * t2)
           ((m02 m + m20 m) * t2) ((m12 m + m21 m) * t2) ((1 / 2) * t1)
    else
      (* i = 0, j = 1, k = 2 *)
      let t1 := sqrt (m00 m - m11 m - m22 m + 1) in
      let t2 := (1 / 2) / t1 in
      Quat ((m21 m - m12 m) * t2)
           ((1 / 2) * t1) ((m10 m + m01 m) * t2) ((m20 m + m02 m) * t2).

(** ** Angle-axis rotations *)

Record AngleAxisf : Type := AngleAxis { angle : R; axis : Vector3f }.

(** [AngleAxisf(q)]. *)
Definition angleaxis_of_quaternion (q : Quaternionf) : AngleAxisf :=
  let n := norm (qvec q) in
  if Req_dec_T n 0 then AngleAxis 0 UnitX
  else
    let n' := if Rlt_dec (qw q) 0 then - n else n in
    AngleAxis (2 * Libm.atan2 n (Rabs (qw q))) (vscale (/ n') (qvec q)).

(** [AngleAxisf(m)], through the quaternion of [m]. *)
Definition angleaxis_of_matrix (m : Matrix3f) : AngleAxisf :=
  angleaxis_of_quaternion (quaternion_of_matrix m).

(** [aa.toRotationMatrix()]. *)
Definition aa_toRotationMatrix (aa : AngleAxisf) : Matrix3f :=
  let sin_axis := vscale (sin (angle aa)) (axis aa) in
  let c := cos (angle aa) in
  let cos1_axis := vscale (1 - c) (axis aa) in
  let t01 := vx cos1_axis * vy (axis aa) in
  let t02 := vx cos1_axis * vz (axis aa) in
  let t12 := vy cos1_axis * vz (axis aa) in
  Mat3 (vx cos1_axis * vx (axis aa) + c) (t01 - vz sin_axis) (t02 + vy sin_axis)
       (t01 + vz sin_axis) (vy cos1_axis * vy (axis aa) + c) (t12 - vx sin_axis)
       (t02 - vy sin_axis) (t12 + vx sin_axis) (vz cos1_axis * vz (axis aa) + c).

(** ** Affine transforms *)

Record Affine3f : Type := Affine { linear : Matrix3f; translation : Vector3f }.

Definition aff_Identity : Affine3f := Affine Identity Zero.

(** [a * b] on transforms. *)
Definition aff_mul (a b : Affine3f) : Affine3f :=
  Affine (mmul (linear a) (linear b))
         (vadd (mulv (linear a) (translation b)) (translation a)).

(** [a * v]: a transform applied to a point. *)
Definition aff_apply (a : Affine3f) (v : Vector3f) : Vector3f :=
  vadd (mulv (linear a) v) (translation a).

(** [a.inverse()]. *)
Definition aff_inverse (a : Affine3f) : Affine3f :=
  let li := inverse (linear a) in
  Affine li (vneg (mulv li (translation a))).

Definition set_linear (a : Affine3f) (m : Matrix3f) : Affine3f :=
  Affine m (translation a).

End Eigen.

(* ================================================================== *)
(** * [kinematic_tiny_math.hpp] *)

Module TinyMath.

(** Modelled from the spec: [rad] of [kinematic_tiny_math.hpp] is not in
    the sources at hand; the specification writes every angle bound in
    degrees ([min_angle = -90 deg], [max_angle = 10 deg]) where the source
    passes [rad(-90)], [rad(10)]: degrees to radians. *)
Definition rad (degrees : R) : R := degrees * (PI / 180).

(** Modelled from the spec: [clamp] of [kinematic_tiny_math.hpp] is not in
    the sources at hand; the specification has the tangents "independently
    clamped" to the interval between the two bounds passed. *)
Definition clamp (x lo hi : R) : R := Rmin hi (Rmax lo x).

End TinyMath.

Import Libm Eigen TinyMath.

(* ================================================================== *)
(** * The hand model ([kinematic_defines.hpp], [xrt_defines.h])

    The records hold the fields the source reads and writes. *)

Record xrt_vec3 : Type := XrtVec3 { x : R; y : R; z : R }.

Record xrt_quat : Type := XrtQuat { quat_x : R; quat_y : R; quat_z : R; quat_w : R }.

Record xrt_pose : Type := XrtPose { orientation : xrt_quat; position : xrt_vec3 }.

Record xrt_space_relation : Type := XrtSpaceRelation {
  relation_flags : Z;
  pose : xrt_pose;
  linear_velocity : xrt_vec3;
  angular_velocity : xrt_vec3 }.

Record xrt_hand_joint_value : Type := XrtHandJointValue {
  relation : xrt_space_relation;
  radius : R }.

(** [struct xrt_hand_joint_set]: the array [values.hand_joint_set_default],
    keyed by joint index, and the [is_active] flag. *)
Record xrt_hand_joint_set : Type := XrtHandJointSet {
  hand_joint_set_default : list xrt_hand_joint_value;
  is_active : bool }.

Definition map_vec3 (v : xrt_vec3) : Vector3f := Vec3 (x v) (y v) (z v).

Record bone_t : Type := Bone {
  bone_relation : Affine3f;
  world_pose : Affine3f;
  keypoint_idx_21 : nat }.

Record finger_t : Type := Finger { bones : list bone_t }.

(** [struct kinematic_hand_4f].  The two 3x21 matrices are lists of
    columns. *)
Record kinematic_hand_4f : Type := Hand {
  wrist_relation : Affine3f;
  fingers : list finger_t;
  t_jts : list xrt_vec3;
  t_jts_as_mat : list Vector3f;
  kinematic : list Vector3f }.

#[export] Instance xrt_vec3_inhabited : Inhabited xrt_vec3 :=
  populate (XrtVec3 0 0 0).
#[export] Instance Vector3f_inhabited : Inhabited Vector3f := populate Zero.
#[export] Instance bone_t_inhabited : Inhabited bone_t :=
  populate (Bone aff_Identity aff_Identity 0).
#[export] Instance finger_t_inhabited : Inhabited finger_t :=
  populate (Finger []).
#[export] Instance xrt_hand_joint_value_inhabited : Inhabited xrt_hand_joint_value :=
  populate (XrtHandJointValue
              (XrtSpaceRelation 0 (XrtPose (XrtQuat 0 0 0 1) (XrtVec3 0 0 0))
                                (XrtVec3 0 0 0) (XrtVec3 0 0 0)) 0).

(** [hand->fingers[finger_idx].bones[bone_idx]]. *)
Definition get_bone (hand : kinematic_hand_4f) (finger_idx bone_idx : nat) : bone_t :=
  bones (fingers hand !!! finger_idx) !!! bone_idx.

(** A write through [&hand->fingers[finger_idx].bones[bone_idx]]. *)
Definition set_bone (hand : kinematic_hand_4f) (finger_idx bone_idx : nat)
    (b : bone_t) : kinematic_hand_4f :=
  Hand (wrist_relation hand)
       (alter (fun f => Finger (<[bone_idx := b]> (bones f))) finger_idx (fingers hand))
       (t_jts hand) (t_jts_as_mat hand) (kinematic hand).

(** [bone.bone_relation.linear() = m]. *)
Definition set_bone_linear (hand : kinematic_hand_4f) (finger_idx bone_idx : nat)
    (m : Matrix3f) : kinematic_hand_4f :=
  let b := get_bone hand finger_idx bone_idx in
  set_bone hand finger_idx bone_idx
    (Bone (set_linear (bone_relation b) m) (world_pose b) (keypoint_idx_21 b)).

(** The local rotation of a bone: [bone.bone_relation.linear()]. *)
Definition bone_linear (hand : kinematic_hand_4f) (finger_idx bone_idx : nat) : Matrix3f :=
  linear (bone_relation (get_bone hand finger_idx bone_idx)).

(** Every finger and every bone slot of the fixed-size arrays is there. *)
Definition hand_wf (hand : kinematic_hand_4f) : Prop :=
  length (fingers hand) = 5%nat /\
  Forall (fun f => length (bones f) = 5%nat) (fingers hand).

(* ================================================================== *)
(** * [kinematic_main.cpp]: the per-bone steps *)

(** ** [do_it_for_bone] *)

(** The loop [for (idx = bone_idx + 1; idx < 5; idx++)]: the number of
    more distal bones of the finger and the sums of their target points
    and of their current world positions. *)
Definition sum_children (hand : kinematic_hand_4f) (of_ : finger_t) (bone_idx : nat)
    : nat * Vector3f * Vector3f :=
  fold_left
    (fun acc idx =>
       let '(num_children, target, kine) := acc in
       (S num_children,
        vadd target (map_vec3 (t_jts hand !!! keypoint_idx_21 (bones of_ !!! idx))),
        vadd kine (translation (world_pose (bones of_ !!! idx)))))
    (seq (bone_idx + 1) (5 - (bone_idx + 1)))
    (O, Zero, Zero).

(** The current and the target direction of the chain below the bone, in
    the bone's own frame, both normalized. *)
Definition bone_directions (hand : kinematic_hand_4f) (finger_idx bone_idx : nat)
    : Vector3f * Vector3f :=
  let of_ := fingers hand !!! finger_idx in
  let bone := get_bone hand finger_idx bone_idx in
  let '(num_children, target, kine) := sum_children hand of_ bone_idx in
  let kine := vscale (1 / INR num_children) kine in
  let target := vscale (1 / INR num_children) target in
  let kine := aff_apply (aff_inverse (world_pose bone)) kine in
  let target := aff_apply (aff_inverse (world_pose bone)) target in
  (normalized kine, normalized target).

(** The rotation [rot] of [do_it_for_bone]. *)
Definition bone_correction (hand : kinematic_hand_4f) (finger_idx bone_idx : nat) : Matrix3f :=
  let '(kine, target) := bone_directions hand finger_idx bone_idx in
  toRotationMatrix (setFromTwoVectors kine target).

Definition do_it_for_bone (hand : kinematic_hand_4f) (finger_idx bone_idx : nat)
    (clamp_to_x_axis_rotation : bool) : kinematic_hand_4f :=
  let rot := bone_correction hand finger_idx bone_idx in
  set_bone_linear hand finger_idx bone_idx
    (mmul (bone_linear hand finger_idx bone_idx) rot).

(** ** [clamp_to_x_axis] *)

Definition axes (i : nat) : Vector3f :=
  match i with O => UnitX | S O => UnitY | _ => UnitZ end.

(** The axis the hinge is locked to: [int axis = 0]. *)
Definition hinge_axis : nat := 0.

(** The correction step: the rotation after [correction_rot] has been
    multiplied onto it from the left. *)
Definition hinge_correct (m : Matrix3f) : Matrix3f :=
  let axis_rotated_by_input := mulv m (axes hinge_axis) in
  let correction_rot :=
    toRotationMatrix
      (setFromTwoVectors (normalized axis_rotated_by_input) (axes hinge_axis)) in
  mmul correction_rot m.

(** [rotation_value]: the angle about the locked axis, read off the image
    of the next axis with the two-argument arctangent. *)
Definition hinge_rotation_value (m : Matrix3f) : R :=
  let axis_to_clamp_rotation := axes ((hinge_axis + 1) mod 3) in
  let new_ortho_direction := mulv m axis_to_clamp_rotation in
  atan2 (coeff new_ortho_direction ((hinge_axis + 2) mod 3))
        (coeff new_ortho_direction ((hinge_axis + 1) mod 3)).

(** [positive_rotation_value] and [negative_rotation_value]. *)
Definition positive_rotation_value (rotation_value : R) : R :=
  if Rlt_dec rotation_value 0 then (PI * 2) - rotation_value else rotation_value.

Definition negative_rotation_value (rotation_value : R) : R :=
  if Rlt_dec rotation_value 0 then rotation_value else (- PI * 2) + rotation_value.

(** The bound the angle is set to once it is known to be out of range. *)
Definition hinge_choose_bound (rotation_value min_angle max_angle : R) : R :=
  if Rlt_dec (min_angle - negative_rotation_value rotation_value)
             (positive_rotation_value rotation_value - max_angle)
  then min_angle
  else max_angle.

(** The whole function on the local rotation of the bone. *)
Definition clamp_to_x_axis_linear (m : Matrix3f) (clamp_angle : bool)
    (min_angle max_angle : R) : Matrix3f :=
  let m := hinge_correct m in
  if negb clamp_angle then m
  else
    let rotation_value := hinge_rotation_value m in
    let clamped :=
      aa_toRotationMatrix
        (AngleAxis (hinge_choose_bound rotation_value min_angle max_angle)
                   (axes hinge_axis)) in
    if Rlt_dec rotation_value max_angle
    then (if Rlt_dec min_angle rotation_value then m else clamped)
    else clamped.

Definition clamp_to_x_axis (hand : kinematic_hand_4f) (finger_idx bone_idx : nat)
    (clamp_angle : bool) (min_angle max_angle : R) : kinematic_hand_4f :=
  set_bone_linear hand finger_idx bone_idx
    (clamp_to_x_axis_linear (bone_linear hand finger_idx bone_idx)
                            clamp_angle min_angle max_angle).

(** ** [clamp_proximals] *)

Definition default_tanangle_left : R := tan (rad (-20)).
Definition default_tanangle_right : R := tan (rad 20).
Definition default_tanangle_curled : R := tan (rad (-89)).
Definition default_tanangle_uncurled : R := tan (rad 30).

(** [our_z]: where the rotation sends the forward axis [-UnitZ]. *)
Definition swung_forward (rot : Matrix3f) : Vector3f := mulv rot (vneg UnitZ).

(** [simple]: the shortest rotation from the forward axis to [our_z]. *)
Definition swing_of (our_z : Vector3f) : Matrix3f :=
  toRotationMatrix (setFromTwoVectors (vneg UnitZ) our_z).

(** [twist]: [rot * simple.inverse()]. *)
Definition twist_matrix (rot : Matrix3f) : Matrix3f :=
  mmul rot (inverse (swing_of (swung_forward rot))).

(** [twist_aax] as first computed: [AngleAxisf(twist)]. *)
Definition twist_of (rot : Matrix3f) : AngleAxisf :=
  angleaxis_of_matrix (twist_matrix rot).

(** The block [if (fabs(twist_aax.angle()) > max_swing_angle) ...]. *)
Definition clamp_twist (twist_aax : AngleAxisf) (max_swing_angle : R) : AngleAxisf :=
  if Rlt_dec max_swing_angle (fabs (angle twist_aax))
  then AngleAxis (max_swing_angle * (angle twist_aax / fabs (angle twist_aax)))
                 (axis twist_aax)
  else twist_aax.

(** The guard [if (our_z.z() > 0) our_z.z() = -0.000001f]. *)
Definition forward_guard (our_z : Vector3f) : Vector3f :=
  if Rlt_dec 0 (vz our_z) then Vec3 (vx our_z) (vy our_z) (- (1 / 1000000))
  else our_z.

(** The divisor of [our_z *= -1.0f / our_z.z()]. *)
Definition tangent_divisor (rot : Matrix3f) : R :=
  vz (forward_guard (swung_forward rot)).

(** [our_z] after the guard and the scaling [our_z *= -1.0f / our_z.z()]:
    its first two coordinates are the tangents that get clamped. *)
Definition scaled_forward (rot : Matrix3f) : Vector3f :=
  vscale (-1 / tangent_divisor rot) (forward_guard (swung_forward rot)).

(** [our_z] after the guard, the scaling and the two tangent clamps. *)
Definition clamped_forward (rot : Matrix3f)
    (tanangle_left tanangle_right tanangle_curled tanangle_uncurled : R) : Vector3f :=
  let our_z := scaled_forward rot in
  Vec3 (clamp (vx our_z) tanangle_left tanangle_right)
       (clamp (vy our_z) tanangle_curled tanangle_uncurled)
       (vz our_z).

(** The whole function on the local rotation of the bone. *)
Definition clamp_proximals_linear (rot : Matrix3f) (max_swing_angle
    tanangle_left tanangle_right tanangle_curled tanangle_uncurled : R) : Matrix3f :=
  let twist_aax := clamp_twist (twist_of rot) max_swing_angle in
  let our_z :=
    clamped_forward rot tanangle_left tanangle_right tanangle_curled tanangle_uncurled in
  let simple := swing_of (normalized our_z) in
  mmul (aa_toRotationMatrix twist_aax) simple.

Definition clamp_proximals (hand : kinematic_hand_4f) (finger_idx bone_idx : nat)
    (max_swing_angle tanangle_left tanangle_right tanangle_curled tanangle_uncurled : R)
    : kinematic_hand_4f :=
  set_bone_linear hand finger_idx bone_idx
    (clamp_proximals_linear (bone_linear hand finger_idx bone_idx) max_swing_angle
       tanangle_left tanangle_right tanangle_curled tanangle_uncurled).

(* ================================================================== *)
(** * [kinematic_main.cpp]: the optimizer schedule

    [do_it_for_finger] and [optimize] only sequence the steps.  They are
    written once, over the interface [kine_ops] of the five steps, and
    used twice: on the hand itself ([hand_ops] below) and on a log of the
    calls made ([trace_ops]). *)

Record kine_ops (H : Type) : Type := KineOps {
  op_two : H -> H;
  op_do_it_for_bone : H -> nat -> nat -> bool -> H;
  op_clamp_to_x_axis : H -> nat -> nat -> bool -> R -> R -> H;
  op_clamp_proximals : H -> nat -> nat -> R -> R -> R -> R -> R -> H;
  op_statics_init_world_poses : H -> H }.

Arguments op_two {H}.
Arguments op_do_it_for_bone {H}.
Arguments op_clamp_to_x_axis {H}.
Arguments op_clamp_proximals {H}.
Arguments op_statics_init_world_poses {H}.

Definition do_it_for_finger {H : Type} (ops : kine_ops H) (hand : H) (finger_idx : nat) : H :=
  let hand := op_do_it_for_bone ops hand finger_idx 0%nat false in
  let hand := op_clamp_proximals ops hand finger_idx 0%nat (rad 4)
                (tan (rad (-30))) (tan (rad 30)) (tan (rad (-10))) (tan (rad 10)) in
  let hand := op_statics_init_world_poses ops hand in

  let hand := op_do_it_for_bone ops hand finger_idx 1%nat true in
  let hand := op_clamp_proximals ops hand finger_idx 1%nat (rad 4)
                default_tanangle_left default_tanangle_right
                default_tanangle_curled default_tanangle_uncurled in
  let hand := op_statics_init_world_poses ops hand in

  let hand := op_do_it_for_bone ops hand finger_idx 2%nat true in
  let hand := op_clamp_to_x_axis ops hand finger_idx 2%nat true (rad (-90)) (rad 10) in
  let hand := op_statics_init_world_poses ops hand in

  let hand := op_do_it_for_bone ops hand finger_idx 3%nat true in
  let hand := op_clamp_to_x_axis ops hand finger_idx 3%nat true (rad (-90)) (rad 10) in
  op_statics_init_world_poses ops hand.

(** The body of the [for] loop of [optimize]. *)
Definition optimize_iteration {H : Type} (ops : kine_ops H) (hand : H) : H :=
  let hand := op_two ops hand in
  let hand := op_do_it_for_bone ops hand 0%nat 1%nat false in
  let hand := op_clamp_proximals ops hand 0%nat 1%nat (rad 70)
                (tan (rad (-40))) (tan (rad 40)) (tan (rad (-40))) (tan (rad 40)) in
  let hand := op_statics_init_world_poses ops hand in

  let hand := op_do_it_for_bone ops hand 0%nat 2%nat true in
  let hand := op_clamp_to_x_axis ops hand 0%nat 2%nat true (rad (-90)) (rad 40) in
  let hand := op_statics_init_world_poses ops hand in

  let hand := op_do_it_for_bone ops hand 0%nat 3%nat true in
  let hand := op_clamp_to_x_axis ops hand 0%nat 3%nat true (rad (-90)) (rad 40) in
  let hand := op_statics_init_world_poses ops hand in

  let hand := op_two ops hand in

  let hand := do_it_for_finger ops hand 1%nat in
  let hand := do_it_for_finger ops hand 2%nat in
  let hand := do_it_for_finger ops hand 3%nat in
  do_it_for_finger ops hand 4%nat.

Definition optimize {H : Type} (ops : kine_ops H) (hand : H) : H :=
  op_two ops (Nat.iter 15 (optimize_iteration ops) hand).

(** ** The log of calls *)

Inductive call : Type :=
| Call_two
| Call_do_it_for_bone (finger_idx bone_idx : nat) (clamp_to_x_axis_rotation : bool)
| Call_clamp_to_x_axis (finger_idx bone_idx : nat) (clamp_angle : bool)
    (min_angle max_angle : R)
| Call_clamp_proximals (finger_idx bone_idx : nat)
    (max_swing_angle tanangle_left tanangle_right tanangle_curled tanangle_uncurled : R)
| Call_statics_init_world_poses.

(** The interface on logs: every step appends its own call. *)
Definition trace_ops : kine_ops (list call) :=
  KineOps (list call)
    (fun t => t ++ [Call_two])
    (fun t f b c => t ++ [Call_do_it_for_bone f b c])
    (fun t f b c lo hi => t ++ [Call_clamp_to_x_axis f b c lo hi])
    (fun t f b s l r c u => t ++ [Call_clamp_proximals f b s l r c u])
    (fun t => t ++ [Call_statics_init_world_poses]).

(** Running a log against an interface: each call is handed to the step
    it names. *)
Definition run_call {H : Type} (ops : kine_ops H) (hand : H) (c : call) : H :=
  match c with
  | Call_two => op_two ops hand
  | Call_do_it_for_bone f b r => op_do_it_for_bone ops hand f b r
  | Call_clamp_to_x_axis f b c lo hi => op_clamp_to_x_axis ops hand f b c lo hi
  | Call_clamp_proximals f b s l r c u => op_clamp_proximals ops hand f b s l r c u
  | Call_statics_init_world_poses => op_statics_init_world_poses ops hand
  end.

Definition run_calls {H : Type} (ops : kine_ops H) (cs : list call) (hand : H) : H :=
  fold_left (run_call ops) cs hand.

(** The two joint limiters of the specification. *)
Inductive limiter : Type := SwingTwistClamp | HingeClamp.

(** The limiter calls of a log, in order: finger, bone, kind, and for a
    hinge whether its angle range is enabled. *)
Definition limiter_of (c : call) : option (nat * nat * limiter * bool) :=
  match c with
  | Call_clamp_proximals f b _ _ _ _ _ => Some (f, b, SwingTwistClamp, false)
  | Call_clamp_to_x_axis f b clamp_angle _ _ => Some (f, b, HingeClamp, clamp_angle)
  | _ => None
  end.

Definition limiters (t : list call) : list (nat * nat * limiter * bool) :=
  omap limiter_of t.

(** The schedule of one finger as the source has it. *)
Definition finger_calls (finger_idx : nat) : list call :=
  [ Call_do_it_for_bone finger_idx 0 false;
    Call_clamp_proximals finger_idx 0 (rad 4)
      (tan (rad (-30))) (tan (rad 30)) (tan (rad (-10))) (tan (rad 10));
    Call_statics_init_world_poses;
    Call_do_it_for_bone finger_idx 1 true;
    Call_clamp_proximals finger_idx 1 (rad 4)
      default_tanangle_left default_tanangle_right
      default_tanangle_curled default_tanangle_uncurled;
    Call_statics_init_world_poses;
    Call_do_it_for_bone finger_idx 2 true;
    Call_clamp_to_x_axis finger_idx 2 true (rad (-90)) (rad 10);
    Call_statics_init_world_poses;
    Call_do_it_for_bone finger_idx 3 true;
    Call_clamp_to_x_axis finger_idx 3 true (rad (-90)) (rad 10);
    Call_statics_init_world_poses ].

(** The thumb part of one iteration, between the two alignments. *)
Definition thumb_calls : list call :=
  [ Call_do_it_for_bone 0 1 false;
    Call_clamp_proximals 0 1 (rad 70)
      (tan (rad (-40))) (tan (rad 40)) (tan (rad (-40))) (tan (rad 40));
    Call_statics_init_world_poses;
    Call_do_it_for_bone 0 2 true;
    Call_clamp_to_x_axis 0 2 true (rad (-90)) (rad 40);
    Call_statics_init_world_poses;
    Call_do_it_for_bone 0 3 true;
    Call_clamp_to_x_axis 0 3 true (rad (-90)) (rad 40);
    Call_statics_init_world_poses ].

(** The schedule of one finger as the specification words it: the
    estimator on each of the four bones from proximal to distal, then the
    swing-twist clamp on bone 0 and the hinge clamp with its angle range
    on the three others. *)
Definition spec_finger_limiters (finger_idx : nat) : list (nat * nat * limiter * bool) :=
  [ (finger_idx, 0%nat, SwingTwistClamp, false);
    (finger_idx, 1%nat, HingeClamp, true);
    (finger_idx, 2%nat, HingeClamp, true);
    (finger_idx, 3%nat, HingeClamp, true) ].

(* ================================================================== *)
(** * [kinematic_main.cpp]: the solver on a hand *)

(** The frame as the entry point sees it: the caller's array of 21 points,
    the hand, and the caller's joint set.  The three are distinct objects;
    the entry point reads the first and writes the other two. *)
Record frame_memory : Type := FrameMemory {
  model_joints_3d : list xrt_vec3;
  hand : kinematic_hand_4f;
  out_set : xrt_hand_joint_set }.

Definition vdiv (v : Vector3f) (k : R) : Vector3f :=
  Vec3 (vx v / k) (vy v / k) (vz v / k).

Section Solver.

(** What the source takes from elsewhere. *)

(** [Eigen::umeyama(src, dst, false)]: the least-squares rigid transform
    between two 3x21 point sets. *)
Variable umeyama : list Vector3f -> list Vector3f -> Affine3f.

(** [_statics_init_world_poses] of [kinematic_hand_init.hpp]: forward
    kinematics over the whole hand. *)
Variable _statics_init_world_poses : kinematic_hand_4f -> kinematic_hand_4f.

(** [Affine3f::rotation()]: the rotation part of a transform. *)
Variable rotation : Affine3f -> Matrix3f.

(** [CONTINUE_IF_HIDDEN_THUMB] of [kinematic_defines.hpp]: whether the
    macro skips the bone [(finger_idx, bone_idx)]. *)
Variable hidden_thumb : nat -> nat -> bool.

(** The bits of [enum xrt_space_relation_flags]. *)
Variable XRT_SPACE_RELATION_ORIENTATION_VALID_BIT : Z.
Variable XRT_SPACE_RELATION_ORIENTATION_TRACKED_BIT : Z.
Variable XRT_SPACE_RELATION_POSITION_VALID_BIT : Z.
Variable XRT_SPACE_RELATION_POSITION_TRACKED_BIT : Z.

(** The first members of [enum xrt_hand_joint]. *)
Variable XRT_HAND_JOINT_PALM : nat.
Variable XRT_HAND_JOINT_WRIST : nat.
Variable XRT_HAND_JOINT_THUMB_METACARPAL : nat.

(** ** [two]: the rigid alignment *)

Definition _two_set_ele (thing : list Vector3f) (jt : Affine3f) (idx : nat)
    : list Vector3f :=
  <[idx := translation jt]> thing.

Definition two (hand : kinematic_hand_4f) : kinematic_hand_4f :=
  let i := 0%nat in
  let kinematic0 := _two_set_ele (kinematic hand) (wrist_relation hand) i in
  let '(_, kinematic1) :=
    fold_left
      (fun acc finger_idx =>
         fold_left
           (fun acc bone_idx =>
              let i := S (fst acc) in
              (i, _two_set_ele (snd acc)
                    (world_pose (get_bone hand finger_idx bone_idx)) i))
           (seq 1 4) acc)
      (seq 0 5) (i, kinematic0) in
  let aff3d := umeyama kinematic1 (t_jts_as_mat hand) in
  _statics_init_world_poses
    (Hand (aff_mul aff3d (wrist_relation hand))
          (fingers hand) (t_jts hand) (t_jts_as_mat hand) kinematic1).

(** The five steps on the hand itself. *)
Definition hand_ops : kine_ops kinematic_hand_4f :=
  KineOps kinematic_hand_4f
    two do_it_for_bone clamp_to_x_axis clamp_proximals _statics_init_world_poses.

(** ** The joint set *)

Definition all_relation_flags : Z :=
  Z.lor (Z.lor (Z.lor XRT_SPACE_RELATION_ORIENTATION_VALID_BIT
                      XRT_SPACE_RELATION_ORIENTATION_TRACKED_BIT)
               XRT_SPACE_RELATION_POSITION_VALID_BIT)
        XRT_SPACE_RELATION_POSITION_TRACKED_BIT.

(** The writes of [make_joint_at_matrix_*] to the slot [idx]: the flags
    and the pose; the other fields of the slot stay. *)
Definition write_joint (idx : nat) (p : xrt_vec3) (q : Quaternionf)
    (hand : xrt_hand_joint_set) : xrt_hand_joint_set :=
  XrtHandJointSet
    (alter (fun v =>
              XrtHandJointValue
                (XrtSpaceRelation all_relation_flags
                   (XrtPose (XrtQuat (qx q) (qy q) (qz q) (qw q)) p)
                   (linear_velocity (relation v))
                   (angular_velocity (relation v)))
                (radius v))
           idx (hand_joint_set_default hand))
    (is_active hand).

Definition make_joint_at_matrix_left_hand (idx : nat) (pose : Affine3f)
    (hand : xrt_hand_joint_set) : xrt_hand_joint_set :=
  let v := translation pose in
  let q := quaternion_of_matrix (rotation pose) in
  write_joint idx (XrtVec3 (vx v) (vy v) (vz v)) q hand.

Definition make_joint_at_matrix_right_hand (idx : nat) (pose : Affine3f)
    (hand : xrt_hand_joint_set) : xrt_hand_joint_set :=
  let v := translation pose in
  let rotation0 := rotation pose in
  let mirror_on_x := Mat3 (-1) 0 0  0 1 0  0 0 1 in
  let rotation1 := mmul mirror_on_x rotation0 in
  let rotation2 :=
    Mat3 (m00 rotation1 * -1) (m01 rotation1) (m02 rotation1)
         (m10 rotation1 * -1) (m11 rotation1) (m12 rotation1)
         (m20 rotation1 * -1) (m21 rotation1) (m22 rotation1) in
  let q := quaternion_of_matrix rotation2 in
  write_joint idx (XrtVec3 (- vx v) (vy v) (vz v)) q hand.

Definition make_joint_at_matrix (idx : nat) (pose : Affine3f)
    (hand : xrt_hand_joint_set) (hand_idx : Z) : xrt_hand_joint_set :=
  if Z.eqb hand_idx 0 then make_joint_at_matrix_left_hand idx pose hand
  else make_joint_at_matrix_right_hand idx pose hand.

(** ** [optimize_new_frame] *)

(** The intake loop [for (i = 0; i < 21; i++)]. *)
Definition intake (model_joints_3d : list xrt_vec3) (hand : kinematic_hand_4f)
    (hand_idx : Z) : kinematic_hand_4f :=
  fold_left
    (fun hand i =>
       let p := model_joints_3d !!! i in
       let t_jts' :=
         if Z.eqb hand_idx 0 then <[i := p]> (t_jts hand)
         else <[i := XrtVec3 (- x p) (y p) (z p)]> (t_jts hand) in
       let t := t_jts' !!! i in
       Hand (wrist_relation hand) (fingers hand) t_jts'
            (<[i := Vec3 (x t) (y t) (z t)]> (t_jts_as_mat hand))
            (kinematic hand))
    (seq 0 21) hand.

Definition palm_relation (hand : kinematic_hand_4f) : Affine3f :=
  Affine (linear (world_pose (get_bone hand 2 0)))
         (vadd (vadd Zero (vdiv (translation (world_pose (get_bone hand 2 0))) 2))
               (vdiv (translation (world_pose (get_bone hand 2 1))) 2)).

(** The emission loops over fingers and bones, threading [start]. *)
Definition emit_fingers (hand : kinematic_hand_4f) (hand_idx : Z)
    (start : nat) (out : xrt_hand_joint_set) : nat * xrt_hand_joint_set :=
  fold_left
    (fun acc finger_idx =>
       fold_left
         (fun acc bone_idx =>
            if hidden_thumb finger_idx bone_idx then acc
            else if negb (Nat.eqb finger_idx 0 && Nat.eqb bone_idx 0)
            then (S (fst acc),
                  make_joint_at_matrix (fst acc)
                    (world_pose (get_bone hand finger_idx bone_idx))
                    (snd acc) hand_idx)
            else acc)
         (seq 0 5) acc)
    (seq 0 5) (start, out).

Definition optimize_new_frame (mem : frame_memory) (hand_idx : Z) : frame_memory :=
  (* intake poses! *)
  let hand := intake (model_joints_3d mem) (hand mem) hand_idx in
  (* do the math! *)
  let hand := optimize hand_ops hand in
  (* Convert it to xrt_hand_joint_set! *)
  let out := make_joint_at_matrix XRT_HAND_JOINT_WRIST (wrist_relation hand)
               (out_set mem) hand_idx in
  let out := make_joint_at_matrix XRT_HAND_JOINT_PALM (palm_relation hand)
               out hand_idx in
  let start := XRT_HAND_JOINT_THUMB_METACARPAL in
  let '(_, out) := emit_fingers hand hand_idx start out in
  FrameMemory (model_joints_3d mem) hand
    (XrtHandJointSet (hand_joint_set_default out) true).

End Solver.


(* ================================================================== *)
(** * Notions used in the properties *)

(** ** Rotations *)

(** The matrix of the quaternion [(s / 2, k / s)] in terms of
    [d = 2 / (s * s)]: what [setFromTwoVectors] builds in its generic
    branch, with [k] the cross product. *)
Definition two_vector_matrix (k : Vector3f) (d : R) : Matrix3f :=
  Mat3 (1 - (vy k * vy k + vz k * vz k) * d) (vx k * vy k * d - vz k) (vx k * vz k * d + vy k)
       (vx k * vy k * d + vz k) (1 - (vx k * vx k + vz k * vz k) * d) (vy k * vz k * d - vx k)
       (vx k * vz k * d - vy k) (vy k * vz k * d + vx k) (1 - (vx k * vx k + vy k * vy k) * d).

(** A quaternion of norm one. *)
Definition unit_quaternion (q : Quaternionf) : Prop :=
  qw q * qw q + qx q * qx q + qy q * qy q + qz q * qz q = 1.

(** The antisymmetric part of a matrix as a vector: twice the sine of the
    angle times the axis, for a rotation matrix. *)
Definition asym (m : Matrix3f) : Vector3f :=
  Vec3 (m21 m - m12 m) (m02 m - m20 m) (m10 m - m01 m).

(** The rotation by [a] about the locked axis of the hinge. *)
Definition rotation_about_x (a : R) : Matrix3f :=
  aa_toRotationMatrix (AngleAxis a UnitX).

(** The distance between two angles of [[-PI, PI]] around the circle:
    "closer considering wrap-around". *)
Definition angular_distance (a b : R) : R :=
  Rmin (Rabs (a - b)) (2 * PI - Rabs (a - b)).

(** ** The joint set *)

(** The X-mirror of a point: [P'_i = (-P_i.x, P_i.y, P_i.z)]. *)
Definition mirror_x (p : xrt_vec3) : xrt_vec3 := XrtVec3 (- x p) (y p) (z p).

(** A vector as the point it is written out as. *)
Definition map_back (v : Vector3f) : xrt_vec3 := XrtVec3 (vx v) (vy v) (vz v).

(** A joint slot carries the four flags [b1 .. b4]. *)
Definition has_flags (b1 b2 b3 b4 : Z) (v : xrt_hand_joint_value) : Prop :=
  let flags := relation_flags (relation v) in
  Z.land flags b1 = b1 /\ Z.land flags b2 = b2 /\
  Z.land flags b3 = b3 /\ Z.land flags b4 = b4.

(** The position written into a joint slot. *)
Definition joint_position (v : xrt_hand_joint_value) : xrt_vec3 :=
  position (pose (relation v)).

(** The finger bones the emission loop writes a joint for, in order:
    every bone the hidden-thumb policy lets through, the thumb's
    bone 0 apart. *)
Definition emitted_bones (hidden_thumb : nat -> nat -> bool) : list (nat * nat) :=
  filter (fun fb => negb (hidden_thumb (fst fb) (snd fb)) &&
                    negb (Nat.eqb (fst fb) 0 && Nat.eqb (snd fb) 0))
         (flat_map (fun finger_idx => map (pair finger_idx) (seq 0 5)) (seq 0 5)).

(** The joint indices a solve emits: the wrist, the palm, and one slot
    per emitted finger bone from the thumb metacarpal on. *)
Definition emitted_index (hidden_thumb : nat -> nat -> bool)
    (palm wrist thumb_metacarpal : nat) (idx : nat) : Prop :=
  idx = wrist \/ idx = palm \/
  (thumb_metacarpal <= idx < thumb_metacarpal + length (emitted_bones hidden_thumb))%nat.

(** The slots of a joint array after some writes: each one is as it was
    or carries the four flags. *)
Definition emitted_flags (b1 b2 b3 b4 : Z) (old new : list xrt_hand_joint_value) : Prop :=
  length new = length old /\
  forall idx, new !! idx = old !! idx \/
              exists v, new !! idx = Some v /\ has_flags b1 b2 b3 b4 v.

(** The slots from [lo] up to [hi] of a joint array carry the four flags. *)
Definition flagged_range (b1 b2 b3 b4 : Z) (lo hi : nat)
    (l : list xrt_hand_joint_value) : Prop :=
  forall idx v, (lo <= idx < hi)%nat -> l !! idx = Some v -> has_flags b1 b2 b3 b4 v.

(** The slot [idx] of the left and of the right joint array hold
    positions that are X-mirror images of each other. *)
Definition mirrored_slot (idx : nat) (l r : list xrt_hand_joint_value) : Prop :=
  forall vl vr, l !! idx = Some vl -> r !! idx = Some vr ->
                joint_position vr = mirror_x (joint_position vl).

(** The slots of two joint arrays after the same writes for the left and
    for the right hand: each slot is untouched in both, or holds
    positions that are X-mirror images of each other. *)
Definition mirrored_joints (old l r : list xrt_hand_joint_value) : Prop :=
  length l = length old /\ length r = length old /\
  forall idx, (l !! idx = old !! idx /\ r !! idx = old !! idx) \/
              exists vl vr, l !! idx = Some vl /\ r !! idx = Some vr /\
                            joint_position vr = mirror_x (joint_position vl).

(* ================================================================== *)
(** * Sample hands and frames *)

(** A hand at rest: every transform the identity, every target point the
    origin, bone [b] of finger [f] tied to the keypoint [4 * f + b]. *)
Definition rest_bone (keypoint : nat) : bone_t :=
  Bone aff_Identity aff_Identity keypoint.

Definition rest_finger (finger_idx : nat) : finger_t :=
  Finger (map (fun bone_idx => rest_bone (4 * finger_idx + bone_idx)) (seq 0 5)).

Definition rest_hand : kinematic_hand_4f :=
  Hand aff_Identity (map rest_finger (seq 0 5))
       (replicate 21 (XrtVec3 0 0 0)) (replicate 21 Zero) (replicate 21 Zero).

(** The rest hand with bone 2 of the index finger turned by -175 degrees
    about its hinge axis. *)
Definition overbent_hand : kinematic_hand_4f :=
  set_bone_linear rest_hand 1 2 (rotation_about_x (rad (-175))).

(** The quarter turn about the X axis: a finger bent by exactly 90
    degrees. *)
Definition quarter_turn_x : Matrix3f := Mat3 1 0 0  0 0 (-1)  0 1 0.

(** The rest hand with bone 1 of the index finger bent by a quarter turn. *)
Definition quarter_bent_hand : kinematic_hand_4f :=
  set_bone_linear rest_hand 1 1 quarter_turn_x.

(** A hand for the rotation estimator: on the index finger, bone 3 is
    turned by a quarter turn about X, in its local rotation and in its
    world pose, and sits at the origin; its only descendant, bone 4, is
    at [(0, 1, 0)], straight ahead of bone 3 in the frame of bone 3; the
    target point of bone 4 is [(1, 0, 0)]. *)
Definition estimator_hand : kinematic_hand_4f :=
  let h1 := set_bone rest_hand 1 3
              (Bone (Affine quarter_turn_x Zero) (Affine quarter_turn_x Zero) 7) in
  let h2 := set_bone h1 1 4
              (Bone aff_Identity (Affine Identity (Vec3 0 1 0)) 8) in
  Hand (wrist_relation h2) (fingers h2)
       (<[8%nat := XrtVec3 1 0 0]> (t_jts h2)) (t_jts_as_mat h2) (kinematic h2).

(** A local rotation for the swing-twist clamp: it swings the forward
    axis to [(2/3, 2/3, -1/3)], of tangents [(2, 2)], and twists by a
    quarter turn about that direction. *)
Definition swing_rot : Matrix3f :=
  Mat3 (1/3) (2/3) (-2/3)  (-2/3) (-1/3) (-2/3)  (-2/3) (2/3) (1/3).

(** The rest hand with bone 1 of the index finger set to [swing_rot]. *)
Definition swing_hand : kinematic_hand_4f :=
  set_bone_linear rest_hand 1 1 swing_rot.

(** Sample collaborators for running the entry point: an alignment that
    never moves the wrist, forward kinematics that leaves the poses as
    they are, and a policy hiding the thumb's bone 0. *)
Definition sample_umeyama (src dst : list Vector3f) : Affine3f := aff_Identity.

Definition sample_statics (hand : kinematic_hand_4f) : kinematic_hand_4f := hand.

Definition sample_hidden_thumb (finger_idx bone_idx : nat) : bool :=
  Nat.eqb finger_idx 0 && Nat.eqb bone_idx 0.

(** A frame: 21 points at the origin, the rest hand, and a joint set of
    26 slots not yet active. *)
Definition sample_frame : frame_memory :=
  FrameMemory (replicate 21 (XrtVec3 0 0 0)) rest_hand
              (XrtHandJointSet (replicate 26 inhabitant) false).

(* ================================================================== *)
(** * Notions used in the further properties *)

(** ** The schedule *)

(** The calls of one pass of the loop of [optimize], and of the whole
    function: fifteen passes and the closing alignment. *)
Definition iteration_calls : list call :=
  [Call_two] ++ thumb_calls ++ [Call_two]
  ++ finger_calls 1 ++ finger_calls 2 ++ finger_calls 3 ++ finger_calls 4.

Definition optimize_calls : list call :=
  concat (replicate 15 iteration_calls) ++ [Call_two].

(** The bone a call works on, for the three per-bone steps. *)
Definition call_target (c : call) : option (nat * nat) :=
  match c with
  | Call_do_it_for_bone f b _ => Some (f, b)
  | Call_clamp_to_x_axis f b _ _ _ => Some (f, b)
  | Call_clamp_proximals f b _ _ _ _ _ => Some (f, b)
  | _ => None
  end.

(** [num_children] of [do_it_for_bone]. *)
Definition num_children (hand : kinematic_hand_4f) (finger_idx bone_idx : nat) : nat :=
  fst (fst (sum_children hand (fingers hand !!! finger_idx) bone_idx)).

(** A call is the estimator on the bone [(f, b)]. *)
Definition is_estimator_on (f b : nat) (c : call) : Prop :=
  exists flag, c = Call_do_it_for_bone f b flag.

(** A call is a limiter on the bone [(f, b)]. *)
Definition is_limiter_on (f b : nat) (c : call) : Prop :=
  exists kind flag, limiter_of c = Some (f, b, kind, flag).

(** The schedule is made of blocks: an alignment alone, or the estimator
    on a bone, a limiter on the same bone and the forward-kinematics
    recompute. *)
Definition is_block (l : list call) : Prop :=
  l = [Call_two] \/
  exists f b flag c,
    is_limiter_on f b c /\
    l = [Call_do_it_for_bone f b flag; c; Call_statics_init_world_poses].

(** In a log, every limiter stands between the estimator on its bone and
    the recompute, and every estimator is followed by a limiter on its
    bone. *)
Definition limiters_enclosed (l : list call) : Prop :=
  (forall i c f b,
      l !! S i = Some c -> is_limiter_on f b c ->
      (exists flag, l !! i = Some (Call_do_it_for_bone f b flag)) /\
      l !! S (S i) = Some Call_statics_init_world_poses) /\
  (forall i f b flag,
      l !! i = Some (Call_do_it_for_bone f b flag) ->
      exists c, l !! S i = Some c /\ is_limiter_on f b c).

(** ** The per-bone steps *)

(** Two hands differ at most in the local rotation of the bone [(f, b)]:
    the wrist, the target points, the point matrices, every other bone,
    and the translation, the world pose and the keypoint of the bone
    itself are the same. *)
Definition only_bone_linear_differs (hand hand' : kinematic_hand_4f) (f b : nat) : Prop :=
  wrist_relation hand' = wrist_relation hand /\
  t_jts hand' = t_jts hand /\
  t_jts_as_mat hand' = t_jts_as_mat hand /\
  kinematic hand' = kinematic hand /\
  (forall f' b', (f', b') <> (f, b) -> get_bone hand' f' b' = get_bone hand f' b') /\
  translation (bone_relation (get_bone hand' f b))
  = translation (bone_relation (get_bone hand f b)) /\
  world_pose (get_bone hand' f b) = world_pose (get_bone hand f b) /\
  keypoint_idx_21 (get_bone hand' f b) = keypoint_idx_21 (get_bone hand f b).

(** ** The joint set: what a solve writes *)

(** The orientation written into a joint slot. *)
Definition joint_orientation (v : xrt_hand_joint_value) : xrt_quat :=
  orientation (pose (relation v)).

(** A quaternion as the source stores it, field by field, and back. *)
Definition store_quat (q : Quaternionf) : xrt_quat :=
  XrtQuat (qx q) (qy q) (qz q) (qw q).

Definition load_quat (q : xrt_quat) : Quaternionf :=
  Quat (quat_w q) (quat_x q) (quat_y q) (quat_z q).

(** The X-mirror of an orientation: [y] and [z] negated. *)
Definition mirror_quat (q : xrt_quat) : xrt_quat :=
  XrtQuat (quat_x q) (- quat_y q) (- quat_z q) (quat_w q).

(** The opposite quaternion, which stands for the same rotation. *)
Definition neg_quat (q : xrt_quat) : xrt_quat :=
  XrtQuat (- quat_x q) (- quat_y q) (- quat_z q) (- quat_w q).

(** The X-mirror of a matrix: [M * m * M] for [M] the reflection
    [diag(-1, 1, 1)], that is, the first row and then the first column
    negated. *)
Definition mirror_conjugate (m : Matrix3f) : Matrix3f :=
  Mat3 (m00 m) (- m01 m) (- m02 m)
       (- m10 m) (m11 m) (m12 m)
       (- m20 m) (m21 m) (m22 m).

(** The slot [v] after one [make_joint_at_matrix] for [pose]: the four
    flags, the position and the orientation of the handedness; the
    velocities and the radius stay. *)
Definition written_joint (rotation : Affine3f -> Matrix3f) (flags : Z)
    (hand_idx : Z) (pose : Affine3f) (v : xrt_hand_joint_value) : xrt_hand_joint_value :=
  let p := map_back (translation pose) in
  let r := rotation pose in
  XrtHandJointValue
    (XrtSpaceRelation flags
       (XrtPose
          (store_quat (quaternion_of_matrix
                         (if Z.eqb hand_idx 0 then r else mirror_conjugate r)))
          (if Z.eqb hand_idx 0 then p else mirror_x p))
       (linear_velocity (relation v))
       (angular_velocity (relation v)))
    (radius v).

(** A list numbered from [start] on. *)
Fixpoint number_from {A : Type} (start : nat) (l : list A) : list (nat * A) :=
  match l with
  | [] => []
  | a :: l => (start, a) :: number_from (S start) l
  end.

(** The writes of a solve on the hand [h], in order: the wrist, the palm,
    and the world pose of every emitted finger bone, numbered from the
    thumb metacarpal on. *)
Definition solve_writes (hidden_thumb : nat -> nat -> bool)
    (palm wrist thumb_metacarpal : nat) (h : kinematic_hand_4f) : list (nat * Affine3f) :=
  (wrist, wrist_relation h) :: (palm, palm_relation h) ::
  number_from thumb_metacarpal
    (map (fun fb => world_pose (get_bone h (fst fb) (snd fb)))
         (emitted_bones hidden_thumb)).

(** The pose of the last write to the slot [idx], if there is one. *)
Fixpoint last_write (ws : list (nat * Affine3f)) (idx : nat) : option Affine3f :=
  match ws with
  | [] => None
  | (i, p) :: ws =>
      match last_write ws idx with
      | Some p' => Some p'
      | None => if Nat.eqb i idx then Some p else None
      end
  end.

(** The midpoint of two points. *)
Definition midpoint (a b : Vector3f) : Vector3f :=
  Vec3 ((vx a + vx b) / 2) ((vy a + vy b) / 2) ((vz a + vz b) / 2).

(** ** The alignment *)

(** The 3x21 matrix [hand->kinematic] as [two] fills it before the
    alignment. *)
Definition two_kinematic (hand : kinematic_hand_4f) : list Vector3f :=
  let i := 0%nat in
  let kinematic0 := <[i := translation (wrist_relation hand)]> (kinematic hand) in
  snd (fold_left
         (fun acc finger_idx =>
            fold_left
              (fun acc bone_idx =>
                 let i := S (fst acc) in
                 (i, <[i := translation (world_pose (get_bone hand finger_idx bone_idx))]>
                       (snd acc)))
              (seq 1 4) acc)
         (seq 0 5) (i, kinematic0)).

(** The hand [two] hands to the forward kinematics: the wrist moved by
    the alignment, the point matrix filled. *)
Definition two_aligned (umeyama : list Vector3f -> list Vector3f -> Affine3f)
    (hand : kinematic_hand_4f) : kinematic_hand_4f :=
  let k := two_kinematic hand in
  Hand (aff_mul (umeyama k (t_jts_as_mat hand)) (wrist_relation hand))
       (fingers hand) (t_jts hand) (t_jts_as_mat hand) k.

(** ** A sample hand whose chain points at its target *)

(** [estimator_hand] with the target point of bone 4 of the index finger
    moved onto the bone itself, at [(0, 1, 0)]: for bone 3 the current
    direction and the target direction are both [(0, 0, -1)]. *)
Definition aligned_hand : kinematic_hand_4f :=
  Hand (wrist_relation estimator_hand) (fingers estimator_hand)
       (<[8%nat := XrtVec3 0 1 0]> (t_jts estimator_hand))
       (t_jts_as_mat estimator_hand) (kinematic estimator_hand).

(** ** The hinge clamp as the specification words it *)

(** The complementary wrapped value of an angle of [(-PI, PI]]: the same
    direction, a full turn away on the other side of zero. *)
Definition complementary_wrapped_value (a : R) : R :=
  if Rlt_dec a 0 then a + 2 * PI else a - 2 * PI.

(** The bound that is closer considering wrap-around, as the
    specification words the choice: the angle is compared to
    [max_angle] by its non-negative representative and to [min_angle]
    by its negative one, one of the two being its complementary wrapped
    value. *)
Definition spec_choose_bound (rotation_value min_angle max_angle : R) : R :=
  let positive :=
    if Rlt_dec rotation_value 0 then complementary_wrapped_value rotation_value
    else rotation_value in
  let negative :=
    if Rlt_dec rotation_value 0 then rotation_value
    else complementary_wrapped_value rotation_value in
  if Rlt_dec (min_angle - negative) (positive - max_angle) then min_angle
  else max_angle.
(* ================================================================== *)
(** * Properties *)

(** ** Small checks of the definitions *)

Example rad_180 : rad 180 = PI.
Proof. unfold rad. field. Qed.

Example clamp_below : clamp (-3) (-1) 1 = -1.
Proof.
  unfold clamp. rewrite (Rmax_left (-1) (-3)) by lra. apply Rmin_right. lra.
Qed.

Example clamp_inside : clamp (1 / 2) (-1) 1 = 1 / 2.
Proof.
  unfold clamp. rewrite (Rmax_right (-1) (1 / 2)) by lra. apply Rmin_right. lra.
Qed.

Example clamp_above : clamp 2 (-1) 1 = 1.
Proof.
  unfold clamp. rewrite (Rmax_right (-1) 2) by lra. apply Rmin_left. lra.
Qed.

Example atan2_up : atan2 1 0 = PI / 2.
Proof.
  unfold atan2.
  destruct (Rlt_dec 0 0) as [H|_]; [lra|].
  destruct (Rlt_dec 0 1) as [_|H]; [reflexivity|lra].
Qed.

Example atan2_left : atan2 0 (-1) = PI.
Proof.
  unfold atan2.
  destruct (Rlt_dec 0 (-1)) as [H|_]; [lra|].
  destruct (Rlt_dec (-1) 0) as [_|H]; [|lra].
  destruct (Rle_dec 0 0) as [_|H]; [|lra].
  replace (0 / -1) with 0 by field. rewrite atan_0. ring.
Qed.

Example limiters_of_middle_finger :
  limiters (do_it_for_finger trace_ops [] 2) =
  [ (2%nat, 0%nat, SwingTwistClamp, false); (2%nat, 1%nat, SwingTwistClamp, false);
    (2%nat, 2%nat, HingeClamp, true); (2%nat, 3%nat, HingeClamp, true) ].
Proof. reflexivity. Qed.

Example calls_per_iteration :
  length (optimize_iteration trace_ops []) = 59%nat.
Proof. reflexivity. Qed.

Example emitted_bones_sample : length (emitted_bones sample_hidden_thumb) = 24%nat.
Proof. reflexivity. Qed.

Example rest_hand_keypoint : keypoint_idx_21 (get_bone rest_hand 4 4) = 20%nat.
Proof. reflexivity. Qed.

(** ** The optimizer schedule *)

Lemma run_calls_app {H : Type} (ops : kine_ops H) (cs1 cs2 : list call) (hand : H) :
  run_calls ops (cs1 ++ cs2) hand = run_calls ops cs2 (run_calls ops cs1 hand).
Proof. unfold run_calls. apply fold_left_app. Qed.

Lemma do_it_for_finger_calls {H : Type} (ops : kine_ops H) (hand : H) (finger_idx : nat) :
  do_it_for_finger ops hand finger_idx = run_calls ops (finger_calls finger_idx) hand.
Proof. reflexivity. Qed.

Lemma optimize_iteration_calls {H : Type} (ops : kine_ops H) (hand : H) :
  optimize_iteration ops hand =
  run_calls ops
    ([Call_two] ++ thumb_calls ++ [Call_two]
     ++ finger_calls 1 ++ finger_calls 2 ++ finger_calls 3 ++ finger_calls 4)
    hand.
Proof. reflexivity. Qed.

Lemma run_calls_trace (cs : list call) (t : list call) :
  run_calls trace_ops cs t = t ++ cs.
Proof.
  unfold run_calls. revert t.
  induction cs as [|c cs IH]; intros t; simpl.
  - now rewrite app_nil_r.
  - rewrite IH. destruct c; simpl; now rewrite <- app_assoc.
Qed.

Lemma limiters_finger_calls (finger_idx : nat) :
  limiters (finger_calls finger_idx) =
  [ (finger_idx, 0%nat, SwingTwistClamp, false);
    (finger_idx, 1%nat, SwingTwistClamp, false);
    (finger_idx, 2%nat, HingeClamp, true);
    (finger_idx, 3%nat, HingeClamp, true) ].
Proof. reflexivity. Qed.

(** C1, as stated: the limiters of a finger would be the swing-twist clamp
    on bone 0 and the hinge clamp on bones 1, 2 and 3.  On the index
    finger the source calls [clamp_proximals] on bone 1 instead. *)
Lemma C1_spec_schedule_refuted :
  limiters (do_it_for_finger trace_ops [] 1) <> spec_finger_limiters 1.
Proof.
  rewrite do_it_for_finger_calls, run_calls_trace, app_nil_l, limiters_finger_calls.
  unfold spec_finger_limiters. intros E.
  apply (f_equal (fun l => nth 1 l (0%nat, 0%nat, HingeClamp, true))) in E.
  simpl in E. discriminate E.
Qed.

(** C1, amended: on every interface of steps, and so on the hand itself,
    one pass over a finger is the twelve calls of [finger_calls] in this
    order -- on each of the bones 0, 1, 2, 3 in turn the rotation
    estimator, then the limiter, then forward kinematics -- where the
    limiter is the swing-twist clamp on bones 0 and 1 and the hinge clamp
    with the range of -90 to 10 degrees on bones 2 and 3; and one
    optimizer iteration runs these passes on the fingers 1, 2, 3, 4 in
    this order after the thumb part. *)
Theorem C1_finger_schedule :
  forall (H : Type) (ops : kine_ops H) (hand : H),
    (forall finger_idx,
        do_it_for_finger ops hand finger_idx =
        run_calls ops (finger_calls finger_idx) hand) /\
    optimize_iteration ops hand =
      run_calls ops
        ([Call_two] ++ thumb_calls ++ [Call_two]
         ++ finger_calls 1 ++ finger_calls 2 ++ finger_calls 3 ++ finger_calls 4)
        hand /\
    (forall finger_idx,
        finger_calls finger_idx =
        [ Call_do_it_for_bone finger_idx 0 false;
          Call_clamp_proximals finger_idx 0 (rad 4)
            (tan (rad (-30))) (tan (rad 30)) (tan (rad (-10))) (tan (rad 10));
          Call_statics_init_world_poses;
          Call_do_it_for_bone finger_idx 1 true;
          Call_clamp_proximals finger_idx 1 (rad 4)
            (tan (rad (-20))) (tan (rad 20)) (tan (rad (-89))) (tan (rad 30));
          Call_statics_init_world_poses;
          Call_do_it_for_bone finger_idx 2 true;
          Call_clamp_to_x_axis finger_idx 2 true (rad (-90)) (rad 10);
          Call_statics_init_world_poses;
          Call_do_it_for_bone finger_idx 3 true;
          Call_clamp_to_x_axis finger_idx 3 true (rad (-90)) (rad 10);
          Call_statics_init_world_poses ]) /\
    (forall finger_idx t,
        limiters (do_it_for_finger trace_ops t finger_idx) =
        limiters t ++
        [ (finger_idx, 0%nat, SwingTwistClamp, false);
          (finger_idx, 1%nat, SwingTwistClamp, false);
          (finger_idx, 2%nat, HingeClamp, true);
          (finger_idx, 3%nat, HingeClamp, true) ]).
Proof.
  intros H ops hand. split; [|split; [|split]].
  - intros f. apply do_it_for_finger_calls.
  - apply optimize_iteration_calls.
  - reflexivity.
  - intros f t.
    rewrite do_it_for_finger_calls, run_calls_trace.
    unfold limiters. rewrite omap_app. f_equal.
Qed.

(* ================================================================== *)
(** ** Angles *)

Lemma tan_plus_PI (a : R) : cos a <> 0 -> tan (a + PI) = tan a.
Proof.
  intros H. unfold tan. rewrite neg_sin, neg_cos. field. exact H.
Qed.

Lemma tan_minus_PI (a : R) : cos a <> 0 -> tan (a - PI) = tan a.
Proof.
  intros H. rewrite <- (tan_plus_PI (a - PI)).
  - f_equal. ring.
  - replace a with ((a - PI) + PI) in H by ring. rewrite neg_cos in H. lra.
Qed.

(** The two-argument arctangent recovers an angle of [(-PI, PI]] from its
    sine and cosine. *)
Lemma atan2_sin_cos (a : R) : - PI < a <= PI -> atan2 (sin a) (cos a) = a.
Proof.
  intros [Hlo Hhi]. pose proof PI_RGT_0 as Hpi. unfold atan2.
  destruct (Rlt_dec 0 (cos a)) as [Hc|Hc].
  - (* a in (-PI/2, PI/2) *)
    assert (- (PI / 2) < a < PI / 2) as Ha.
    { split.
      - destruct (Rlt_dec (- (PI / 2)) a) as [|Hn]; [assumption|exfalso].
        destruct (Req_dec a (- (PI / 2))) as [->|Hne].
        + rewrite cos_neg, cos_PI2 in Hc. lra.
        + assert (cos (- a) < 0) by (apply cos_lt_0; lra).
          rewrite cos_neg in *. lra.
      - destruct (Rlt_dec a (PI / 2)) as [|Hn]; [assumption|exfalso].
        destruct (Req_dec a (PI / 2)) as [->|Hne].
        + rewrite cos_PI2 in Hc. lra.
        + assert (cos a < 0) by (apply cos_lt_0; lra). lra. }
    change (sin a / cos a) with (tan a). now apply atan_tan.
  - destruct (Rlt_dec (cos a) 0) as [Hc'|Hc'].
    + assert (cos a <> 0) as Hcn by lra.
      assert (~ (- (PI / 2) <= a <= PI / 2)) as Hout.
      { intros [H1 H2]. pose proof (cos_ge_0 a H1 H2). lra. }
      change (sin a / cos a) with (tan a).
      destruct (Rle_dec 0 (sin a)) as [Hs|Hs].
      * assert (PI / 2 < a) as Ha.
        { destruct (Rlt_dec (PI / 2) a) as [|Hn]; [assumption|exfalso].
          assert (a < 0) as Hneg.
          { destruct (Rlt_dec a 0); [assumption|]. exfalso. apply Hout. lra. }
          pose proof (sin_lt_0_var a Hlo Hneg). lra. }
        rewrite <- (tan_minus_PI a Hcn). rewrite atan_tan; lra.
      * assert (a < - (PI / 2)) as Ha.
        { destruct (Rlt_dec a (- (PI / 2))) as [|Hn]; [assumption|exfalso].
          assert (0 <= a) as Hpos.
          { destruct (Rle_dec 0 a); [assumption|]. exfalso. apply Hout. lra. }
          pose proof (sin_ge_0 a Hpos Hhi). lra. }
        rewrite <- (tan_plus_PI a Hcn). rewrite atan_tan; lra.
    + assert (cos a = 0) as Hz by lra.
      assert (a = PI / 2 \/ a = - (PI / 2)) as [->| ->].
      { destruct (Rlt_dec (PI / 2) a).
        - assert (cos a < 0) by (apply cos_lt_0; lra). lra.
        - destruct (Rlt_dec a (- (PI / 2))).
          + assert (cos (- a) < 0) by (apply cos_lt_0; lra).
            rewrite cos_neg in *. lra.
          + destruct (Req_dec a (PI / 2)); [now left|].
            destruct (Req_dec a (- (PI / 2))); [now right|].
            assert (0 < cos a) by (apply cos_gt_0; lra). lra. }
      * rewrite sin_PI2.
        destruct (Rlt_dec 0 1); [reflexivity|lra].
      * rewrite sin_neg, sin_PI2.
        destruct (Rlt_dec 0 _); [lra|].
        destruct (Rlt_dec _ 0); [reflexivity|lra].
Qed.

(** ** Reading and writing a bone *)

Lemma hand_wf_bone_slot (hand : kinematic_hand_4f) (f b : nat) :
  hand_wf hand -> (f < 5)%nat -> (b < 5)%nat ->
  (f < length (fingers hand))%nat /\ (b < length (bones (fingers hand !!! f)))%nat.
Proof.
  intros [Hf Hb] Hlt Hlt'. split; [lia|].
  assert (fingers hand !! f = Some (fingers hand !!! f)) as Hlk.
  { apply list_lookup_lookup_total_lt. lia. }
  rewrite (Forall_lookup_1 _ _ _ _ Hb Hlk). exact Hlt'.
Qed.

Lemma bone_linear_set_bone_linear (hand : kinematic_hand_4f) (f b : nat) (m : Matrix3f) :
  hand_wf hand -> (f < 5)%nat -> (b < 5)%nat ->
  bone_linear (set_bone_linear hand f b m) f b = m.
Proof.
  intros Hwf Hf Hb.
  destruct (hand_wf_bone_slot hand f b Hwf Hf Hb) as [Hf' Hb'].
  unfold bone_linear, set_bone_linear, set_bone, get_bone. simpl.
  rewrite list_lookup_total_alter_eq by exact Hf'. simpl.
  rewrite list_lookup_total_insert_eq by exact Hb'. reflexivity.
Qed.

Lemma rest_hand_wf : hand_wf rest_hand.
Proof.
  split; [reflexivity|]. repeat constructor.
Qed.

(** ** The hinge clamp *)

Lemma rotation_about_x_coeffs (a : R) :
  rotation_about_x a = Mat3 1 0 0  0 (cos a) (- sin a)  0 (sin a) (cos a).
Proof.
  unfold rotation_about_x, aa_toRotationMatrix. simpl. f_equal; ring.
Qed.

Lemma hinge_rotation_value_about_x (a : R) :
  - PI < a <= PI -> hinge_rotation_value (rotation_about_x a) = a.
Proof.
  intros Ha. rewrite rotation_about_x_coeffs.
  unfold hinge_rotation_value. simpl.
  replace (0 * 0 + sin a * 1 + cos a * 0) with (sin a) by ring.
  replace (0 * 0 + cos a * 1 + - sin a * 0) with (cos a) by ring.
  now apply atan2_sin_cos.
Qed.

Lemma normalized_unit (v : Vector3f) : squaredNorm v = 1 -> normalized v = v.
Proof.
  intros H. unfold normalized. rewrite H.
  destruct (Rlt_dec 0 1) as [_|n]; [|lra].
  rewrite sqrt_1. unfold vscale. destruct v; simpl. f_equal; field.
Qed.

Lemma setFromTwoVectors_same (v : Vector3f) :
  squaredNorm v = 1 -> toRotationMatrix (setFromTwoVectors v v) = Identity.
Proof.
  intros H. unfold setFromTwoVectors. rewrite (normalized_unit v H).
  change (dot v v) with (squaredNorm v). rewrite H.
  destruct (Rle_dec 1 (-1)) as [Hc|_]; [lra|].
  unfold toRotationMatrix, cross, Identity. simpl. f_equal; ring.
Qed.

Lemma mmul_Identity_l (m : Matrix3f) : mmul Identity m = m.
Proof. destruct m. unfold mmul, Identity. simpl. f_equal; ring. Qed.

Lemma hinge_correct_about_x (a : R) :
  hinge_correct (rotation_about_x a) = rotation_about_x a.
Proof.
  unfold hinge_correct.
  assert (mulv (rotation_about_x a) (axes hinge_axis) = UnitX) as ->.
  { rewrite rotation_about_x_coeffs. unfold mulv, UnitX. simpl. f_equal; ring. }
  assert (squaredNorm UnitX = 1) as H1 by (unfold squaredNorm, dot; simpl; ring).
  rewrite (normalized_unit UnitX H1). simpl axes.
  rewrite (setFromTwoVectors_same UnitX H1). apply mmul_Identity_l.
Qed.

(** Whatever the rotation handed in, the clamped result reads an angle
    within the range, as soon as the range lies within [(-PI, PI]]. *)
Lemma clamp_to_x_axis_linear_in_range (m : Matrix3f) (min_angle max_angle : R) :
  - PI < min_angle -> min_angle <= max_angle -> max_angle <= PI ->
  min_angle <= hinge_rotation_value (clamp_to_x_axis_linear m true min_angle max_angle)
            <= max_angle.
Proof.
  intros Hlo Hle Hhi. unfold clamp_to_x_axis_linear. simpl negb. cbv iota.
  set (m1 := hinge_correct m).
  assert (forall b, b = min_angle \/ b = max_angle ->
             min_angle <= hinge_rotation_value
                            (aa_toRotationMatrix (AngleAxis b (axes hinge_axis)))
                       <= max_angle) as Hb.
  { intros b Hb. change (aa_toRotationMatrix (AngleAxis b (axes hinge_axis)))
      with (rotation_about_x b).
    rewrite hinge_rotation_value_about_x; destruct Hb; subst; lra. }
  assert (hinge_choose_bound (hinge_rotation_value m1) min_angle max_angle = min_angle \/
          hinge_choose_bound (hinge_rotation_value m1) min_angle max_angle = max_angle) as Hc.
  { unfold hinge_choose_bound. destruct (Rlt_dec _ _); auto. }
  destruct (Rlt_dec (hinge_rotation_value m1) max_angle) as [H1|H1].
  - destruct (Rlt_dec min_angle (hinge_rotation_value m1)) as [H2|H2].
    + lra.
    + apply Hb, Hc.
  - apply Hb, Hc.
Qed.

Lemma rad_bounds (d : R) : -180 < d <= 180 -> - PI < rad d <= PI.
Proof.
  intros [H1 H2]. pose proof PI_RGT_0. unfold rad. split; nra.
Qed.

Lemma rad_le (d1 d2 : R) : d1 <= d2 -> rad d1 <= rad d2.
Proof. intros H. pose proof PI_RGT_0. unfold rad. nra. Qed.

Lemma rad_lt (d1 d2 : R) : d1 < d2 -> rad d1 < rad d2.
Proof. intros H. pose proof PI_RGT_0. unfold rad. nra. Qed.
Lemma set_bone_linear_wf (hand : kinematic_hand_4f) (f b : nat) (m : Matrix3f) :
  hand_wf hand -> hand_wf (set_bone_linear hand f b m).
Proof.
  intros [Hf Hb]. unfold hand_wf, set_bone_linear, set_bone. simpl. split.
  - now rewrite length_alter.
  - apply Forall_alter; [exact Hb|].
    intros fg Hlk Hfg. simpl. rewrite length_insert. exact Hfg.
Qed.

(** C4: after the hinge clamp with the range of -90 to 10 degrees, the
    angle about the locked axis, read with the two-argument arctangent
    off the image of the second axis, lies within the range widened by
    any tolerance [eps], whatever the local rotation of the bone was. *)
Theorem C4_hinge_bound :
  forall (hand : kinematic_hand_4f) (finger_idx bone_idx : nat) (eps : R),
    hand_wf hand -> (finger_idx < 5)%nat -> (bone_idx < 5)%nat -> 0 <= eps ->
    rad (-90) - eps
    <= hinge_rotation_value
         (bone_linear
            (clamp_to_x_axis hand finger_idx bone_idx true (rad (-90)) (rad 10))
            finger_idx bone_idx)
    <= rad 10 + eps.
Proof.
  intros hand f b eps Hwf Hf Hb Heps. unfold clamp_to_x_axis.
  rewrite (bone_linear_set_bone_linear hand f b _ Hwf Hf Hb).
  pose proof (clamp_to_x_axis_linear_in_range (bone_linear hand f b)
                (rad (-90)) (rad 10)) as H.
  destruct H as [H1 H2].
  - apply rad_bounds. lra.
  - apply rad_le. lra.
  - apply rad_bounds. lra.
  - lra.
Qed.

Lemma C4_hinge_bound_witness :
  rad (-90) - 0
  <= hinge_rotation_value
       (bone_linear (clamp_to_x_axis overbent_hand 1 2 true (rad (-90)) (rad 10)) 1 2)
  <= rad 10 + 0.
Proof.
  apply (C4_hinge_bound overbent_hand 1 2 0).
  - apply set_bone_linear_wf, rest_hand_wf.
  - lia.
  - lia.
  - lra.
Defined.

(** At the two call sites of the source the bound chosen is a nearest
    one: whenever the range straddles zero and leans to the negative
    side, the code's choice is at least as close, around the circle, as
    the other bound. *)
Lemma hinge_choose_bound_nearest (rv lo hi other : R) :
  - PI <= rv <= PI -> - PI < lo -> lo <= 0 -> 0 <= hi -> hi < PI -> lo + hi <= 0 ->
  ~ (lo < rv < hi) -> other = lo \/ other = hi ->
  angular_distance rv (hinge_choose_bound rv lo hi) <= angular_distance rv other.
Proof.
  intros Hrv Hlo Hlo0 Hhi0 Hhi Hsum Hout Hother.
  pose proof PI_RGT_0 as Hpi.
  unfold hinge_choose_bound, positive_rotation_value, negative_rotation_value,
    angular_distance.
  destruct (Rlt_dec rv 0); destruct (Rlt_dec _ _);
    destruct Hother; subst other;
    unfold Rmin, Rabs;
    repeat (match goal with
            | |- context [Rle_dec ?a ?b] => destruct (Rle_dec a b)
            | |- context [Rcase_abs ?a] => destruct (Rcase_abs a)
            end); lra.
Qed.

(** The hypothesis that the range leans to the negative side is needed.
    No call of the source passes the range of -10 to 90 degrees; with it,
    and a bone turned by -175 degrees about the locked axis, the upper
    bound is the closer one around the circle (95 against 165 degrees),
    while [2 * PI - rotation_value], the value the source compares for a
    negative angle, is not the wrapped angle [rotation_value + 2 * PI],
    and the rotation is set to the lower bound. *)
Lemma hinge_choice_leaning_positive :
  bone_linear (clamp_to_x_axis overbent_hand 1 2 true (rad (-10)) (rad 90)) 1 2
    = rotation_about_x (rad (-10)) /\
  angular_distance (rad (-175)) (rad 90) < angular_distance (rad (-175)) (rad (-10)) /\
  positive_rotation_value (rad (-175)) = 2 * PI + rad 175 /\
  positive_rotation_value (rad (-175)) <> rad (-175) + 2 * PI.
Proof.
  pose proof PI_RGT_0 as Hpi.
  assert (rad (-175) < 0) as Hneg by (unfold rad; nra).
  split; [|split; [|split]].
  - unfold clamp_to_x_axis, overbent_hand.
    rewrite (bone_linear_set_bone_linear _ 1 2); [| | lia | lia].
    2:{ apply set_bone_linear_wf, rest_hand_wf. }
    rewrite (bone_linear_set_bone_linear _ 1 2 _ rest_hand_wf); [| lia | lia].
    unfold clamp_to_x_axis_linear. simpl negb. cbv iota.
    rewrite hinge_correct_about_x.
    rewrite hinge_rotation_value_about_x by (apply rad_bounds; lra).
    cbv zeta.
    destruct (Rlt_dec (rad (-175)) (rad 90)) as [_|n];
      [|exfalso; apply n, rad_lt; lra].
    destruct (Rlt_dec (rad (-10)) (rad (-175))) as [Hc|_].
    { unfold rad in Hc. nra. }
    unfold hinge_choose_bound, positive_rotation_value, negative_rotation_value.
    destruct (Rlt_dec (rad (-175)) 0) as [_|n]; [|lra].
    destruct (Rlt_dec _ _) as [_|n]; [reflexivity|].
    exfalso. apply n. unfold rad. nra.
  - unfold angular_distance, rad, Rmin, Rabs.
    repeat (match goal with
            | |- context [Rle_dec ?a ?b] => destruct (Rle_dec a b)
            | |- context [Rcase_abs ?a] => destruct (Rcase_abs a)
            end); nra.
  - unfold positive_rotation_value.
    destruct (Rlt_dec (rad (-175)) 0) as [_|n]; [|lra]. unfold rad. lra.
  - unfold positive_rotation_value.
    destruct (Rlt_dec (rad (-175)) 0) as [_|n]; [|lra]. unfold rad. nra.
Qed.

(** ** The swing-twist clamp: the forward guard *)

Lemma quarter_turn_x_is_rotation : is_rotation quarter_turn_x.
Proof.
  split.
  - unfold mmul, transpose, quarter_turn_x, Identity. simpl. f_equal; ring.
  - unfold determinant, quarter_turn_x. simpl. ring.
Qed.

(** The guard replaces a positive forward component and only that. *)
Lemma tangent_divisor_cases (rot : Matrix3f) :
  (0 < vz (swung_forward rot) -> tangent_divisor rot = - (1 / 1000000)) /\
  (vz (swung_forward rot) <= 0 -> tangent_divisor rot = vz (swung_forward rot)).
Proof.
  unfold tangent_divisor, forward_guard.
  destruct (Rlt_dec 0 (vz (swung_forward rot))); split; intros; simpl; try lra; reflexivity.
Qed.

Lemma tangent_divisor_zero_iff (rot : Matrix3f) :
  tangent_divisor rot = 0 <-> vz (swung_forward rot) = 0.
Proof.
  destruct (tangent_divisor_cases rot) as [Hpos Hle].
  destruct (Rlt_dec 0 (vz (swung_forward rot))) as [H|H].
  - rewrite (Hpos H). split; lra.
  - rewrite (Hle ltac:(lra)). tauto.
Qed.

(** C5, the source at the failing input.  A bone bent by exactly a
    quarter turn about X is a rotation whose swung forward axis has the
    forward component zero; the guard [our_z.z() > 0] lets it through, and
    the divisor of [our_z *= -1.0f / our_z.z()] is zero. *)
Theorem C5_tangent_division_by_zero :
  is_rotation (bone_linear quarter_bent_hand 1 1) /\
  swung_forward (bone_linear quarter_bent_hand 1 1) = Vec3 0 1 0 /\
  forward_guard (swung_forward (bone_linear quarter_bent_hand 1 1)) = Vec3 0 1 0 /\
  tangent_divisor (bone_linear quarter_bent_hand 1 1) = 0.
Proof.
  unfold quarter_bent_hand.
  rewrite (bone_linear_set_bone_linear _ 1 1 _ rest_hand_wf); [| lia | lia].
  assert (swung_forward quarter_turn_x = Vec3 0 1 0) as Hz.
  { unfold swung_forward, mulv, quarter_turn_x. simpl. f_equal; ring. }
  split; [apply quarter_turn_x_is_rotation|].
  split; [exact Hz|].
  unfold tangent_divisor. rewrite Hz. unfold forward_guard. simpl.
  destruct (Rlt_dec 0 0) as [H|_]; [lra|]. split; reflexivity.
Qed.

(** ** Rotations between two directions *)

Lemma mulv_mmul (a b : Matrix3f) (v : Vector3f) :
  mulv (mmul a b) v = mulv a (mulv b v).
Proof. unfold mulv, mmul. simpl. f_equal; ring. Qed.

Lemma vec3_eq (a b : Vector3f) :
  vx a = vx b -> vy a = vy b -> vz a = vz b -> a = b.
Proof. destruct a, b. simpl. intros -> -> ->. reflexivity. Qed.

Lemma toRotationMatrix_half (k : Vector3f) (s i : R) :
  i * s = 1 ->
  toRotationMatrix (Quat (s * (1 / 2)) (vx k * i) (vy k * i) (vz k * i))
  = two_vector_matrix k (2 * i * i).
Proof.
  intros Hi. unfold toRotationMatrix, two_vector_matrix. simpl.
  assert (forall u, 2 * (u * i) * (s * (1 / 2)) = u) as Hw.
  { intros u. transitivity (u * (i * s)); [field|]. rewrite Hi. ring. }
  rewrite !Hw. f_equal; ring.
Qed.

Lemma two_vector_matrix_maps (a b : Vector3f) (d : R) :
  squaredNorm a = 1 -> squaredNorm b = 1 -> d * (1 + dot b a) = 1 ->
  mulv (two_vector_matrix (cross a b) d) a = b.
Proof.
  intros Ha Hb Hd.
  destruct a as [ax ay az], b as [bx by_ bz].
  unfold squaredNorm, dot in *. simpl in *.
  unfold two_vector_matrix, mulv, cross. simpl.
  apply vec3_eq; simpl; nsatz.
Qed.

Lemma setFromTwoVectors_generic_matrix (a b : Vector3f) :
  squaredNorm a = 1 -> squaredNorm b = 1 -> -1 < dot b a ->
  toRotationMatrix (setFromTwoVectors a b)
  = two_vector_matrix (cross a b) (/ (1 + dot b a)).
Proof.
  intros Ha Hb Hc. unfold setFromTwoVectors.
  rewrite (normalized_unit a Ha), (normalized_unit b Hb).
  destruct (Rle_dec (dot b a) (-1)) as [Hle|_]; [lra|].
  cbv zeta.
  set (s := sqrt ((1 + dot b a) * 2)).
  assert (s * s = (1 + dot b a) * 2) as Hs by (apply sqrt_sqrt; lra).
  assert (0 < s) as Hs0 by (apply sqrt_lt_R0; lra).
  assert (1 / s * s = 1) as Hi by (field; lra).
  rewrite (toRotationMatrix_half (cross a b) s (1 / s) Hi).
  f_equal.
  apply (Rmult_eq_reg_r (1 + dot b a)); [|lra].
  rewrite Rinv_l by lra.
  transitivity ((1 / s * s) * (1 / s * s)); [|rewrite Hi; ring].
  transitivity (1 / s * (1 / s) * ((1 + dot b a) * 2)); [ring|].
  rewrite <- Hs. ring.
Qed.

Lemma setFromTwoVectors_maps_generic (a b : Vector3f) :
  squaredNorm a = 1 -> squaredNorm b = 1 -> -1 < dot b a ->
  mulv (toRotationMatrix (setFromTwoVectors a b)) a = b.
Proof.
  intros Ha Hb Hc. rewrite (setFromTwoVectors_generic_matrix a b Ha Hb Hc).
  apply two_vector_matrix_maps; [assumption..|]. apply Rinv_l. lra.
Qed.

(** Two unit vectors whose cosine is [-1] are opposite. *)
Lemma unit_opposite (a b : Vector3f) :
  squaredNorm a = 1 -> squaredNorm b = 1 -> dot b a <= -1 -> b = vneg a.
Proof.
  intros Ha Hb Hc.
  destruct a as [ax ay az], b as [bx by_ bz].
  unfold squaredNorm, dot, vneg in *. simpl in *.
  assert ((ax + bx) * (ax + bx) + (ay + by_) * (ay + by_) + (az + bz) * (az + bz) <= 0)
    as Hsum by nra.
  pose proof (Rle_0_sqr (ax + bx)) as H1.
  pose proof (Rle_0_sqr (ay + by_)) as H2.
  pose proof (Rle_0_sqr (az + bz)) as H3.
  unfold Rsqr in H1, H2, H3.
  assert (ax + bx = 0) by (apply Rsqr_0_uniq; unfold Rsqr; lra).
  assert (ay + by_ = 0) by (apply Rsqr_0_uniq; unfold Rsqr; lra).
  assert (az + bz = 0) by (apply Rsqr_0_uniq; unfold Rsqr; lra).
  f_equal; lra.
Qed.

Lemma orthogonal_axis_spec (a : Vector3f) :
  squaredNorm a = 1 ->
  squaredNorm (orthogonal_axis a) = 1 /\ dot (orthogonal_axis a) a = 0.
Proof.
  intros Ha. unfold orthogonal_axis.
  destruct a as [ax ay az]. unfold squaredNorm, dot in *. simpl in *.
  destruct (Req_dec_T (ax * ax + ay * ay) 0) as [Hz|Hnz].
  - pose proof (Rle_0_sqr ax) as H1. pose proof (Rle_0_sqr ay) as H2.
    unfold Rsqr in H1, H2.
    assert (ax = 0) by (apply Rsqr_0_uniq; unfold Rsqr; lra).
    simpl. split; [ring|subst; ring].
  - assert (0 < ax * ax + ay * ay) as Hpos by nra.
    unfold normalized, squaredNorm, dot. simpl.
    replace (- ay * - ay + ax * ax + 0 * 0) with (ax * ax + ay * ay) by ring.
    destruct (Rlt_dec 0 (ax * ax + ay * ay)) as [_|n]; [|lra].
    set (n := sqrt (ax * ax + ay * ay)).
    assert (n * n = ax * ax + ay * ay) as Hn by (apply sqrt_sqrt; lra).
    assert (0 < n) as Hn0 by (apply sqrt_lt_R0; lra).
    simpl. split.
    + transitivity ((ax * ax + ay * ay) * (/ n * / n)); [ring|].
      rewrite <- Hn. field. lra.
    + ring.
Qed.

Lemma setFromTwoVectors_maps_opposite (a b : Vector3f) :
  squaredNorm a = 1 -> squaredNorm b = 1 -> dot b a <= -1 ->
  mulv (toRotationMatrix (setFromTwoVectors a b)) a = b.
Proof.
  intros Ha Hb Hc. rewrite (unit_opposite a b Ha Hb Hc) at 2.
  unfold setFromTwoVectors.
  rewrite (normalized_unit a Ha), (normalized_unit b Hb).
  destruct (Rle_dec (dot b a) (-1)) as [_|n]; [|lra].
  cbv zeta.
  rewrite (Rmax_right (dot b a) (-1)) by lra.
  replace ((1 + -1) * (1 / 2)) with 0 by field.
  rewrite sqrt_0, Rminus_0_r, sqrt_1.
  destruct (orthogonal_axis_spec a Ha) as [Hp Ho].
  destruct (orthogonal_axis a) as [px py pz].
  destruct a as [ax ay az].
  unfold squaredNorm, dot in *. simpl in *.
  unfold toRotationMatrix, mulv, vneg. simpl.
  apply vec3_eq; simpl; nsatz.
Qed.

(** [setFromTwoVectors] on unit vectors sends the first to the second. *)
Lemma setFromTwoVectors_maps (a b : Vector3f) :
  squaredNorm a = 1 -> squaredNorm b = 1 ->
  mulv (toRotationMatrix (setFromTwoVectors a b)) a = b.
Proof.
  intros Ha Hb. destruct (Rle_dec (dot b a) (-1)).
  - now apply setFromTwoVectors_maps_opposite.
  - apply setFromTwoVectors_maps_generic; [assumption..|lra].
Qed.

(** ** Rotation matrices *)

Lemma toRotationMatrix_is_rotation (q : Quaternionf) :
  unit_quaternion q -> is_rotation (toRotationMatrix q).
Proof.
  destruct q as [w x_ y_ z_]. unfold unit_quaternion, is_rotation. simpl. intros H.
  split.
  - unfold mmul, transpose, toRotationMatrix, Identity. simpl. f_equal; nsatz.
  - unfold determinant, toRotationMatrix. simpl. nsatz.
Qed.

Lemma mmul_assoc (a b c : Matrix3f) : mmul (mmul a b) c = mmul a (mmul b c).
Proof. unfold mmul. simpl. f_equal; ring. Qed.

Lemma transpose_mmul (a b : Matrix3f) :
  transpose (mmul a b) = mmul (transpose b) (transpose a).
Proof. unfold mmul, transpose. simpl. f_equal; ring. Qed.

Lemma mmul_Identity_r (m : Matrix3f) : mmul m Identity = m.
Proof. destruct m. unfold mmul, Identity. simpl. f_equal; ring. Qed.

Lemma determinant_mmul (a b : Matrix3f) :
  determinant (mmul a b) = determinant a * determinant b.
Proof. unfold determinant, mmul. simpl. ring. Qed.

Lemma is_rotation_mmul (a b : Matrix3f) :
  is_rotation a -> is_rotation b -> is_rotation (mmul a b).
Proof.
  intros [Ha Hda] [Hb Hdb]. split.
  - rewrite transpose_mmul, mmul_assoc, <- (mmul_assoc (transpose a)), Ha.
    now rewrite mmul_Identity_l.
  - rewrite determinant_mmul, Hda, Hdb. ring.
Qed.

(** A rotation keeps the length of a vector. *)
Lemma is_rotation_squaredNorm (m : Matrix3f) (v : Vector3f) :
  is_rotation m -> squaredNorm (mulv m v) = squaredNorm v.
Proof.
  intros [Hm _]. destruct m, v.
  unfold mmul, transpose, Identity in Hm. simpl in Hm.
  injection Hm as H00 H01 H02 H10 H11 H12 H20 H21 H22.
  unfold squaredNorm, dot, mulv. simpl. nsatz.
Qed.

Lemma setFromTwoVectors_unit (a b : Vector3f) :
  squaredNorm a = 1 -> squaredNorm b = 1 ->
  unit_quaternion (setFromTwoVectors a b).
Proof.
  intros Ha Hb. unfold setFromTwoVectors.
  rewrite (normalized_unit a Ha), (normalized_unit b Hb).
  destruct (Rle_dec (dot b a) (-1)) as [Hc|Hc]; cbv zeta.
  - rewrite (Rmax_right (dot b a) (-1)) by lra.
    replace ((1 + -1) * (1 / 2)) with 0 by field.
    rewrite sqrt_0, Rminus_0_r, sqrt_1.
    destruct (orthogonal_axis_spec a Ha) as [Hp _].
    destruct (orthogonal_axis a) as [px py pz].
    unfold unit_quaternion, squaredNorm, dot in *. simpl in *. nsatz.
  - set (s := sqrt ((1 + dot b a) * 2)).
    assert (s * s = (1 + dot b a) * 2) as Hs by (apply sqrt_sqrt; lra).
    assert (0 < s) as Hs0 by (apply sqrt_lt_R0; lra).
    set (i := 1 / s).
    assert (i * s = 1) as Hi by (unfold i; field; lra).
    clearbody i s.
    destruct a as [ax ay az], b as [bx by_ bz].
    unfold unit_quaternion, squaredNorm, dot, cross in *. simpl in *.
    assert (2 * i * i * (1 + (bx * ax + by_ * ay + bz * az)) = 1) as Hd.
    { transitivity ((i * s) * (i * s)); [|rewrite Hi; ring].
      transitivity (i * i * ((1 + (bx * ax + by_ * ay + bz * az)) * 2)); [ring|].
      rewrite <- Hs. ring. }
    set (c := bx * ax + by_ * ay + bz * az) in *.
    set (kx := ay * bz - az * by_). set (ky := az * bx - ax * bz).
    set (kz := ax * by_ - ay * bx).
    assert (kx * kx + ky * ky + kz * kz = 1 - c * c) as Hk
      by (unfold kx, ky, kz, c; nsatz).
    transitivity (s * s / 4 + (kx * kx + ky * ky + kz * kz) * (i * i)); [field|].
    rewrite Hs, Hk.
    replace ((1 - c * c) * (i * i)) with ((1 - c) * (2 * i * i * (1 + c)) / 2) by field.
    rewrite Hd. field.
Qed.

Lemma setFromTwoVectors_is_rotation (a b : Vector3f) :
  squaredNorm a = 1 -> squaredNorm b = 1 ->
  is_rotation (toRotationMatrix (setFromTwoVectors a b)).
Proof.
  intros Ha Hb. apply toRotationMatrix_is_rotation. now apply setFromTwoVectors_unit.
Qed.


Lemma hinge_correct_fixes_x (m : Matrix3f) :
  is_rotation m ->
  is_rotation (hinge_correct m) /\ mulv (hinge_correct m) UnitX = UnitX.
Proof.
  intros Hm. unfold hinge_correct. simpl axes.
  assert (squaredNorm (mulv m UnitX) = 1) as Hn.
  { rewrite (is_rotation_squaredNorm m UnitX Hm).
    unfold squaredNorm, dot, UnitX. simpl. ring. }
  assert (squaredNorm UnitX = 1) as Hx by (unfold squaredNorm, dot; simpl; ring).
  rewrite (normalized_unit _ Hn). split.
  - apply is_rotation_mmul; [|exact Hm].
    now apply setFromTwoVectors_is_rotation.
  - rewrite mulv_mmul. now apply setFromTwoVectors_maps.
Qed.

(** ** The rotation estimator *)

Lemma normalized_squaredNorm (v : Vector3f) :
  0 < squaredNorm v -> squaredNorm (normalized v) = 1.
Proof.
  intros H. unfold normalized.
  destruct (Rlt_dec 0 (squaredNorm v)) as [_|n]; [|lra].
  set (n := sqrt (squaredNorm v)).
  assert (n * n = squaredNorm v) as Hn by (apply sqrt_sqrt; lra).
  assert (0 < n) as Hn0 by (apply sqrt_lt_R0; lra).
  destruct v as [a b c]. unfold squaredNorm, dot in *. simpl in *.
  transitivity ((a * a + b * b + c * c) * (/ n * / n)); [ring|].
  rewrite <- Hn. field. lra.
Qed.


Lemma estimator_hand_wf : hand_wf estimator_hand.
Proof. split; [reflexivity|]. repeat constructor. Qed.







(** ** The swing-twist clamp: the twist *)

Lemma squaredNorm_nonneg (v : Vector3f) : 0 <= squaredNorm v.
Proof.
  destruct v as [a b c]. unfold squaredNorm, dot. simpl.
  pose proof (Rle_0_sqr a). pose proof (Rle_0_sqr b). pose proof (Rle_0_sqr c).
  unfold Rsqr in *. lra.
Qed.

(** The angle-axis form of a matrix of positive trace whose antisymmetric
    part is not zero. *)
Lemma angleaxis_of_matrix_pos_trace (m : Matrix3f) :
  0 < trace m -> 0 < squaredNorm (asym m) ->
  angleaxis_of_matrix m =
  AngleAxis (2 * atan (sqrt (squaredNorm (asym m)) / (trace m + 1)))
            (vscale (/ sqrt (squaredNorm (asym m))) (asym m)).
Proof.
  intros Ht Ha.
  unfold angleaxis_of_matrix, quaternion_of_matrix.
  destruct (Rlt_dec 0 (trace m)) as [_|n]; [|lra].
  cbv zeta.
  set (t1 := sqrt (trace m + 1)).
  assert (t1 * t1 = trace m + 1) as Ht1 by (apply sqrt_sqrt; lra).
  assert (0 < t1) as Ht1p by (apply sqrt_lt_R0; lra).
  set (t2 := 1 / 2 / t1).
  assert (0 < t2) as Ht2p.
  { unfold t2. apply Rdiv_lt_0_compat; lra. }
  set (sa := sqrt (squaredNorm (asym m))).
  assert (sa * sa = squaredNorm (asym m)) as Hsa by (apply sqrt_sqrt; lra).
  assert (0 < sa) as Hsap by (apply sqrt_lt_R0; lra).
  unfold angleaxis_of_quaternion.
  assert (norm (qvec (Quat (1 / 2 * t1) ((m21 m - m12 m) * t2)
                           ((m02 m - m20 m) * t2) ((m10 m - m01 m) * t2)))
          = t2 * sa) as Hn.
  { unfold norm. apply sqrt_lem_1.
    - apply squaredNorm_nonneg.
    - nra.
    - unfold squaredNorm, dot, asym in *. simpl in *.
      transitivity (t2 * t2 * (sa * sa)); [ring|]. rewrite Hsa. ring. }
  rewrite Hn. simpl qw.
  assert (0 < t2 * sa) as Hnp by nra.
  destruct (Req_dec_T (t2 * sa) 0) as [E|_]; [lra|].
  destruct (Rlt_dec (1 / 2 * t1) 0) as [E|_]; [lra|].
  rewrite (Rabs_pos_eq (1 / 2 * t1)) by lra.
  unfold atan2. destruct (Rlt_dec 0 (1 / 2 * t1)) as [_|n]; [|lra].
  f_equal.
  - f_equal. f_equal. unfold t2. rewrite <- Ht1. field. lra.
  - unfold vscale, qvec, asym. simpl. f_equal; field; lra.
Qed.

Lemma swing_of_generic (v : Vector3f) :
  squaredNorm v = 1 -> vz v < 1 ->
  swing_of v = two_vector_matrix (cross (vneg UnitZ) v) (/ (1 - vz v)).
Proof.
  intros Hv Hz. unfold swing_of.
  rewrite setFromTwoVectors_generic_matrix.
  - f_equal. f_equal. unfold dot, vneg, UnitZ. simpl. ring.
  - unfold squaredNorm, dot, vneg, UnitZ. simpl. ring.
  - exact Hv.
  - unfold dot, vneg, UnitZ. simpl. lra.
Qed.

Lemma mmul_inverse_r (m : Matrix3f) :
  determinant m <> 0 -> mmul m (inverse m) = Identity.
Proof.
  intros Hd. destruct m. unfold mmul, inverse, Identity, determinant in *.
  simpl in *. f_equal; field; exact Hd.
Qed.

(** The inverse of a rotation is its transpose. *)
Lemma inverse_rotation (m : Matrix3f) : is_rotation m -> inverse m = transpose m.
Proof.
  intros [Hm Hd].
  rewrite <- (mmul_Identity_l (inverse m)), <- Hm, mmul_assoc.
  rewrite mmul_inverse_r by lra. apply mmul_Identity_r.
Qed.

Lemma swing_of_is_rotation (v : Vector3f) :
  squaredNorm v = 1 -> is_rotation (swing_of v).
Proof.
  intros Hv. apply setFromTwoVectors_is_rotation; [|exact Hv].
  unfold squaredNorm, dot, vneg, UnitZ. simpl. ring.
Qed.

Lemma twist_matrix_unit (rot : Matrix3f) :
  squaredNorm (swung_forward rot) = 1 ->
  twist_matrix rot = mmul rot (transpose (swing_of (swung_forward rot))).
Proof.
  intros H. unfold twist_matrix. now rewrite (inverse_rotation _ (swing_of_is_rotation _ H)).
Qed.

(** *** The angle-axis form of a rotation matrix *)

(** Eigen's angle is between zero and a half turn. *)
Lemma angleaxis_of_quaternion_range (q : Quaternionf) :
  0 <= angle (angleaxis_of_quaternion q) <= PI.
Proof.
  pose proof PI_RGT_0 as Hpi. unfold angleaxis_of_quaternion.
  destruct (Req_dec_T (norm (qvec q)) 0) as [_|Hn]; simpl; [lra|].
  assert (0 < norm (qvec q)) as Hpos.
  { pose proof (sqrt_pos (squaredNorm (qvec q))). unfold norm in *. lra. }
  pose proof (Rabs_pos (qw q)) as Hw.
  unfold atan2.
  destruct (Rlt_dec 0 (Rabs (qw q))) as [Hx|Hx].
  - pose proof (atan_bound (norm (qvec q) / Rabs (qw q))) as [_ Hb].
    assert (0 < atan (norm (qvec q) / Rabs (qw q))).
    { rewrite <- atan_0. apply atan_increasing. now apply Rdiv_lt_0_compat. }
    lra.
  - destruct (Rlt_dec (Rabs (qw q)) 0) as [Hx'|_]; [lra|].
    destruct (Rlt_dec 0 (norm (qvec q))) as [_|Hc]; [lra|contradiction].
Qed.

Lemma rotation_entries (m : Matrix3f) :
  is_rotation m ->
  m00 m * m00 m + m10 m * m10 m + m20 m * m20 m = 1 /\
  m01 m * m01 m + m11 m * m11 m + m21 m * m21 m = 1 /\
  m02 m * m02 m + m12 m * m12 m + m22 m * m22 m = 1 /\
  m00 m * m01 m + m10 m * m11 m + m20 m * m21 m = 0 /\
  m00 m * m02 m + m10 m * m12 m + m20 m * m22 m = 0 /\
  m01 m * m02 m + m11 m * m12 m + m21 m * m22 m = 0 /\
  determinant m = 1.
Proof.
  intros [Hm Hd]. destruct m. unfold mmul, transpose, Identity in Hm. simpl in *.
  injection Hm as E00 E01 E02 E10 E11 E12 E20 E21 E22.
  repeat split; assumption.
Qed.

Ltac rotation_nsatz H :=
  destruct (rotation_entries _ H) as (?E0 & ?E1 & ?E2 & ?E3 & ?E4 & ?E5 & ?E6);
  match goal with
  | m : Matrix3f |- _ => destruct m
  end;
  unfold determinant, squaredNorm, dot, asym, trace, cross, mulv, Zero in *;
  simpl in *.

(** The trace of a rotation is at least [-1]. *)
Lemma rotation_trace_bounds (m : Matrix3f) :
  is_rotation m -> -1 <= trace m <= 3.
Proof.
  intros H.
  assert (squaredNorm (asym m) = (3 - trace m) * (1 + trace m)) as Ha
    by (rotation_nsatz H; nsatz).
  pose proof (squaredNorm_nonneg (asym m)) as Hn. rewrite Ha in Hn.
  assert (forall a b c, a * a + b * b + c * c = 1 -> a <= 1) as Hle.
  { intros a b c E. pose proof (Rle_0_sqr b). pose proof (Rle_0_sqr c).
    pose proof (Rle_0_sqr (a - 1)). unfold Rsqr in *. nra. }
  assert (trace m <= 3) as H3.
  { destruct (rotation_entries _ H) as (E0 & E1 & E2 & _).
    pose proof (Hle _ _ _ E0).
    assert (m11 m <= 1) by (apply (Hle _ (m01 m) (m21 m)); lra).
    assert (m22 m <= 1) by (apply (Hle _ (m02 m) (m12 m)); lra).
    unfold trace. lra. }
  split; [|exact H3].
  destruct (Req_dec (trace m) 3) as [E|E]; [lra|].
  assert (0 < 3 - trace m) by lra. nra.
Qed.

(** The quaternion of a rotation matrix: the squares of its scalar part
    and of the length of its vector part, from the trace alone. *)
Lemma quaternion_of_rotation (m : Matrix3f) :
  is_rotation m ->
  squaredNorm (qvec (quaternion_of_matrix m)) = (3 - trace m) / 4 /\
  qw (quaternion_of_matrix m) * qw (quaternion_of_matrix m) = (1 + trace m) / 4.
Proof.
  intros H. pose proof (rotation_trace_bounds m H) as [Hlo Hhi].
  unfold quaternion_of_matrix.
  destruct (Rlt_dec 0 (trace m)) as [Ht|Ht]; cbv zeta.
  - set (t1 := sqrt (trace m + 1)).
    assert (t1 * t1 = trace m + 1) as Ht1 by (apply sqrt_sqrt; lra).
    assert (0 < t1) as Ht1p by (apply sqrt_lt_R0; lra).
    assert (squaredNorm (asym m) = (3 - trace m) * (1 + trace m)) as Ha
      by (clear t1 Ht1 Ht1p; rotation_nsatz H; nsatz).
    split.
    + unfold qvec. simpl.
      transitivity (squaredNorm (asym m) * (1 / 2 / t1 * (1 / 2 / t1)));
        [unfold squaredNorm, dot, asym; simpl; ring|].
      rewrite Ha.
      replace (1 + trace m) with (t1 * t1) by lra. field. lra.
    + simpl. transitivity (t1 * t1 / 4); [field|]. rewrite Ht1. field.
  - assert (forall d, 1 <= d ->
              let t1 := sqrt d in
              0 < t1 /\ t1 * t1 = d /\ 1 / 2 * t1 = d * (1 / 2 / t1) /\
              (1 / 2 / t1) * (1 / 2 / t1) * d = 1 / 4) as Hroot.
    { intros d Hd t1.
      assert (t1 * t1 = d) as Hs by (apply sqrt_sqrt; lra).
      assert (0 < t1) as Hp by (apply sqrt_lt_R0; lra).
      repeat split; try assumption.
      - rewrite <- Hs. field. lra.
      - rewrite <- Hs. field. lra. }
    destruct (Rlt_dec (m00 m) (m11 m)) as [H01|H01];
      [destruct (Rlt_dec (m11 m) (m22 m)) as [H12|H12]
      |destruct (Rlt_dec (m00 m) (m22 m)) as [H02|H02]].
    + (* i = 2 *)
      destruct (Hroot (m22 m - m00 m - m11 m + 1)) as (Hp & Hs & Hh & Hq);
        [unfold trace in *; lra|].
      set (t2 := 1 / 2 / sqrt (m22 m - m00 m - m11 m + 1)) in *.
      unfold qvec. simpl. rewrite Hh.
      assert ((m02 m + m20 m) * (m02 m + m20 m) + (m12 m + m21 m) * (m12 m + m21 m)
              + (m22 m - m00 m - m11 m + 1) * (m22 m - m00 m - m11 m + 1)
              = (3 - trace m) * (m22 m - m00 m - m11 m + 1)) as I1
        by (clear t2 Hp Hs Hh Hq Hroot; rotation_nsatz H; nsatz).
      assert ((m10 m - m01 m) * (m10 m - m01 m)
              = (1 + trace m) * (m22 m - m00 m - m11 m + 1)) as I2
        by (clear t2 Hp Hs Hh Hq Hroot I1; rotation_nsatz H; nsatz).
      split.
      * transitivity (((m02 m + m20 m) * (m02 m + m20 m)
                       + (m12 m + m21 m) * (m12 m + m21 m)
                       + (m22 m - m00 m - m11 m + 1) * (m22 m - m00 m - m11 m + 1))
                      * (t2 * t2)); [unfold squaredNorm, dot; simpl; ring|].
        rewrite I1.
        transitivity ((3 - trace m) * (t2 * t2 * (m22 m - m00 m - m11 m + 1))); [ring|].
        rewrite Hq. field.
      * transitivity ((m10 m - m01 m) * (m10 m - m01 m) * (t2 * t2)); [ring|].
        rewrite I2.
        transitivity ((1 + trace m) * (t2 * t2 * (m22 m - m00 m - m11 m + 1))); [ring|].
        rewrite Hq. field.
    + (* i = 1 *)
      destruct (Hroot (m11 m - m22 m - m00 m + 1)) as (Hp & Hs & Hh & Hq);
        [unfold trace in *; lra|].
      set (t2 := 1 / 2 / sqrt (m11 m - m22 m - m00 m + 1)) in *.
      unfold qvec. simpl. rewrite Hh.
      assert ((m01 m + m10 m) * (m01 m + m10 m) + (m21 m + m12 m) * (m21 m + m12 m)
              + (m11 m - m22 m - m00 m + 1) * (m11 m - m22 m - m00 m + 1)
              = (3 - trace m) * (m11 m - m22 m - m00 m + 1)) as I1
        by (clear t2 Hp Hs Hh Hq Hroot; rotation_nsatz H; nsatz).
      assert ((m02 m - m20 m) * (m02 m - m20 m)
              = (1 + trace m) * (m11 m - m22 m - m00 m + 1)) as I2
        by (clear t2 Hp Hs Hh Hq Hroot I1; rotation_nsatz H; nsatz).
      split.
      * transitivity (((m01 m + m10 m) * (m01 m + m10 m)
                       + (m21 m + m12 m) * (m21 m + m12 m)
                       + (m11 m - m22 m - m00 m + 1) * (m11 m - m22 m - m00 m + 1))
                      * (t2 * t2)); [unfold squaredNorm, dot; simpl; ring|].
        rewrite I1.
        transitivity ((3 - trace m) * (t2 * t2 * (m11 m - m22 m - m00 m + 1))); [ring|].
        rewrite Hq. field.
      * transitivity ((m02 m - m20 m) * (m02 m - m20 m) * (t2 * t2)); [ring|].
        rewrite I2.
        transitivity ((1 + trace m) * (t2 * t2 * (m11 m - m22 m - m00 m + 1))); [ring|].
        rewrite Hq. field.
    + (* i = 2 *)
      destruct (Hroot (m22 m - m00 m - m11 m + 1)) as (Hp & Hs & Hh & Hq);
        [unfold trace in *; lra|].
      set (t2 := 1 / 2 / sqrt (m22 m - m00 m - m11 m + 1)) in *.
      unfold qvec. simpl. rewrite Hh.
      assert ((m02 m + m20 m) * (m02 m + m20 m) + (m12 m + m21 m) * (m12 m + m21 m)
              + (m22 m - m00 m - m11 m + 1) * (m22 m - m00 m - m11 m + 1)
              = (3 - trace m) * (m22 m - m00 m - m11 m + 1)) as I1
        by (clear t2 Hp Hs Hh Hq Hroot; rotation_nsatz H; nsatz).
      assert ((m10 m - m01 m) * (m10 m - m01 m)
              = (1 + trace m) * (m22 m - m00 m - m11 m + 1)) as I2
        by (clear t2 Hp Hs Hh Hq Hroot I1; rotation_nsatz H; nsatz).
      split.
      * transitivity (((m02 m + m20 m) * (m02 m + m20 m)
                       + (m12 m + m21 m) * (m12 m + m21 m)
                       + (m22 m - m00 m - m11 m + 1) * (m22 m - m00 m - m11 m + 1))
                      * (t2 * t2)); [unfold squaredNorm, dot; simpl; ring|].
        rewrite I1.
        transitivity ((3 - trace m) * (t2 * t2 * (m22 m - m00 m - m11 m + 1))); [ring|].
        rewrite Hq. field.
      * transitivity ((m10 m - m01 m) * (m10 m - m01 m) * (t2 * t2)); [ring|].
        rewrite I2.
        transitivity ((1 + trace m) * (t2 * t2 * (m22 m - m00 m - m11 m + 1))); [ring|].
        rewrite Hq. field.
    + (* i = 0 *)
      destruct (Hroot (m00 m - m11 m - m22 m + 1)) as (Hp & Hs & Hh & Hq);
        [unfold trace in *; lra|].
      set (t2 := 1 / 2 / sqrt (m00 m - m11 m - m22 m + 1)) in *.
      unfold qvec. simpl. rewrite Hh.
      assert ((m10 m + m01 m) * (m10 m + m01 m) + (m20 m + m02 m) * (m20 m + m02 m)
              + (m00 m - m11 m - m22 m + 1) * (m00 m - m11 m - m22 m + 1)
              = (3 - trace m) * (m00 m - m11 m - m22 m + 1)) as I1
        by (clear t2 Hp Hs Hh Hq Hroot; rotation_nsatz H; nsatz).
      assert ((m21 m - m12 m) * (m21 m - m12 m)
              = (1 + trace m) * (m00 m - m11 m - m22 m + 1)) as I2
        by (clear t2 Hp Hs Hh Hq Hroot I1; rotation_nsatz H; nsatz).
      split.
      * transitivity (((m10 m + m01 m) * (m10 m + m01 m)
                       + (m20 m + m02 m) * (m20 m + m02 m)
                       + (m00 m - m11 m - m22 m + 1) * (m00 m - m11 m - m22 m + 1))
                      * (t2 * t2)); [unfold squaredNorm, dot; simpl; ring|].
        rewrite I1.
        transitivity ((3 - trace m) * (t2 * t2 * (m00 m - m11 m - m22 m + 1))); [ring|].
        rewrite Hq. field.
      * transitivity ((m21 m - m12 m) * (m21 m - m12 m) * (t2 * t2)); [ring|].
        rewrite I2.
        transitivity ((1 + trace m) * (t2 * t2 * (m00 m - m11 m - m22 m + 1))); [ring|].
        rewrite Hq. field.
Qed.

(** The vector part of the quaternion of a rotation lies along every
    vector the rotation keeps fixed. *)
Lemma quaternion_of_rotation_axis (m : Matrix3f) (u : Vector3f) :
  is_rotation m -> mulv m u = u ->
  cross (qvec (quaternion_of_matrix m)) u = Zero.
Proof.
  intros H Hu. pose proof (rotation_trace_bounds m H) as [Hlo Hhi].
  assert (vx (mulv m u) = vx u /\ vy (mulv m u) = vy u /\ vz (mulv m u) = vz u)
    as (U0 & U1 & U2) by (rewrite Hu; auto).
  clear Hu.
  unfold quaternion_of_matrix.
  assert (forall d, 1 <= d -> 1 / 2 * sqrt d = d * (1 / 2 / sqrt d)) as Hroot.
  { intros d Hd.
    assert (sqrt d * sqrt d = d) as Hs by (apply sqrt_sqrt; lra).
    assert (0 < sqrt d) as Hp by (apply sqrt_lt_R0; lra).
    rewrite <- Hs at 2. field. lra. }
  destruct (Rlt_dec 0 (trace m)) as [Ht|Ht]; cbv zeta;
    [|destruct (Rlt_dec (m00 m) (m11 m)) as [H01|H01];
      [destruct (Rlt_dec (m11 m) (m22 m)) as [H12|H12]
      |destruct (Rlt_dec (m00 m) (m22 m)) as [H02|H02]]];
    unfold qvec; simpl;
    try (rewrite Hroot by (unfold trace in *; lra));
    match goal with
    | |- context [1 / 2 / sqrt ?d] => generalize (1 / 2 / sqrt d); intros t2
    end;
    clear Hroot;
    destruct (rotation_entries _ H) as (E0 & E1 & E2 & E3 & E4 & E5 & E6);
    destruct m, u;
    unfold determinant, trace, cross, mulv, Zero in *; simpl in *;
    f_equal; nsatz.
Qed.

(** The matrix of an angle-axis rotation with a unit axis is a rotation,
    of trace [1 + 2 * cos angle], and keeps fixed whatever lies along the
    axis. *)
Lemma aa_toRotationMatrix_is_rotation (aa : AngleAxisf) :
  squaredNorm (axis aa) = 1 -> is_rotation (aa_toRotationMatrix aa).
Proof.
  intros Ha. destruct aa as [al [ax ay az]].
  pose proof (sin2_cos2 al) as Hsc. unfold Rsqr in Hsc.
  unfold squaredNorm, dot in Ha. simpl in Ha.
  unfold aa_toRotationMatrix. simpl.
  generalize dependent (cos al). generalize (sin al). intros s c Hsc.
  split.
  - unfold mmul, transpose, Identity. simpl. f_equal; nsatz.
  - unfold determinant. simpl. nsatz.
Qed.

Lemma aa_toRotationMatrix_trace (aa : AngleAxisf) :
  squaredNorm (axis aa) = 1 -> trace (aa_toRotationMatrix aa) = 1 + 2 * cos (angle aa).
Proof.
  intros Ha. destruct aa as [al [ax ay az]].
  unfold squaredNorm, dot in Ha. simpl in Ha.
  unfold aa_toRotationMatrix, trace. simpl.
  generalize dependent (cos al). intros c. nsatz.
Qed.

Lemma aa_toRotationMatrix_fixes (aa : AngleAxisf) (u : Vector3f) :
  squaredNorm (axis aa) = 1 -> cross (axis aa) u = Zero ->
  mulv (aa_toRotationMatrix aa) u = u.
Proof.
  intros Ha Hc. destruct aa as [al [ax ay az]], u as [ux uy uz].
  unfold squaredNorm, dot, cross, Zero in *. simpl in *. injection Hc as C0 C1 C2.
  unfold aa_toRotationMatrix, mulv. simpl.
  generalize (cos al) (sin al). intros c s.
  f_equal; nsatz.
Qed.

Lemma aa_toRotationMatrix_zero (a : Vector3f) :
  aa_toRotationMatrix (AngleAxis 0 a) = Identity.
Proof.
  unfold aa_toRotationMatrix, Identity. simpl. rewrite cos_0, sin_0.
  f_equal; ring.
Qed.

Lemma is_rotation_transpose (m : Matrix3f) :
  is_rotation m -> is_rotation (transpose m).
Proof.
  intros H. pose proof (inverse_rotation m H) as Hi. destruct H as [Hm Hd].
  split.
  - replace (transpose (transpose m)) with m by (destruct m; reflexivity).
    rewrite <- Hi. apply mmul_inverse_r. lra.
  - rewrite <- Hd. destruct m. unfold determinant, transpose. simpl. ring.
Qed.

(** The angle that [AngleAxisf(m)] reads off a rotation depends on its
    trace alone. *)
Lemma angle_of_rotation (m : Matrix3f) :
  is_rotation m ->
  angle (angleaxis_of_matrix m)
  = 2 * atan2 (sqrt ((3 - trace m) / 4)) (sqrt ((1 + trace m) / 4)).
Proof.
  intros H. pose proof (rotation_trace_bounds m H) as [Hlo Hhi].
  destruct (quaternion_of_rotation m H) as [Hv Hw].
  unfold angleaxis_of_matrix, angleaxis_of_quaternion, norm.
  rewrite Hv.
  assert (Rabs (qw (quaternion_of_matrix m)) = sqrt ((1 + trace m) / 4)) as Habs.
  { rewrite <- Hw. symmetry. apply sqrt_Rsqr_abs. }
  destruct (Req_dec_T (sqrt ((3 - trace m) / 4)) 0) as [Hz|Hz]; simpl.
  - rewrite Hz. apply sqrt_eq_0 in Hz; [|lra].
    replace (trace m) with 3 by lra.
    replace ((1 + 3) / 4) with 1 by field. rewrite sqrt_1.
    unfold atan2. destruct (Rlt_dec 0 1) as [_|n]; [|lra].
    replace (0 / 1) with 0 by field. rewrite atan_0. ring.
  - now rewrite Habs.
Qed.

(** Reading the angle back from the matrix of an angle-axis rotation
    gives the angle, for a unit axis and an angle in [[0, PI]]. *)
Lemma angleaxis_round_trip (aa : AngleAxisf) :
  squaredNorm (axis aa) = 1 -> 0 <= angle aa <= PI ->
  angle (angleaxis_of_matrix (aa_toRotationMatrix aa)) = angle aa.
Proof.
  intros Ha [Hlo Hhi]. pose proof PI_RGT_0 as Hpi.
  rewrite (angle_of_rotation _ (aa_toRotationMatrix_is_rotation aa Ha)).
  rewrite (aa_toRotationMatrix_trace aa Ha).
  set (h := angle aa / 2).
  assert (angle aa = 2 * h) as Hh by (unfold h; field).
  rewrite Hh at 1 2.
  assert (0 <= sin h) as Hs by (apply sin_ge_0; unfold h; lra).
  assert (0 <= cos h) as Hc by (apply cos_ge_0; unfold h; lra).
  replace ((3 - (1 + 2 * cos (2 * h))) / 4) with (Rsqr (sin h)).
  2:{ rewrite cos_2a_sin. unfold Rsqr. field. }
  replace ((1 + (1 + 2 * cos (2 * h))) / 4) with (Rsqr (cos h)).
  2:{ rewrite cos_2a_cos. unfold Rsqr. field. }
  rewrite (sqrt_Rsqr _ Hs), (sqrt_Rsqr _ Hc).
  rewrite atan2_sin_cos by (unfold h; lra).
  unfold h. field.
Qed.

(** The axis that [AngleAxisf(m)] reads off a rotation is a unit vector,
    and, unless the angle is zero, lies along every vector the rotation
    keeps fixed. *)
Lemma angleaxis_of_rotation_axis (m : Matrix3f) (u : Vector3f) :
  is_rotation m -> mulv m u = u ->
  squaredNorm (axis (angleaxis_of_matrix m)) = 1 /\
  (angle (angleaxis_of_matrix m) = 0 \/
   cross (axis (angleaxis_of_matrix m)) u = Zero).
Proof.
  intros H Hu. pose proof (quaternion_of_rotation_axis m u H Hu) as Hc.
  unfold angleaxis_of_matrix, angleaxis_of_quaternion, norm.
  set (q := quaternion_of_matrix m) in *.
  destruct (Req_dec_T (sqrt (squaredNorm (qvec q))) 0) as [Hz|Hz]; simpl.
  - split; [|now left]. unfold squaredNorm, dot, UnitX. simpl. ring.
  - pose proof (squaredNorm_nonneg (qvec q)) as Hn.
    assert (sqrt (squaredNorm (qvec q)) * sqrt (squaredNorm (qvec q))
            = squaredNorm (qvec q)) as Hs by (now apply sqrt_sqrt).
    set (n := sqrt (squaredNorm (qvec q))) in *.
    set (n' := if Rlt_dec (qw q) 0 then - n else n).
    assert (n' * n' = squaredNorm (qvec q) /\ n' <> 0) as [Hn' Hnz].
    { unfold n'. destruct (Rlt_dec (qw q) 0); split; lra. }
    split.
    + destruct (qvec q) as [a b c]. unfold squaredNorm, dot, vscale in *.
      simpl in *.
      assert (/ n' * n' = 1) as Hi by (field; exact Hnz).
      generalize dependent (/ n'). intros i Hi. nsatz.
    + right. destruct (qvec q) as [a b c], u as [ux uy uz].
      unfold cross, vscale, Zero in *. simpl in *.
      injection Hc as C0 C1 C2.
      f_equal.
      * replace (/ n' * b * uz - / n' * c * uy) with (/ n' * (b * uz - c * uy)) by ring.
        rewrite C0. ring.
      * replace (/ n' * c * ux - / n' * a * uz) with (/ n' * (c * ux - a * uz)) by ring.
        rewrite C1. ring.
      * replace (/ n' * a * uy - / n' * b * ux) with (/ n' * (a * uy - b * ux)) by ring.
        rewrite C2. ring.
Qed.

(** *** The clamp when the swing is kept *)

Lemma clamp_inside_range (x lo hi : R) : lo <= x <= hi -> clamp x lo hi = x.
Proof.
  intros [Hlo Hhi]. unfold clamp. rewrite (Rmax_right lo x) by exact Hlo.
  apply Rmin_right. exact Hhi.
Qed.

Lemma normalized_vscale (k : R) (u : Vector3f) :
  0 < k -> squaredNorm u = 1 -> normalized (vscale k u) = u.
Proof.
  intros Hk Hu. unfold normalized.
  assert (squaredNorm (vscale k u) = Rsqr k) as ->.
  { destruct u. unfold squaredNorm, dot, vscale, Rsqr in *. simpl in *. nsatz. }
  destruct (Rlt_dec 0 (Rsqr k)) as [_|n].
  - rewrite sqrt_Rsqr by lra. destruct u. unfold vscale. simpl. f_equal; field; lra.
  - exfalso. apply n. apply Rlt_0_sqr. lra.
Qed.

(** A twist read off a matrix has its angle in [[0, PI]]; the clamp
    then takes the smaller of the angle and the bound. *)
Lemma clamp_twist_of_range (twist_aax : AngleAxisf) (max_swing_angle : R) :
  0 <= max_swing_angle -> 0 <= angle twist_aax <= PI ->
  angle (clamp_twist twist_aax max_swing_angle)
  = Rmin max_swing_angle (angle twist_aax) /\
  axis (clamp_twist twist_aax max_swing_angle) = axis twist_aax.
Proof.
  intros Hm [Hlo Hhi]. unfold clamp_twist, fabs.
  rewrite (Rabs_pos_eq _ Hlo).
  destruct (Rlt_dec max_swing_angle (angle twist_aax)) as [Hgt|Hle]; simpl.
  - split; [|reflexivity]. rewrite Rmin_left by lra. field. lra.
  - split; [|reflexivity]. rewrite Rmin_right by lra. reflexivity.
Qed.

(** When the forward axis of the bone points forward and its tangents
    are within the limits, the swing is kept: the result is the clamped
    twist composed with the swing of the input rotation, and the twist
    measured again on the result has the angle of the clamped twist. *)
Lemma clamp_proximals_linear_kept_swing
    (rot : Matrix3f) (max_swing_angle tanangle_left tanangle_right
     tanangle_curled tanangle_uncurled : R) :
  is_rotation rot -> 0 <= max_swing_angle ->
  vz (swung_forward rot) < 0 ->
  tanangle_left <= vx (scaled_forward rot) <= tanangle_right ->
  tanangle_curled <= vy (scaled_forward rot) <= tanangle_uncurled ->
  let result := clamp_proximals_linear rot max_swing_angle tanangle_left
                  tanangle_right tanangle_curled tanangle_uncurled in
  swung_forward result = swung_forward rot /\
  angle (twist_of result) = Rmin max_swing_angle (angle (twist_of rot)) /\
  Rabs (angle (twist_of result)) <= max_swing_angle.
Proof.
  intros Hrot Hm Hz Hx Hy result.
  set (u := swung_forward rot) in *.
  assert (squaredNorm (vneg UnitZ) = 1) as Hf
    by (unfold squaredNorm, dot, vneg, UnitZ; simpl; ring).
  assert (squaredNorm u = 1) as Hu.
  { unfold u, swung_forward. now rewrite is_rotation_squaredNorm. }
  (* the swing is kept *)
  assert (normalized (clamped_forward rot tanangle_left tanangle_right
                        tanangle_curled tanangle_uncurled) = u) as Hcf.
  { unfold clamped_forward. cbv zeta.
    rewrite (clamp_inside_range _ _ _ Hx), (clamp_inside_range _ _ _ Hy).
    replace (Vec3 (vx (scaled_forward rot)) (vy (scaled_forward rot))
                  (vz (scaled_forward rot)))
      with (scaled_forward rot) by (destruct (scaled_forward rot); reflexivity).
    unfold scaled_forward, tangent_divisor, forward_guard. fold u.
    destruct (Rlt_dec 0 (vz u)) as [Hc|_]; [lra|].
    apply normalized_vscale; [|exact Hu].
    apply Rdiv_neg_neg; lra. }
  set (S := swing_of u).
  assert (is_rotation S) as HS by (apply swing_of_is_rotation; exact Hu).
  assert (mulv S (vneg UnitZ) = u) as HSf.
  { unfold S, swing_of. apply setFromTwoVectors_maps; assumption. }
  assert (mulv (transpose S) u = vneg UnitZ) as HSb.
  { rewrite <- HSf, <- mulv_mmul. destruct HS as [-> _].
    unfold mulv, Identity, vneg, UnitZ. simpl. f_equal; ring. }
  (* the twist of the input keeps the forward axis of the bone fixed *)
  set (T := twist_matrix rot).
  assert (T = mmul rot (transpose S)) as HT by (apply twist_matrix_unit; exact Hu).
  assert (is_rotation T) as HTr.
  { rewrite HT. apply is_rotation_mmul; [exact Hrot|].
    apply is_rotation_transpose. exact HS. }
  assert (mulv T u = u) as HTu.
  { rewrite HT, mulv_mmul, HSb. reflexivity. }
  destruct (angleaxis_of_rotation_axis T u HTr HTu) as [Hax Hpar].
  pose proof (angleaxis_of_quaternion_range (quaternion_of_matrix T)) as Hrange.
  change (angleaxis_of_quaternion (quaternion_of_matrix T))
    with (twist_of rot) in Hrange.
  change (angleaxis_of_matrix T) with (twist_of rot) in Hax, Hpar.
  destruct (clamp_twist_of_range (twist_of rot) max_swing_angle Hm Hrange)
    as [Hang Haxis].
  set (aa := clamp_twist (twist_of rot) max_swing_angle) in *.
  assert (0 <= angle aa <= PI) as Haa.
  { rewrite Hang. unfold Rmin. destruct (Rle_dec _ _); lra. }
  assert (squaredNorm (axis aa) = 1) as Haa1 by (now rewrite Haxis).
  set (A := aa_toRotationMatrix aa).
  assert (mulv A u = u) as HAu.
  { destruct Hpar as [H0|Hc].
    - assert (angle aa = 0) as Hz0.
      { rewrite Hang, H0. apply Rmin_right. exact Hm. }
      unfold A. destruct aa as [al ax]. simpl in Hz0. subst al.
      rewrite aa_toRotationMatrix_zero.
      unfold mulv, Identity. destruct u. simpl. f_equal; ring.
    - apply aa_toRotationMatrix_fixes; [exact Haa1|now rewrite Haxis]. }
  assert (result = mmul A S) as Hres.
  { unfold result, clamp_proximals_linear. cbv zeta. now rewrite Hcf. }
  assert (swung_forward result = u) as Hfw.
  { rewrite Hres. unfold swung_forward. now rewrite mulv_mmul, HSf. }
  assert (twist_matrix result = A) as Htw.
  { unfold twist_matrix. rewrite Hfw. fold S. rewrite Hres, mmul_assoc.
    rewrite mmul_inverse_r by (destruct HS as [_ ->]; lra).
    apply mmul_Identity_r. }
  assert (angle (twist_of result) = angle aa) as Hrt.
  { unfold twist_of. rewrite Htw. apply angleaxis_round_trip; assumption. }
  split; [exact Hfw|]. split; [now rewrite Hrt|].
  rewrite Hrt, Rabs_pos_eq by lra. rewrite Hang. apply Rmin_l.
Qed.

(** *** The clamp on [swing_rot], step by step *)

Ltac eval_mat :=
  unfold two_vector_matrix, cross, vneg, UnitZ, mmul, mulv, inverse, determinant,
    transpose, squaredNorm, dot;
  simpl; f_equal; field.

Lemma swing_rot_is_rotation : is_rotation swing_rot.
Proof.
  split.
  - unfold swing_rot. eval_mat.
  - unfold swing_rot, determinant. simpl. field.
Qed.

Lemma swing_rot_forward : swung_forward swing_rot = Vec3 (2/3) (2/3) (-1/3).
Proof. unfold swung_forward, swing_rot. eval_mat. Qed.

Lemma swing_rot_twist_matrix :
  twist_matrix swing_rot = Mat3 (4/9) (7/9) (4/9)  (1/9) (4/9) (-8/9)  (-8/9) (4/9) (1/9).
Proof.
  rewrite twist_matrix_unit; rewrite swing_rot_forward;
    [|unfold squaredNorm, dot; simpl; field].
  rewrite swing_of_generic; [|unfold squaredNorm, dot; simpl; field|simpl; lra].
  unfold swing_rot. eval_mat.
Qed.

Lemma swing_rot_twist :
  twist_of swing_rot = AngleAxis (PI / 2) (Vec3 (2/3) (2/3) (-1/3)).
Proof.
  unfold twist_of. rewrite swing_rot_twist_matrix.
  assert (squaredNorm (asym (Mat3 (4/9) (7/9) (4/9)  (1/9) (4/9) (-8/9)  (-8/9) (4/9) (1/9)))
          = 2 * 2) as Ha by (unfold squaredNorm, dot, asym; simpl; field).
  rewrite angleaxis_of_matrix_pos_trace.
  - rewrite Ha, sqrt_square by lra. f_equal.
    + replace (2 / (trace _ + 1)) with 1 by (unfold trace; simpl; field).
      rewrite atan_1. field.
    + unfold vscale, asym. simpl. f_equal; field.
  - unfold trace. simpl. lra.
  - rewrite Ha. lra.
Qed.

Lemma quarter_twist_matrix :
  aa_toRotationMatrix (AngleAxis (PI / 2) (Vec3 (2/3) (2/3) (-1/3)))
  = Mat3 (4/9) (7/9) (4/9)  (1/9) (4/9) (-8/9)  (-8/9) (4/9) (1/9).
Proof.
  unfold aa_toRotationMatrix. simpl. rewrite cos_PI2, sin_PI2. f_equal; field.
Qed.

Lemma swing_rot_scaled_forward : scaled_forward swing_rot = Vec3 2 2 (-1).
Proof.
  unfold scaled_forward, tangent_divisor. rewrite swing_rot_forward.
  unfold forward_guard. simpl.
  destruct (Rlt_dec 0 (-1 / 3)) as [H|_]; [lra|]. unfold vscale. simpl.
  f_equal; field.
Qed.

Lemma swing_rot_clamped_forward :
  clamped_forward swing_rot (-1) 1 (-7/4) (7/4) = Vec3 1 (7/4) (-1).
Proof.
  unfold clamped_forward, scaled_forward, tangent_divisor. rewrite swing_rot_forward.
  unfold forward_guard. simpl.
  destruct (Rlt_dec 0 (-1 / 3)) as [H|_]; [lra|]. simpl.
  unfold clamp. f_equal.
  - replace (-1 / (-1 / 3) * (2 / 3)) with 2 by field.
    rewrite (Rmax_right (-1) 2) by lra. apply Rmin_left. lra.
  - replace (-1 / (-1 / 3) * (2 / 3)) with 2 by field.
    rewrite (Rmax_right (-7 / 4) 2) by lra. apply Rmin_left. lra.
  - field.
Qed.

Lemma clamped_forward_normalized :
  normalized (Vec3 1 (7/4) (-1)) = Vec3 (4/9) (7/9) (-4/9).
Proof.
  unfold normalized.
  assert (squaredNorm (Vec3 1 (7/4) (-1)) = (9/4) * (9/4)) as ->
    by (unfold squaredNorm, dot; simpl; field).
  destruct (Rlt_dec 0 (9 / 4 * (9 / 4))) as [_|n]; [|lra].
  rewrite sqrt_square by lra. unfold vscale. simpl. f_equal; field.
Qed.

(** The result of the clamp on [swing_rot]. *)
Lemma swing_rot_clamped :
  clamp_proximals_linear swing_rot (PI / 2) (-1) 1 (-7/4) (7/4)
  = Mat3 (32/81) (56/81) (-49/81)
         (-427/1053) (-484/1053) (-64/81)
         (-868/1053) (587/1053) (8/81).
Proof.
  unfold clamp_proximals_linear.
  rewrite swing_rot_twist, swing_rot_clamped_forward, clamped_forward_normalized.
  assert (clamp_twist (AngleAxis (PI / 2) (Vec3 (2/3) (2/3) (-1/3))) (PI / 2)
          = AngleAxis (PI / 2) (Vec3 (2/3) (2/3) (-1/3))) as ->.
  { unfold clamp_twist, fabs. simpl. pose proof PI_RGT_0.
    rewrite Rabs_pos_eq by lra.
    destruct (Rlt_dec (PI / 2) (PI / 2)) as [H1|_]; [lra|reflexivity]. }
  rewrite quarter_twist_matrix.
  rewrite swing_of_generic; [|unfold squaredNorm, dot; simpl; field|simpl; lra].
  eval_mat.
Qed.

Lemma clamped_twist_matrix :
  twist_matrix (Mat3 (32/81) (56/81) (-49/81)
                     (-427/1053) (-484/1053) (-64/81)
                     (-868/1053) (587/1053) (8/81))
  = Mat3 (191929/583929) (353080/583929) (4760/6561)
         (3093160/7591077) (4571452/7591077) (-58555/85293)
         (-6467720/7591077) (3956995/7591077) (-4132/85293).
Proof.
  assert (swung_forward (Mat3 (32/81) (56/81) (-49/81)
                     (-427/1053) (-484/1053) (-64/81)
                     (-868/1053) (587/1053) (8/81)) = Vec3 (49/81) (64/81) (-8/81)) as Hf
    by (unfold swung_forward; eval_mat).
  rewrite twist_matrix_unit; rewrite Hf; [|unfold squaredNorm, dot; simpl; field].
  rewrite swing_of_generic; [|unfold squaredNorm, dot; simpl; field|simpl; lra].
  eval_mat.
Qed.

Lemma clamped_twist_angle :
  angle (twist_of (Mat3 (32/81) (56/81) (-49/81)
                        (-427/1053) (-484/1053) (-64/81)
                        (-868/1053) (587/1053) (8/81)))
  = 2 * atan (35 / 33).
Proof.
  unfold twist_of. rewrite clamped_twist_matrix.
  match goal with |- context [angleaxis_of_matrix ?m] => set (t := m) end.
  assert (squaredNorm (asym t) = (2310 / 1157) * (2310 / 1157)) as Ha
    by (unfold t, squaredNorm, dot, asym; simpl; field).
  assert (trace t = 1021 / 1157) as Ht by (unfold t, trace; simpl; field).
  rewrite angleaxis_of_matrix_pos_trace; [|rewrite Ht; lra|rewrite Ha; lra].
  simpl angle. rewrite Ha, Ht, sqrt_square by lra.
  f_equal. f_equal. field.
Qed.

(** [2 * atan (35 / 33)] exceeds a quarter turn by more than [2 / 35]
    radians (it is about 93.4 degrees). *)
Lemma atan_35_33_margin : PI / 2 + 2 / 35 < 2 * atan (35 / 33).
Proof.
  pose proof PI_RGT_0 as Hpi.
  pose proof (atan_bound (35 / 33)) as [B1 B2].
  pose proof (atan_bound (1 / 34)) as [B3 B4].
  assert (atan_sub (35 / 33) 1 = 1 / 34) as Hsub by (unfold atan_sub; field).
  assert (0 < atan (1 / 34)) as Hpos.
  { rewrite <- atan_0. apply atan_increasing. lra. }
  assert (atan 1 < atan (35 / 33)) as Hinc by (apply atan_increasing; lra).
  assert (atan (35 / 33) = atan 1 + atan (1 / 34)) as E.
  { rewrite <- Hsub. apply atan_sub_correct.
    - lra.
    - rewrite atan_1 in *. lra.
    - rewrite Hsub. lra. }
  rewrite E, atan_1.
  assert (1 / 35 < atan (1 / 34)); [|lra].
  apply Rlt_trans with (sin (atan (1 / 34))); [|apply sin_lt_x; exact Hpos].
  rewrite sin_atan.
  assert (sqrt (1 + (1 / 34)²) < 35 / 34) as Hs.
  { rewrite <- (sqrt_square (35 / 34)) by lra.
    apply sqrt_lt_1; unfold Rsqr; lra. }
  assert (0 < sqrt (1 + (1 / 34)²)) as Hs0.
  { apply sqrt_lt_R0. unfold Rsqr. lra. }
  set (s := sqrt (1 + (1 / 34)²)) in *.
  apply (Rmult_lt_reg_r s); [exact Hs0|].
  replace (1 / 34 / s * s) with (1 / 34) by (field; lra). lra.
Qed.

Lemma swing_hand_wf : hand_wf swing_hand.
Proof. apply set_bone_linear_wf, rest_hand_wf. Qed.

Lemma swing_hand_bone : bone_linear swing_hand 1 1 = swing_rot.
Proof.
  unfold swing_hand.
  apply (bone_linear_set_bone_linear _ 1 1 _ rest_hand_wf); lia.
Qed.

(** C6, as stated: the twist of the resulting rotation, measured as
    [rotation * swing.inverse()], would be at most [max_swing_angle].  On
    [swing_hand] the local rotation is a rotation whose twist is a
    quarter turn; with [max_swing_angle] a quarter turn and the tangents
    clamped to [[-1, 1]] and [[-7/4, 7/4]], the twist is left as it is,
    the swing is clamped from the tangents [(2, 2)] to [(1, 7/4)], and
    the twist of the result is [2 * atan (35 / 33)], more than [2 / 35]
    radians above the quarter turn. *)
Lemma C6_twist_bound_refuted :
  hand_wf swing_hand /\
  is_rotation (bone_linear swing_hand 1 1) /\
  angle (twist_of (bone_linear swing_hand 1 1)) = PI / 2 /\
  angle (twist_of (bone_linear
                     (clamp_proximals swing_hand 1 1 (PI / 2) (-1) 1 (-7/4) (7/4)) 1 1))
  = 2 * atan (35 / 33) /\
  PI / 2 + 2 / 35
  < Rabs (angle (twist_of (bone_linear
                     (clamp_proximals swing_hand 1 1 (PI / 2) (-1) 1 (-7/4) (7/4)) 1 1))).
Proof.
  assert (angle (twist_of (bone_linear
            (clamp_proximals swing_hand 1 1 (PI / 2) (-1) 1 (-7/4) (7/4)) 1 1))
          = 2 * atan (35 / 33)) as E.
  { unfold clamp_proximals.
    rewrite (bone_linear_set_bone_linear _ 1 1 _ swing_hand_wf); [| lia | lia].
    rewrite swing_hand_bone, swing_rot_clamped. apply clamped_twist_angle. }
  split; [exact swing_hand_wf|].
  split; [rewrite swing_hand_bone; exact swing_rot_is_rotation|].
  split; [rewrite swing_hand_bone, swing_rot_twist; reflexivity|].
  split; [exact E|].
  rewrite E. pose proof atan_35_33_margin. pose proof PI_RGT_0.
  rewrite Rabs_pos_eq; lra.
Qed.

Lemma clamp_twist_bound (twist_aax : AngleAxisf) (max_swing_angle : R) :
  0 <= max_swing_angle ->
  Rabs (angle (clamp_twist twist_aax max_swing_angle)) <= max_swing_angle /\
  axis (clamp_twist twist_aax max_swing_angle) = axis twist_aax /\
  0 <= angle (clamp_twist twist_aax max_swing_angle) * angle twist_aax /\
  (Rabs (angle twist_aax) <= max_swing_angle ->
   clamp_twist twist_aax max_swing_angle = twist_aax) /\
  (max_swing_angle < Rabs (angle twist_aax) ->
   Rabs (angle (clamp_twist twist_aax max_swing_angle)) = max_swing_angle).
Proof.
  intros Hm. unfold clamp_twist, fabs.
  destruct twist_aax as [a ax]. simpl.
  destruct (Rlt_dec max_swing_angle (Rabs a)) as [Hgt|Hle]; simpl.
  - assert (a <> 0) as Ha.
    { intros ->. rewrite Rabs_R0 in Hgt. lra. }
    assert (max_swing_angle * (a / Rabs a) = max_swing_angle /\ 0 < a \/
            max_swing_angle * (a / Rabs a) = - max_swing_angle /\ a < 0) as Hs.
    { unfold Rabs. destruct (Rcase_abs a) as [Hn|Hp].
      - right. split; [field; lra|lra].
      - left. split; [field; lra|lra]. }
    repeat split.
    + destruct Hs as [[-> _]|[-> _]]; [|rewrite Rabs_Ropp]; rewrite Rabs_pos_eq; lra.
    + destruct Hs as [[-> H]|[-> H]]; nra.
    + intros Hc. lra.
    + intros _.
      destruct Hs as [[-> _]|[-> _]]; [|rewrite Rabs_Ropp]; rewrite Rabs_pos_eq; lra.
  - repeat split.
    + lra.
    + nra.
    + intros Hc. lra.
Qed.

(** C6, amended: the result of the swing-twist clamp is
    [twist_aax * simple], the clamped twist composed with the clamped
    swing, and for every [max_swing_angle >= 0] the clamped twist
    [twist_aax] has an angle of magnitude at most [max_swing_angle],
    with the axis of the twist of the input rotation and an angle of the
    same sign; a twist within the bound is left as it is, and one beyond
    it gets the magnitude [max_swing_angle] exactly.  When moreover the
    bone's rotation is a proper rotation whose forward axis points
    forward with its two tangents within the limits, so that the swing
    is kept, the twist measured again on the result has an angle of
    magnitude at most [max_swing_angle]. *)
Theorem C6_twist_factor_bound :
  forall (hand : kinematic_hand_4f) (finger_idx bone_idx : nat)
         (max_swing_angle tanangle_left tanangle_right
          tanangle_curled tanangle_uncurled : R),
    hand_wf hand -> (finger_idx < 5)%nat -> (bone_idx < 5)%nat ->
    0 <= max_swing_angle ->
    let rot := bone_linear hand finger_idx bone_idx in
    let twist_aax := clamp_twist (twist_of rot) max_swing_angle in
    let simple :=
      swing_of (normalized (clamped_forward rot tanangle_left tanangle_right
                                            tanangle_curled tanangle_uncurled)) in
    bone_linear (clamp_proximals hand finger_idx bone_idx max_swing_angle
                   tanangle_left tanangle_right tanangle_curled tanangle_uncurled)
                finger_idx bone_idx
    = mmul (aa_toRotationMatrix twist_aax) simple /\
    Rabs (angle twist_aax) <= max_swing_angle /\
    axis twist_aax = axis (twist_of rot) /\
    0 <= angle twist_aax * angle (twist_of rot) /\
    (Rabs (angle (twist_of rot)) <= max_swing_angle -> twist_aax = twist_of rot) /\
    (max_swing_angle < Rabs (angle (twist_of rot)) ->
     Rabs (angle twist_aax) = max_swing_angle) /\
    (is_rotation rot -> vz (swung_forward rot) < 0 ->
     tanangle_left <= vx (scaled_forward rot) <= tanangle_right ->
     tanangle_curled <= vy (scaled_forward rot) <= tanangle_uncurled ->
     Rabs (angle (twist_of
             (bone_linear (clamp_proximals hand finger_idx bone_idx max_swing_angle
                             tanangle_left tanangle_right
                             tanangle_curled tanangle_uncurled)
                          finger_idx bone_idx)))
     <= max_swing_angle).
Proof.
  intros hand f b th tl tr tc tu Hwf Hf Hb Hth rot twist_aax simple.
  assert (bone_linear (clamp_proximals hand f b th tl tr tc tu) f b
          = clamp_proximals_linear rot th tl tr tc tu) as Hres.
  { unfold clamp_proximals.
    now rewrite (bone_linear_set_bone_linear hand f b _ Hwf Hf Hb). }
  destruct (clamp_twist_bound (twist_of rot) th Hth) as (B1 & B2 & B3 & B4 & B5).
  split; [exact Hres|].
  repeat (split; [assumption|]).
  intros Hrot Hz Hx Hy. rewrite Hres.
  apply (clamp_proximals_linear_kept_swing rot th tl tr tc tu Hrot Hth Hz Hx Hy).
Qed.

Lemma C6_twist_factor_bound_witness :
  (Rabs (angle (clamp_twist (twist_of (bone_linear swing_hand 1 1)) (PI / 2))) <= PI / 2 /\
   clamp_twist (twist_of (bone_linear swing_hand 1 1)) (PI / 2)
   = twist_of (bone_linear swing_hand 1 1)) /\
  Rabs (angle (clamp_twist (twist_of (bone_linear swing_hand 1 1)) 0)) = 0 /\
  Rabs (angle (twist_of (bone_linear
                           (clamp_proximals swing_hand 1 1 (PI / 4) (-3) 3 (-3) 3) 1 1)))
  <= PI / 4.
Proof.
  assert (0 < PI / 2) as Hth by (pose proof PI_RGT_0; lra).
  assert (Rabs (angle (twist_of (bone_linear swing_hand 1 1))) = PI / 2) as Ha.
  { rewrite swing_hand_bone, swing_rot_twist. simpl. apply Rabs_pos_eq. lra. }
  split; [|split].
  - destruct (C6_twist_factor_bound swing_hand 1 1 (PI / 2) (-1) 1 (-7/4) (7/4)
                swing_hand_wf ltac:(lia) ltac:(lia) ltac:(lra))
      as (_ & H1 & _ & _ & H2 & _).
    split; [exact H1|]. apply H2. rewrite Ha. lra.
  - destruct (C6_twist_factor_bound swing_hand 1 1 0 (-1) 1 (-7/4) (7/4)
                swing_hand_wf ltac:(lia) ltac:(lia) ltac:(lra))
      as (_ & _ & _ & _ & _ & H3 & _).
    apply H3. rewrite Ha. exact Hth.
  - destruct (C6_twist_factor_bound swing_hand 1 1 (PI / 4) (-3) 3 (-3) 3
                swing_hand_wf ltac:(lia) ltac:(lia) ltac:(lra))
      as (_ & _ & _ & _ & _ & _ & H4).
    apply H4; rewrite swing_hand_bone.
    + exact swing_rot_is_rotation.
    + rewrite swing_rot_forward. simpl. lra.
    + rewrite swing_rot_scaled_forward. simpl. lra.
    + rewrite swing_rot_scaled_forward. simpl. lra.
Defined.

(** ** The frame entry point *)

Lemma fold_left_invariant {A B : Type} (P : A -> Prop) (f : A -> B -> A)
    (l : list B) (a : A) :
  P a -> (forall a x, P a -> P (f a x)) -> P (fold_left f l a).
Proof.
  intros Ha Hf. revert a Ha. induction l as [|x l IH]; intros a Ha; simpl.
  - exact Ha.
  - apply IH, Hf, Ha.
Qed.

Lemma fold_left_related {A B C : Type} (R : A -> B -> Prop)
    (f : A -> C -> A) (g : B -> C -> B) (l : list C) (a : A) (b : B) :
  R a b -> (forall a b x, R a b -> R (f a x) (g b x)) ->
  R (fold_left f l a) (fold_left g l b).
Proof.
  intros Hab Hfg. revert a b Hab. induction l as [|x l IH]; intros a b Hab; simpl.
  - exact Hab.
  - apply IH, Hfg, Hab.
Qed.

Lemma land_lor_absorb_l (a b : Z) : Z.land (Z.lor a b) a = a.
Proof.
  apply Z.bits_inj'. intros n _.
  rewrite Z.land_spec, Z.lor_spec.
  destruct (Z.testbit a n), (Z.testbit b n); reflexivity.
Qed.

Lemma land_lor_absorb_r (a b : Z) : Z.land (Z.lor a b) b = b.
Proof. rewrite Z.lor_comm. apply land_lor_absorb_l. Qed.

Lemma land_lor_keep (a b c : Z) : Z.land a c = c -> Z.land (Z.lor a b) c = c.
Proof.
  intros H. apply Z.bits_inj'. intros n _.
  apply (f_equal (fun t => Z.testbit t n)) in H.
  rewrite Z.land_spec in H. rewrite Z.land_spec, Z.lor_spec.
  destruct (Z.testbit a n), (Z.testbit b n), (Z.testbit c n);
    simpl in *; congruence.
Qed.

Section SolverProperties.

Variable umeyama : list Vector3f -> list Vector3f -> Affine3f.
Variable _statics_init_world_poses : kinematic_hand_4f -> kinematic_hand_4f.
Variable rotation : Affine3f -> Matrix3f.
Variable hidden_thumb : nat -> nat -> bool.
Variables OV OT PV PT : Z.
Variables PALM WRIST THUMB_METACARPAL : nat.

Abbreviation all_flags := (all_relation_flags OV OT PV PT).
Abbreviation solve :=
  (optimize_new_frame umeyama _statics_init_world_poses rotation hidden_thumb
     OV OT PV PT PALM WRIST THUMB_METACARPAL).
Abbreviation emit := (emit_fingers rotation hidden_thumb OV OT PV PT).
Abbreviation make_joint := (make_joint_at_matrix rotation OV OT PV PT).
Abbreviation joints m := (hand_joint_set_default (out_set m)).

Lemma all_relation_flags_set (v : xrt_hand_joint_value) :
  relation_flags (relation v) = all_flags -> has_flags OV OT PV PT v.
Proof.
  intros E. unfold has_flags, all_relation_flags in *. rewrite E.
  repeat split.
  - do 2 apply land_lor_keep. apply land_lor_absorb_l.
  - do 2 apply land_lor_keep. apply land_lor_absorb_r.
  - apply land_lor_keep. apply land_lor_absorb_r.
  - apply land_lor_absorb_r.
Qed.

(** Every call of [make_joint_at_matrix] is one write of a slot, with
    the position of the pose and, for the right hand, its X negated. *)
Lemma make_joint_at_matrix_write (idx : nat) (pose : Affine3f)
    (out : xrt_hand_joint_set) (hand_idx : Z) :
  exists q,
    make_joint idx pose out hand_idx =
    write_joint OV OT PV PT idx
      (if Z.eqb hand_idx 0
       then map_back (translation pose)
       else mirror_x (map_back (translation pose)))
      q out.
Proof.
  unfold make_joint_at_matrix. destruct (Z.eqb hand_idx 0).
  - eexists. reflexivity.
  - eexists. reflexivity.
Qed.

Lemma write_joint_emitted (old : list xrt_hand_joint_value) (idx : nat)
    (p : xrt_vec3) (q : Quaternionf) (out : xrt_hand_joint_set) :
  emitted_flags OV OT PV PT old (hand_joint_set_default out) ->
  emitted_flags OV OT PV PT old
    (hand_joint_set_default (write_joint OV OT PV PT idx p q out)).
Proof.
  intros [Hlen Hslots]. unfold write_joint. simpl. split.
  - now rewrite length_alter.
  - intros j. destruct (decide (idx = j)) as [->|Hne].
    + rewrite list_lookup_alter_eq.
      destruct (hand_joint_set_default out !! j) as [v|] eqn:Hv; simpl.
      * right. eexists. split; [reflexivity|].
        apply all_relation_flags_set. reflexivity.
      * left. symmetry. apply lookup_ge_None. rewrite <- Hlen.
        now apply lookup_ge_None.
    + rewrite list_lookup_alter_ne by exact Hne. apply Hslots.
Qed.

Lemma make_joint_emitted (old : list xrt_hand_joint_value) (idx : nat)
    (pose : Affine3f) (out : xrt_hand_joint_set) (hand_idx : Z) :
  emitted_flags OV OT PV PT old (hand_joint_set_default out) ->
  emitted_flags OV OT PV PT old
    (hand_joint_set_default (make_joint idx pose out hand_idx)).
Proof.
  intros H. destruct (make_joint_at_matrix_write idx pose out hand_idx) as [q ->].
  now apply write_joint_emitted.
Qed.

Lemma emit_fingers_emitted (old : list xrt_hand_joint_value)
    (hand : kinematic_hand_4f) (hand_idx : Z) (start : nat)
    (out : xrt_hand_joint_set) :
  emitted_flags OV OT PV PT old (hand_joint_set_default out) ->
  emitted_flags OV OT PV PT old
    (hand_joint_set_default (snd (emit hand hand_idx start out))).
Proof.
  intros H. unfold emit_fingers.
  apply (fold_left_invariant
           (fun acc => emitted_flags OV OT PV PT old (hand_joint_set_default (snd acc))));
    [exact H|].
  intros acc f Hacc.
  apply (fold_left_invariant
           (fun acc => emitted_flags OV OT PV PT old (hand_joint_set_default (snd acc))));
    [exact Hacc|].
  intros acc' b Hacc'.
  destruct (hidden_thumb f b); [exact Hacc'|].
  destruct (negb _); [|exact Hacc'].
  simpl. now apply make_joint_emitted.
Qed.

Lemma emitted_flags_refl (old : list xrt_hand_joint_value) :
  emitted_flags OV OT PV PT old old.
Proof. split; [reflexivity|]. intros idx. now left. Qed.

(** The joint array after a solve, as two writes and the emission loop. *)
Lemma solve_joints (mem : frame_memory) (hand_idx : Z) :
  let h := optimize (hand_ops umeyama _statics_init_world_poses)
             (intake (model_joints_3d mem) (hand mem) hand_idx) in
  joints (solve mem hand_idx) =
  hand_joint_set_default
    (snd (emit h hand_idx THUMB_METACARPAL
            (make_joint PALM (palm_relation h)
               (make_joint WRIST (wrist_relation h) (out_set mem) hand_idx)
               hand_idx))) /\
  is_active (out_set (solve mem hand_idx)) = true /\
  hand (solve mem hand_idx) = h /\
  model_joints_3d (solve mem hand_idx) = model_joints_3d mem.
Proof.
  intros h. unfold optimize_new_frame. fold h.
  destruct (emit h hand_idx THUMB_METACARPAL _) as [s o]. simpl. auto.
Qed.

Lemma write_joint_slot (idx : nat) (p : xrt_vec3) (q : Quaternionf)
    (out : xrt_hand_joint_set) (v : xrt_hand_joint_value) :
  hand_joint_set_default (write_joint OV OT PV PT idx p q out) !! idx = Some v ->
  has_flags OV OT PV PT v /\ joint_position v = p.
Proof.
  unfold write_joint. simpl. rewrite list_lookup_alter_eq.
  destruct (hand_joint_set_default out !! idx) as [w|]; simpl; [|discriminate].
  intros [= <-]. split; [|reflexivity].
  apply all_relation_flags_set. reflexivity.
Qed.

Lemma emitted_flags_trans (a b c : list xrt_hand_joint_value) :
  emitted_flags OV OT PV PT a b -> emitted_flags OV OT PV PT b c ->
  emitted_flags OV OT PV PT a c.
Proof.
  intros [Hl1 H1] [Hl2 H2]. split; [congruence|].
  intros idx. destruct (H2 idx) as [E|F]; [|now right].
  rewrite E. apply H1.
Qed.

Lemma emitted_flags_keeps (a b : list xrt_hand_joint_value) (idx : nat) :
  emitted_flags OV OT PV PT a b ->
  (forall v, a !! idx = Some v -> has_flags OV OT PV PT v) ->
  forall v, b !! idx = Some v -> has_flags OV OT PV PT v.
Proof.
  intros [_ H] Ha v Hv. destruct (H idx) as [E|(w & Hw & F)].
  - apply Ha. congruence.
  - congruence.
Qed.

(** The emission loop writes the slots from [start] on, one per emitted
    bone, and every one of them carries the flags. *)
Lemma emit_fingers_range (hand : kinematic_hand_4f) (hand_idx : Z) (start : nat)
    (out : xrt_hand_joint_set) :
  let r := emit hand hand_idx start out in
  (start <= fst r)%nat /\
  flagged_range OV OT PV PT start (fst r) (hand_joint_set_default (snd r)).
Proof.
  unfold emit_fingers.
  set (Q := fun acc : nat * xrt_hand_joint_set =>
              (start <= fst acc)%nat /\
              flagged_range OV OT PV PT start (fst acc) (hand_joint_set_default (snd acc))).
  apply (fold_left_invariant Q).
  { unfold Q. simpl. split; [lia|]. intros idx v Hr. lia. }
  intros acc f Hacc. apply (fold_left_invariant Q); [exact Hacc|].
  intros [s o] b [Hs Hr].
  destruct (hidden_thumb f b); [split; assumption|].
  destruct (negb _); [|split; assumption].
  unfold Q. simpl in *. split; [lia|].
  destruct (make_joint_at_matrix_write s
              (world_pose (get_bone hand f b)) o hand_idx) as [q ->].
  intros idx v Hidx Hv. destruct (decide (idx = s)) as [->|Hne].
  - now apply write_joint_slot in Hv.
  - unfold write_joint in Hv. simpl in Hv.
    rewrite list_lookup_alter_ne in Hv by congruence.
    apply (Hr idx v); [lia|exact Hv].
Qed.

Lemma emit_bones_count (hand : kinematic_hand_4f) (hand_idx : Z) (f : nat)
    (bs : list nat) (acc : nat * xrt_hand_joint_set) :
  fst (fold_left
         (fun acc bone_idx =>
            if hidden_thumb f bone_idx then acc
            else if negb (Nat.eqb f 0 && Nat.eqb bone_idx 0)
            then (S (fst acc),
                  make_joint (fst acc) (world_pose (get_bone hand f bone_idx))
                    (snd acc) hand_idx)
            else acc) bs acc)
  = (fst acc + length (filter (fun fb => negb (hidden_thumb (fst fb) (snd fb)) &&
                                negb (Nat.eqb (fst fb) 0 && Nat.eqb (snd fb) 0))
                              (map (pair f) bs)))%nat.
Proof.
  revert acc. induction bs as [|b bs IHb]; intros acc; simpl; [lia|].
  rewrite filter_cons. simpl.
  destruct (hidden_thumb f b); simpl.
  - apply IHb.
  - destruct (negb (Nat.eqb f 0 && Nat.eqb b 0)); simpl.
    + rewrite IHb. simpl. lia.
    + apply IHb.
Qed.

Lemma emit_fingers_count_gen (hand : kinematic_hand_4f) (hand_idx : Z)
    (fs bs : list nat) (acc : nat * xrt_hand_joint_set) :
  fst (fold_left
         (fun acc finger_idx =>
            fold_left
              (fun acc bone_idx =>
                 if hidden_thumb finger_idx bone_idx then acc
                 else if negb (Nat.eqb finger_idx 0 && Nat.eqb bone_idx 0)
                 then (S (fst acc),
                       make_joint (fst acc)
                         (world_pose (get_bone hand finger_idx bone_idx))
                         (snd acc) hand_idx)
                 else acc) bs acc) fs acc)
  = (fst acc + length (filter (fun fb => negb (hidden_thumb (fst fb) (snd fb)) &&
                                negb (Nat.eqb (fst fb) 0 && Nat.eqb (snd fb) 0))
                              (flat_map (fun f => map (pair f) bs) fs)))%nat.
Proof.
  revert acc. induction fs as [|f fs IH]; intros acc; simpl; [lia|].
  rewrite filter_app, length_app, IH, emit_bones_count. lia.
Qed.

Lemma emit_fingers_count (hand : kinematic_hand_4f) (hand_idx : Z) (start : nat)
    (out : xrt_hand_joint_set) :
  fst (emit hand hand_idx start out) = (start + length (emitted_bones hidden_thumb))%nat.
Proof.
  exact (emit_fingers_count_gen hand hand_idx (seq 0 5) (seq 0 5) (start, out)).
Qed.

Lemma solve_emitted_flags (mem : frame_memory) (hand_idx : Z) :
  emitted_flags OV OT PV PT (joints mem) (joints (solve mem hand_idx)).
Proof.
  destruct (solve_joints mem hand_idx) as (Hj & _). cbv zeta in Hj. rewrite Hj.
  apply emit_fingers_emitted. do 2 apply make_joint_emitted. apply emitted_flags_refl.
Qed.

Lemma solve_length (mem : frame_memory) (hand_idx : Z) :
  length (joints (solve mem hand_idx)) = length (joints mem).
Proof. apply solve_emitted_flags. Qed.

(** C8: whatever the 21 points and the handedness, a solve returns a
    joint set (the entry point is a total function, with no error
    result); the set is marked active; the array keeps its length; every
    slot is either as the caller passed it or carries the orientation
    valid, orientation tracked, position valid and position tracked
    flags; and every emitted slot -- the wrist, the palm, and one per
    emitted finger bone -- carries them. *)
Theorem C8_solve_always_emits :
  forall (mem : frame_memory) (hand_idx : Z),
    let out := out_set (solve mem hand_idx) in
    is_active out = true /\
    length (hand_joint_set_default out) = length (joints mem) /\
    (forall idx,
        hand_joint_set_default out !! idx = joints mem !! idx \/
        exists v, hand_joint_set_default out !! idx = Some v /\
                  has_flags OV OT PV PT v) /\
    (forall idx v,
        emitted_index hidden_thumb PALM WRIST THUMB_METACARPAL idx ->
        hand_joint_set_default out !! idx = Some v ->
        has_flags OV OT PV PT v).
Proof.
  intros mem hand_idx out.
  destruct (solve_joints mem hand_idx) as (Hj & Ha & _ & _).
  cbv zeta in Hj.
  set (h := optimize (hand_ops umeyama _statics_init_world_poses)
              (intake (model_joints_3d mem) (hand mem) hand_idx)) in *.
  set (o1 := make_joint WRIST (wrist_relation h) (out_set mem) hand_idx) in *.
  set (o2 := make_joint PALM (palm_relation h) o1 hand_idx) in *.
  assert (emitted_flags OV OT PV PT (joints mem) (hand_joint_set_default o1)) as E1
    by (apply make_joint_emitted, emitted_flags_refl).
  assert (emitted_flags OV OT PV PT (hand_joint_set_default o1)
            (hand_joint_set_default o2)) as E2
    by (apply make_joint_emitted, emitted_flags_refl).
  assert (emitted_flags OV OT PV PT (hand_joint_set_default o2)
            (hand_joint_set_default out)) as E3.
  { unfold out. rewrite Hj. apply emit_fingers_emitted, emitted_flags_refl. }
  pose proof (emitted_flags_trans _ _ _ (emitted_flags_trans _ _ _ E1 E2) E3) as E.
  split; [exact Ha|]. split; [apply E|]. split; [apply E|].
  intros idx v [->|[->|Hr]] Hv.
  - revert v Hv. apply (emitted_flags_keeps _ _ WRIST (emitted_flags_trans _ _ _ E2 E3)).
    intros v Hv. unfold o1 in Hv.
    destruct (make_joint_at_matrix_write WRIST (wrist_relation h)
                (out_set mem) hand_idx) as [q Hq].
    rewrite Hq in Hv. now apply write_joint_slot in Hv.
  - revert v Hv. apply (emitted_flags_keeps _ _ PALM E3).
    intros v Hv. unfold o2 in Hv.
    destruct (make_joint_at_matrix_write PALM (palm_relation h) o1 hand_idx) as [q Hq].
    rewrite Hq in Hv. now apply write_joint_slot in Hv.
  - unfold out in Hv. rewrite Hj in Hv.
    destruct (emit_fingers_range h hand_idx THUMB_METACARPAL o2) as [_ Hrange].
    rewrite emit_fingers_count in Hrange. exact (Hrange idx v Hr Hv).
Qed.

(** C10: a solve leaves the caller's array of 21 points as it was,
    whatever the handedness: the entry point reads the array and writes
    the copy inside the hand (negating X there for the right hand) and
    the joint set only. *)
Theorem C10_input_unchanged :
  forall (mem : frame_memory) (hand_idx : Z),
    model_joints_3d (solve mem hand_idx) = model_joints_3d mem.
Proof.
  intros mem hand_idx. apply (solve_joints mem hand_idx).
Qed.

(** *** Left against right *)

Lemma mirror_x_lookup_total (P : list xrt_vec3) (i : nat) :
  (mirror_x <$> P) !!! i = mirror_x (P !!! i).
Proof.
  rewrite !list_lookup_total_alt, list_lookup_fmap.
  destruct (P !! i); simpl; [reflexivity|].
  unfold mirror_x. simpl. f_equal. ring.
Qed.

Lemma mirror_x_involutive (p : xrt_vec3) : mirror_x (mirror_x p) = p.
Proof. destruct p. unfold mirror_x. simpl. f_equal. ring. Qed.

(** The right-hand intake of the mirrored points loads what the left-hand
    intake of the points loads. *)
Lemma intake_mirror (P : list xrt_vec3) (h : kinematic_hand_4f) :
  intake (mirror_x <$> P) h 1 = intake P h 0.
Proof.
  unfold intake.
  apply (fold_left_related eq); [reflexivity|].
  intros a b i <-. simpl.
  rewrite mirror_x_lookup_total.
  change (XrtVec3 (- x (mirror_x (P !!! i))) (y (mirror_x (P !!! i)))
                  (z (mirror_x (P !!! i))))
    with (mirror_x (mirror_x (P !!! i))).
  now rewrite mirror_x_involutive.
Qed.

Lemma write_joint_pair_mirrored (j idx : nat) (p : xrt_vec3) (q q' : Quaternionf)
    (l r : xrt_hand_joint_set) :
  (idx = j \/ mirrored_slot j (hand_joint_set_default l) (hand_joint_set_default r)) ->
  mirrored_slot j
    (hand_joint_set_default (write_joint OV OT PV PT idx p q l))
    (hand_joint_set_default (write_joint OV OT PV PT idx (mirror_x p) q' r)).
Proof.
  intros H vl vr Hl Hr. destruct (decide (idx = j)) as [->|Hne].
  - apply write_joint_slot in Hl, Hr. destruct Hl as [_ ->], Hr as [_ ->]. reflexivity.
  - destruct H as [E|H]; [congruence|].
    unfold write_joint in Hl, Hr. simpl in Hl, Hr.
    rewrite list_lookup_alter_ne in Hl, Hr by exact Hne.
    exact (H vl vr Hl Hr).
Qed.

Lemma write_joint_pair_untouched (old : list xrt_hand_joint_value) (idx : nat)
    (p : xrt_vec3) (q q' : Quaternionf) (l r : xrt_hand_joint_set) :
  mirrored_joints old (hand_joint_set_default l) (hand_joint_set_default r) ->
  mirrored_joints old
    (hand_joint_set_default (write_joint OV OT PV PT idx p q l))
    (hand_joint_set_default (write_joint OV OT PV PT idx (mirror_x p) q' r)).
Proof.
  intros (Hl & Hr & H). unfold write_joint. simpl.
  split; [now rewrite length_alter|]. split; [now rewrite length_alter|].
  intros j. destruct (decide (idx = j)) as [->|Hne].
  - rewrite !list_lookup_alter_eq.
    destruct (hand_joint_set_default l !! j) as [vl|] eqn:El;
      destruct (hand_joint_set_default r !! j) as [vr|] eqn:Er; simpl.
    + right. do 2 eexists. repeat split.
    + apply lookup_ge_None in Er. apply lookup_lt_Some in El. lia.
    + apply lookup_ge_None in El. apply lookup_lt_Some in Er. lia.
    + left. apply lookup_ge_None in El.
      assert (old !! j = None) as -> by (apply lookup_ge_None; lia). auto.
  - rewrite !list_lookup_alter_ne by exact Hne. apply H.
Qed.

Lemma make_joint_left (idx : nat) (pose : Affine3f) (out : xrt_hand_joint_set) :
  exists q, make_joint idx pose out 0 =
            write_joint OV OT PV PT idx (map_back (translation pose)) q out.
Proof. exact (make_joint_at_matrix_write idx pose out 0). Qed.

Lemma make_joint_right (idx : nat) (pose : Affine3f) (out : xrt_hand_joint_set) :
  exists q, make_joint idx pose out 1 =
            write_joint OV OT PV PT idx (mirror_x (map_back (translation pose))) q out.
Proof. exact (make_joint_at_matrix_write idx pose out 1). Qed.

(** The emission loops of the left and of the right hand, side by side. *)
Lemma emit_fingers_mirrored (old : list xrt_hand_joint_value) (K : nat -> Prop)
    (h : kinematic_hand_4f) (start : nat) (l r : xrt_hand_joint_set) :
  mirrored_joints old (hand_joint_set_default l) (hand_joint_set_default r) ->
  (forall j, K j -> mirrored_slot j (hand_joint_set_default l) (hand_joint_set_default r)) ->
  let el := emit h 0 start l in
  let er := emit h 1 start r in
  mirrored_joints old (hand_joint_set_default (snd el)) (hand_joint_set_default (snd er)) /\
  (forall j, K j \/ (start <= j < fst el)%nat ->
             mirrored_slot j (hand_joint_set_default (snd el))
                             (hand_joint_set_default (snd er))).
Proof.
  intros Hm HK. unfold emit_fingers.
  set (Rel := fun (a b : nat * xrt_hand_joint_set) =>
         fst a = fst b /\ (start <= fst a)%nat /\
         mirrored_joints old (hand_joint_set_default (snd a))
                             (hand_joint_set_default (snd b)) /\
         (forall j, K j \/ (start <= j < fst a)%nat ->
                    mirrored_slot j (hand_joint_set_default (snd a))
                                    (hand_joint_set_default (snd b)))).
  assert (Rel (start, l) (start, r)) as H0.
  { unfold Rel. simpl. repeat split; try lia; try apply Hm.
    intros j [Hj|Hj]; [now apply HK|lia]. }
  cbv zeta.
  match goal with
  | |- context [fold_left ?f (seq 0 5) (start, l)] =>
    match goal with
    | |- context [fold_left ?g (seq 0 5) (start, r)] =>
        assert (Rel (fold_left f (seq 0 5) (start, l))
                    (fold_left g (seq 0 5) (start, r))) as HR
    end
  end; [|split; apply HR].
  apply (fold_left_related Rel); [exact H0|].
  intros a b f Hab. apply (fold_left_related Rel); [exact Hab|].
  intros [s o] [s' o'] bi (Hs & Hle & Hmj & Hsl). simpl in Hs. subst s'.
  assert (Rel (s, o) (s, o')) as Hsame by (unfold Rel; simpl; auto).
  destruct (hidden_thumb f bi); [exact Hsame|].
  destruct (negb _); [|exact Hsame].
  simpl in *.
  destruct (make_joint_left s (world_pose (get_bone h f bi)) o) as [q ->].
  destruct (make_joint_right s (world_pose (get_bone h f bi)) o') as [q' ->].
  unfold Rel. simpl. split; [reflexivity|]. split; [lia|]. split.
  - now apply write_joint_pair_untouched.
  - intros j Hj. apply write_joint_pair_mirrored.
    destruct (decide (s = j)) as [->|Hne]; [now left|right].
    apply Hsl. destruct Hj as [Hj|Hj]; [now left|right; lia].
Qed.

(** C9: from the same hand and joint set, the left-hand solve of the
    points [P] and the right-hand solve of their X-mirror images [P']
    end in the same hand, and their joint arrays agree slot by slot up
    to the mirror: a slot is untouched in both or holds positions that
    are X-mirror images of each other, and every emitted slot -- wrist,
    palm, one per emitted finger bone -- holds mirror images. *)
Theorem C9_mirror_symmetry :
  forall (P : list xrt_vec3) (hand0 : kinematic_hand_4f) (out0 : xrt_hand_joint_set),
    let left := solve (FrameMemory P hand0 out0) 0 in
    let right := solve (FrameMemory (mirror_x <$> P) hand0 out0) 1 in
    hand right = hand left /\
    (forall idx,
        (joints left !! idx = hand_joint_set_default out0 !! idx /\
         joints right !! idx = hand_joint_set_default out0 !! idx) \/
        exists vl vr, joints left !! idx = Some vl /\ joints right !! idx = Some vr /\
                      joint_position vr = mirror_x (joint_position vl)) /\
    (forall idx vl vr,
        emitted_index hidden_thumb PALM WRIST THUMB_METACARPAL idx ->
        joints left !! idx = Some vl -> joints right !! idx = Some vr ->
        joint_position vr = mirror_x (joint_position vl)).
Proof.
  intros P hand0 out0 left right.
  destruct (solve_joints (FrameMemory P hand0 out0) 0) as (Hjl & _ & Hhl & _).
  destruct (solve_joints (FrameMemory (mirror_x <$> P) hand0 out0) 1)
    as (Hjr & _ & Hhr & _).
  cbv zeta in Hjl, Hjr, Hhl, Hhr.
  cbn [model_joints_3d hand out_set] in Hjl, Hjr, Hhl, Hhr.
  rewrite intake_mirror in Hjr, Hhr.
  set (h := optimize (hand_ops umeyama _statics_init_world_poses)
              (intake P hand0 0)) in *.
  fold left in Hjl, Hhl. fold right in Hjr, Hhr.
  destruct (make_joint_left WRIST (wrist_relation h) out0) as [q1 E1].
  destruct (make_joint_right WRIST (wrist_relation h) out0) as [q1' E1'].
  rewrite E1 in Hjl. rewrite E1' in Hjr.
  set (l1 := write_joint OV OT PV PT WRIST (map_back (translation (wrist_relation h)))
               q1 out0) in *.
  set (r1 := write_joint OV OT PV PT WRIST
               (mirror_x (map_back (translation (wrist_relation h)))) q1' out0) in *.
  destruct (make_joint_left PALM (palm_relation h) l1) as [q2 E2].
  destruct (make_joint_right PALM (palm_relation h) r1) as [q2' E2'].
  rewrite E2 in Hjl. rewrite E2' in Hjr.
  set (l2 := write_joint OV OT PV PT PALM (map_back (translation (palm_relation h)))
               q2 l1) in *.
  set (r2 := write_joint OV OT PV PT PALM
               (mirror_x (map_back (translation (palm_relation h)))) q2' r1) in *.
  assert (mirrored_joints (hand_joint_set_default out0)
            (hand_joint_set_default out0) (hand_joint_set_default out0)) as M0.
  { repeat split. intros j. now left. }
  assert (mirrored_joints (hand_joint_set_default out0)
            (hand_joint_set_default l2) (hand_joint_set_default r2)) as M2
    by (do 2 apply write_joint_pair_untouched; exact M0).
  assert (forall j, j = WRIST \/ j = PALM ->
            mirrored_slot j (hand_joint_set_default l2) (hand_joint_set_default r2)) as K2.
  { intros j Hj. apply write_joint_pair_mirrored.
    destruct (decide (PALM = j)) as [E|Hne]; [now left|right].
    apply write_joint_pair_mirrored. left. destruct Hj; congruence. }
  destruct (emit_fingers_mirrored _ _ h THUMB_METACARPAL l2 r2 M2 K2) as [M3 K3].
  rewrite emit_fingers_count in K3. rewrite <- Hjl, <- Hjr in M3, K3.
  split; [congruence|]. split; [apply M3|].
  intros idx vl vr Hidx. apply K3.
  destruct Hidx as [E|[E|E]]; auto.
Qed.

End SolverProperties.

(** The intake loop leaves in slot [i] of the copy inside the hand the
    point [i] of the caller's array, with X negated for the right hand. *)
Lemma intake_t_jts (P : list xrt_vec3) (h : kinematic_hand_4f) (hand_idx : Z) (i : nat) :
  (i < 21)%nat -> (i < length (t_jts h))%nat ->
  t_jts (intake P h hand_idx) !! i
  = Some (if Z.eqb hand_idx 0 then P !!! i else mirror_x (P !!! i)).
Proof.
  intros Hi Hlen. unfold intake.
  assert (forall n, (n <= 21)%nat ->
            let h' := fold_left
              (fun hand i =>
                 let p := P !!! i in
                 let t_jts' :=
                   if Z.eqb hand_idx 0 then <[i := p]> (t_jts hand)
                   else <[i := XrtVec3 (- x p) (y p) (z p)]> (t_jts hand) in
                 let t := t_jts' !!! i in
                 Hand (wrist_relation hand) (fingers hand) t_jts'
                      (<[i := Vec3 (x t) (y t) (z t)]> (t_jts_as_mat hand))
                      (kinematic hand))
              (seq 0 n) h in
            length (t_jts h') = length (t_jts h) /\
            forall j, (j < n)%nat -> (j < length (t_jts h))%nat ->
              t_jts h' !! j
              = Some (if Z.eqb hand_idx 0 then P !!! j else mirror_x (P !!! j))) as Hinv.
  { induction n as [|n IH]; intros Hn; cbv zeta.
    - simpl. split; [reflexivity|]. intros j Hj. lia.
    - rewrite seq_S, fold_left_app. simpl.
      destruct (IH ltac:(lia)) as [Hl Hs]. cbv zeta in Hl, Hs.
      set (h' := fold_left _ (seq 0 n) h) in *.
      split.
      + destruct (Z.eqb hand_idx 0); simpl; now rewrite length_insert.
      + intros j Hj Hjl. destruct (decide (j = n)) as [->|Hne].
        * destruct (Z.eqb hand_idx 0); simpl;
            rewrite list_lookup_insert_eq by lia; reflexivity.
        * destruct (Z.eqb hand_idx 0); simpl;
            rewrite list_lookup_insert_ne by congruence; apply Hs; lia. }
  apply (Hinv 21%nat); [lia|exact Hi|exact Hlen].
Qed.

Lemma C8_solve_always_emits_witness :
  exists v,
    hand_joint_set_default
      (out_set (optimize_new_frame sample_umeyama sample_statics linear
                  sample_hidden_thumb 1 16 2 32 0 1 2 sample_frame 1)) !! 1%nat
    = Some v /\
    has_flags 1 16 2 32 v.
Proof.
  destruct (C8_solve_always_emits sample_umeyama sample_statics linear
              sample_hidden_thumb 1 16 2 32 0 1 2 sample_frame 1)
    as (_ & Hlen & _ & He).
  destruct (lookup_lt_is_Some_2
              (hand_joint_set_default
                 (out_set (optimize_new_frame sample_umeyama sample_statics linear
                             sample_hidden_thumb 1 16 2 32 0 1 2 sample_frame 1)))
              1%nat) as [v Hv].
  { rewrite Hlen. simpl. lia. }
  exists v. split; [exact Hv|].
  apply (He 1%nat v); [left; reflexivity|exact Hv].
Defined.

Lemma C9_mirror_symmetry_witness :
  exists vl vr,
    hand_joint_set_default
      (out_set (optimize_new_frame sample_umeyama sample_statics linear
                  sample_hidden_thumb 1 16 2 32 0 1 2
                  (FrameMemory [XrtVec3 1 2 3] rest_hand (out_set sample_frame)) 0))
      !! 1%nat = Some vl /\
    hand_joint_set_default
      (out_set (optimize_new_frame sample_umeyama sample_statics linear
                  sample_hidden_thumb 1 16 2 32 0 1 2
                  (FrameMemory (mirror_x <$> [XrtVec3 1 2 3]) rest_hand
                               (out_set sample_frame)) 1))
      !! 1%nat = Some vr /\
    joint_position vr = mirror_x (joint_position vl).
Proof.
  destruct (lookup_lt_is_Some_2
              (hand_joint_set_default
                 (out_set (optimize_new_frame sample_umeyama sample_statics linear
                             sample_hidden_thumb 1 16 2 32 0 1 2
                             (FrameMemory [XrtVec3 1 2 3] rest_hand
                                          (out_set sample_frame)) 0)))
              1%nat) as [vl Hl].
  { rewrite solve_length. simpl. lia. }
  destruct (lookup_lt_is_Some_2
              (hand_joint_set_default
                 (out_set (optimize_new_frame sample_umeyama sample_statics linear
                             sample_hidden_thumb 1 16 2 32 0 1 2
                             (FrameMemory (mirror_x <$> [XrtVec3 1 2 3]) rest_hand
                                          (out_set sample_frame)) 1)))
              1%nat) as [vr Hr].
  { rewrite solve_length. simpl. lia. }
  exists vl, vr. split; [exact Hl|]. split; [exact Hr|].
  destruct (C9_mirror_symmetry sample_umeyama sample_statics linear
              sample_hidden_thumb 1 16 2 32 0 1 2
              [XrtVec3 1 2 3] rest_hand (out_set sample_frame))
    as (_ & _ & He).
  apply (He 1%nat vl vr); [left; reflexivity|exact Hl|exact Hr].
Defined.
(* ================================================================== *)
(** * Further properties *)

(** ** The whole of [optimize] *)

Lemma iterations_run_calls {H : Type} (ops : kine_ops H) (n : nat) (hand : H) :
  Nat.iter n (optimize_iteration ops) hand
  = run_calls ops (concat (replicate n iteration_calls)) hand.
Proof.
  revert hand. induction n as [|n IH]; intros hand; [reflexivity|].
  rewrite Nat.iter_succ_r, IH.
  change (concat (replicate (S n) iteration_calls))
    with (iteration_calls ++ concat (replicate n iteration_calls)).
  now rewrite run_calls_app.
Qed.

Lemma optimize_run_calls {H : Type} (ops : kine_ops H) (hand : H) :
  optimize ops hand = run_calls ops optimize_calls hand.
Proof.
  unfold optimize, optimize_calls. rewrite run_calls_app, iterations_run_calls.
  reflexivity.
Qed.

Lemma optimize_trace : optimize trace_ops [] = optimize_calls.
Proof. rewrite optimize_run_calls. apply run_calls_trace. Qed.

Lemma in_concat_replicate {A : Type} (n : nat) (l : list A) (a : A) :
  In a (concat (replicate n l)) -> In a l.
Proof.
  induction n as [|n IH]; simpl; [tauto|].
  rewrite in_app_iff. tauto.
Qed.

Lemma iteration_calls_targets (c : call) (f b : nat) :
  In c iteration_calls -> call_target c = Some (f, b) ->
  (f < 5 /\ b < 4 /\ (f = 0 -> 1 <= b))%nat.
Proof.
  unfold iteration_calls, thumb_calls, finger_calls. simpl app.
  intros Hin Ht.
  repeat (destruct Hin as [<-|Hin];
          [simpl in Ht; try discriminate; injection Ht as <- <-; lia|]).
  destruct Hin.
Qed.

Lemma sum_children_count (hand : kinematic_hand_4f) (of_ : finger_t) (bone_idx : nat) :
  fst (fst (sum_children hand of_ bone_idx)) = (5 - (bone_idx + 1))%nat.
Proof.
  unfold sum_children.
  assert (forall l n t k,
             fst (fst (fold_left
               (fun acc idx =>
                  let '(num_children, target, kine) := acc in
                  (S num_children,
                   vadd target (map_vec3 (t_jts hand !!! keypoint_idx_21 (bones of_ !!! idx))),
                   vadd kine (translation (world_pose (bones of_ !!! idx)))))
               l (n, t, k)))
             = (n + length l)%nat) as Hgen.
  { induction l as [|a l IH]; intros n t k; simpl; [lia|]. rewrite IH. lia. }
  rewrite Hgen, length_seq. lia.
Qed.

(** X1: every per-bone call of [optimize] stays within the arrays of the
    hand and has a chain below its bone.  Whatever the hand, each call of
    the estimator or of a limiter in a run of [optimize] is on a finger
    below 5 and a bone from 0 to 3, from 1 to 3 on the thumb, whose
    bone 0 is never touched; so the estimator always averages over at
    least one more distal bone, [num_children] being [4 - bone_idx], and
    its division by [num_children] is never a division by zero. *)
Theorem X1_optimize_calls_in_bounds :
  forall (c : call) (f b : nat),
    In c (optimize trace_ops []) -> call_target c = Some (f, b) ->
    (f < 5 /\ b < 4 /\ (f = 0 -> 1 <= b))%nat /\
    forall hand : kinematic_hand_4f,
      num_children hand f b = (4 - b)%nat /\ (1 <= num_children hand f b)%nat.
Proof.
  intros c f b Hin Ht. rewrite optimize_trace in Hin.
  assert (f < 5 /\ b < 4 /\ (f = 0 -> 1 <= b))%nat as Hb.
  { unfold optimize_calls in Hin. apply in_app_or in Hin.
    destruct Hin as [Hin|[<-|[]]]; [|discriminate].
    apply in_concat_replicate in Hin.
    exact (iteration_calls_targets c f b Hin Ht). }
  split; [exact Hb|].
  intros hand. unfold num_children. rewrite sum_children_count. lia.
Qed.

Lemma X1_optimize_calls_in_bounds_witness :
  (3 < 5 /\ 2 < 4 /\ (3 = 0 -> 1 <= 2))%nat /\
  num_children rest_hand 3 2 = 2%nat.
Proof.
  destruct (X1_optimize_calls_in_bounds
              (Call_clamp_to_x_axis 3 2 true (rad (-90)) (rad 10)) 3 2) as [Hb Hn].
  - rewrite optimize_trace. unfold optimize_calls. apply in_or_app. left.
    change (concat (replicate 15 iteration_calls))
      with (iteration_calls ++ concat (replicate 14 iteration_calls)).
    apply in_or_app. left.
    unfold iteration_calls. do 5 (apply in_or_app; right).
    apply in_or_app. left. unfold finger_calls. simpl. tauto.
  - reflexivity.
  - split; [exact Hb|]. apply (Hn rest_hand).
Defined.

Lemma blocks_head (bs : list (list call)) (c : call) (f b : nat) :
  Forall is_block bs -> concat bs !! 0%nat = Some c -> ~ is_limiter_on f b c.
Proof.
  intros Hbs. destruct Hbs as [|blk bs Hblk _]; simpl; [discriminate|].
  destruct Hblk as [->|(f' & b' & flag & c' & _ & ->)]; simpl;
    intros [= <-] (kind & fl & Hl); discriminate.
Qed.

Lemma blocks_enclosed (bs : list (list call)) :
  Forall is_block bs -> limiters_enclosed (concat bs).
Proof.
  induction 1 as [|blk bs Hblk Hbs [IH1 IH2]].
  - split; simpl; intros; discriminate.
  - pose proof (blocks_head bs) as Hhead.
    destruct Hblk as [->|(f' & b' & flag' & c' & Hlim & ->)]; simpl; split.
    + intros [|i] c f b Hc Hl.
      * exfalso. exact (Hhead c f b Hbs Hc Hl).
      * exact (IH1 i c f b Hc Hl).
    + intros [|i] f b flag Hc; [discriminate|]. exact (IH2 i f b flag Hc).
    + intros [|[|[|i]]] c f b Hc Hl.
      * injection Hc as <-. destruct Hlim as (k1 & f1 & E1), Hl as (k2 & f2 & E2).
        rewrite E1 in E2. injection E2 as <- <- _ _.
        split; [eexists; reflexivity|reflexivity].
      * injection Hc as <-. destruct Hl as (k & fl & E). discriminate.
      * exfalso. exact (Hhead c f b Hbs Hc Hl).
      * exact (IH1 i c f b Hc Hl).
    + intros [|[|[|i]]] f b flag Hc.
      * injection Hc as <- <- <-. exists c'. split; [reflexivity|exact Hlim].
      * injection Hc as ->. destruct Hlim as (k & fl & E). discriminate.
      * discriminate.
      * exact (IH2 i f b flag Hc).
Qed.

Ltac solve_block :=
  first [ left; reflexivity
        | right; do 3 eexists; eexists;
          (split; [|reflexivity]); do 2 eexists; reflexivity ].

Lemma finger_calls_blocks (finger_idx : nat) :
  exists bs, finger_calls finger_idx = concat bs /\ Forall is_block bs.
Proof.
  exists [ firstn 3 (finger_calls finger_idx);
           firstn 3 (skipn 3 (finger_calls finger_idx));
           firstn 3 (skipn 6 (finger_calls finger_idx));
           skipn 9 (finger_calls finger_idx) ].
  split; [reflexivity|].
  repeat (apply List.Forall_cons; [solve_block|]). apply List.Forall_nil.
Qed.

Lemma iteration_calls_blocks :
  exists bs, iteration_calls = concat bs /\ Forall is_block bs.
Proof.
  destruct (finger_calls_blocks 1) as (b1 & E1 & H1).
  destruct (finger_calls_blocks 2) as (b2 & E2 & H2).
  destruct (finger_calls_blocks 3) as (b3 & E3 & H3).
  destruct (finger_calls_blocks 4) as (b4 & E4 & H4).
  exists ([[Call_two]; firstn 3 thumb_calls; firstn 3 (skipn 3 thumb_calls);
           skipn 6 thumb_calls; [Call_two]] ++ b1 ++ b2 ++ b3 ++ b4).
  split.
  - unfold iteration_calls. rewrite E1, E2, E3, E4.
    rewrite !concat_app. reflexivity.
  - repeat apply Forall_app_2; try assumption.
    repeat (apply List.Forall_cons; [solve_block|]). apply List.Forall_nil.
Qed.

Lemma optimize_calls_blocks :
  exists bs, optimize_calls = concat bs /\ Forall is_block bs.
Proof.
  destruct iteration_calls_blocks as (bi & Ei & Hi).
  exists (concat (replicate 15 bi) ++ [[Call_two]]). split.
  - unfold optimize_calls. rewrite concat_app. f_equal. rewrite Ei.
    generalize 15%nat. induction n as [|n IH]; [reflexivity|].
    simpl replicate. simpl concat. rewrite concat_app. now rewrite IH.
  - apply Forall_app_2.
    + generalize 15%nat. induction n as [|n IH]; [constructor|].
      simpl. apply Forall_app_2; assumption.
    + apply List.Forall_cons; [solve_block|apply List.Forall_nil].
Qed.

(** X2: in a run of [optimize] no estimate goes unlimited and no limit
    goes unpropagated.  Every limiter call stands right after the
    estimator on the same bone and right before the forward-kinematics
    recompute, and every estimator call is followed at once by a limiter
    on its bone; this holds for the thumb as for the fingers, over all
    fifteen passes.  The run starts and ends with the rigid alignment. *)
Theorem X2_optimize_limiters_enclosed :
  limiters_enclosed (optimize trace_ops []) /\
  head (optimize trace_ops []) = Some Call_two /\
  last (optimize trace_ops []) = Some Call_two.
Proof.
  rewrite optimize_trace. split; [|split].
  - destruct optimize_calls_blocks as (bs & -> & Hbs).
    apply blocks_enclosed. exact Hbs.
  - reflexivity.
  - unfold optimize_calls. apply last_snoc.
Qed.

(** ** The per-bone steps: what they leave alone *)

Lemma get_bone_set_bone (hand : kinematic_hand_4f) (f b : nat) (x : bone_t) :
  hand_wf hand -> (f < 5)%nat -> (b < 5)%nat ->
  get_bone (set_bone hand f b x) f b = x.
Proof.
  intros Hwf Hf Hb.
  destruct (hand_wf_bone_slot hand f b Hwf Hf Hb) as [Hf' Hb'].
  unfold set_bone, get_bone. simpl.
  rewrite list_lookup_total_alter_eq by exact Hf'. simpl.
  now rewrite list_lookup_total_insert_eq.
Qed.

Lemma get_bone_set_bone_other (hand : kinematic_hand_4f) (f b f' b' : nat) (x : bone_t) :
  (f', b') <> (f, b) ->
  get_bone (set_bone hand f b x) f' b' = get_bone hand f' b'.
Proof.
  intros Hne. unfold set_bone, get_bone. simpl.
  destruct (decide (f' = f)) as [->|Hf].
  - assert (b' <> b) as Hb by congruence.
    rewrite list_lookup_total_alter.
    destruct (decide (f = f /\ (f < length (fingers hand))%nat)) as [_|_];
      [|reflexivity].
    simpl. now rewrite list_lookup_total_insert_ne.
  - now rewrite list_lookup_total_alter_ne.
Qed.

Lemma set_bone_linear_frame (hand : kinematic_hand_4f) (f b : nat) (m : Matrix3f) :
  hand_wf hand -> (f < 5)%nat -> (b < 5)%nat ->
  only_bone_linear_differs hand (set_bone_linear hand f b m) f b.
Proof.
  intros Hwf Hf Hb. unfold only_bone_linear_differs, set_bone_linear.
  rewrite (get_bone_set_bone hand f b _ Hwf Hf Hb). simpl.
  repeat (split; [reflexivity|]).
  split; [|repeat split].
  intros f' b' Hne. now apply get_bone_set_bone_other.
Qed.

(** X3: the estimator and the two limiters write the local rotation of
    their bone and nothing else.  On a well-formed hand, after
    [do_it_for_bone], [clamp_to_x_axis] or [clamp_proximals] on the bone
    [(f, b)], the wrist, the target points, every other bone, and the
    translation, the keypoint and the world pose of the bone itself are
    as before: the world poses are stale until the next forward-kinematics
    recompute.  The hand stays well-formed. *)
Theorem X3_steps_write_one_rotation :
  forall (hand : kinematic_hand_4f) (f b : nat),
    hand_wf hand -> (f < 5)%nat -> (b < 5)%nat ->
    (forall flag,
        let hand' := do_it_for_bone hand f b flag in
        only_bone_linear_differs hand hand' f b /\ hand_wf hand') /\
    (forall clamp_angle min_angle max_angle,
        let hand' := clamp_to_x_axis hand f b clamp_angle min_angle max_angle in
        only_bone_linear_differs hand hand' f b /\ hand_wf hand') /\
    (forall max_swing_angle tl tr tc tu,
        let hand' := clamp_proximals hand f b max_swing_angle tl tr tc tu in
        only_bone_linear_differs hand hand' f b /\ hand_wf hand').
Proof.
  intros hand f b Hwf Hf Hb.
  split; [|split]; intros; subst hand';
    (split; [apply set_bone_linear_frame; assumption
            |apply set_bone_linear_wf; assumption]).
Qed.

Lemma X3_steps_write_one_rotation_witness :
  world_pose (get_bone (do_it_for_bone estimator_hand 1 3 true) 1 3)
  = world_pose (get_bone estimator_hand 1 3) /\
  get_bone (clamp_proximals swing_hand 1 1 (rad 4) (-1) 1 (-1) 1) 1 2
  = get_bone swing_hand 1 2.
Proof.
  split.
  - destruct (X3_steps_write_one_rotation estimator_hand 1 3 estimator_hand_wf
                ltac:(lia) ltac:(lia)) as (H & _ & _).
    destruct (H true) as [(_ & _ & _ & _ & _ & _ & Hw & _) _]. exact Hw.
  - destruct (X3_steps_write_one_rotation swing_hand 1 1 swing_hand_wf
                ltac:(lia) ltac:(lia)) as (_ & _ & H).
    destruct (H (rad 4) (-1) 1 (-1) 1) as [(_ & _ & _ & _ & Ho & _) _].
    apply Ho. intros E. discriminate E.
Defined.

(** ** The per-bone steps: rotations stay rotations *)

Lemma squaredNorm_zero (v : Vector3f) : squaredNorm v <= 0 -> v = Zero.
Proof.
  destruct v as [a b c]. unfold squaredNorm, dot, Zero. simpl. intros H.
  pose proof (Rle_0_sqr a) as Ha. pose proof (Rle_0_sqr b) as Hb.
  pose proof (Rle_0_sqr c) as Hc. unfold Rsqr in *.
  assert (a * a = 0) as Ea by lra. assert (b * b = 0) as Eb by lra.
  assert (c * c = 0) as Ec by lra.
  apply Rsqr_0_uniq in Ea, Eb, Ec. now subst.
Qed.

Lemma normalized_Zero : normalized Zero = Zero.
Proof.
  unfold normalized.
  destruct (Rlt_dec 0 (squaredNorm Zero)) as [H|_]; [|reflexivity].
  unfold squaredNorm, dot, Zero in H. simpl in H. lra.
Qed.

(** [normalized] yields a unit vector, or the zero vector it was handed. *)
Lemma normalized_unit_or_zero (v : Vector3f) :
  squaredNorm (normalized v) = 1 \/ (v = Zero /\ normalized v = Zero).
Proof.
  destruct (Rlt_dec 0 (squaredNorm v)) as [H|H].
  - left. now apply normalized_squaredNorm.
  - right. assert (v = Zero) as -> by (apply squaredNorm_zero; lra).
    split; [reflexivity|apply normalized_Zero].
Qed.

(** With a zero vector on either side, [setFromTwoVectors] builds the
    quaternion [(sqrt 2 / 2, 0, 0, 0)], whose matrix is the identity. *)
Lemma setFromTwoVectors_degenerate (a b : Vector3f) :
  a = Zero \/ b = Zero -> toRotationMatrix (setFromTwoVectors a b) = Identity.
Proof.
  intros H. unfold setFromTwoVectors.
  assert (dot (normalized b) (normalized a) = 0 /\
          cross (normalized a) (normalized b) = Zero) as [Hd Hc].
  { destruct H as [->| ->]; rewrite normalized_Zero;
      unfold dot, cross, Zero; simpl; split; try ring; f_equal; ring. }
  rewrite Hd, Hc.
  destruct (Rle_dec 0 (-1)) as [Hle|_]; [lra|].
  unfold toRotationMatrix, Identity, Zero. simpl. f_equal; ring.
Qed.

Lemma is_rotation_Identity : is_rotation Identity.
Proof.
  split.
  - unfold mmul, transpose, Identity. simpl. f_equal; ring.
  - unfold determinant, Identity. simpl. ring.
Qed.

Lemma bone_correction_is_rotation (hand : kinematic_hand_4f) (f b : nat) :
  is_rotation (bone_correction hand f b).
Proof.
  unfold bone_correction, bone_directions.
  destruct (sum_children hand (fingers hand !!! f) b) as [[n t] k].
  set (kine := aff_apply _ (vscale _ k)). set (target := aff_apply _ (vscale _ t)).
  destruct (normalized_unit_or_zero kine) as [Hk|[_ Hk]];
    destruct (normalized_unit_or_zero target) as [Ht|[_ Ht]].
  - now apply setFromTwoVectors_is_rotation.
  - rewrite setFromTwoVectors_degenerate by (now right). apply is_rotation_Identity.
  - rewrite setFromTwoVectors_degenerate by (now left). apply is_rotation_Identity.
  - rewrite setFromTwoVectors_degenerate by (now left). apply is_rotation_Identity.
Qed.

Lemma clamp_to_x_axis_linear_is_rotation (m : Matrix3f) (clamp_angle : bool)
    (min_angle max_angle : R) :
  is_rotation m -> is_rotation (clamp_to_x_axis_linear m clamp_angle min_angle max_angle).
Proof.
  intros Hm. unfold clamp_to_x_axis_linear.
  destruct (hinge_correct_fixes_x m Hm) as [Hr _].
  assert (forall a, is_rotation (aa_toRotationMatrix (AngleAxis a (axes hinge_axis)))) as Ha.
  { intros a. apply aa_toRotationMatrix_is_rotation.
    unfold squaredNorm, dot. simpl. ring. }
  destruct clamp_angle; simpl negb; cbv iota; [|exact Hr].
  cbv zeta.
  destruct (Rlt_dec _ _); [destruct (Rlt_dec _ _)|]; auto.
Qed.

(** The axis Eigen reads off a quaternion or a matrix is a unit vector,
    whatever the quaternion. *)
Lemma angleaxis_of_quaternion_axis_unit (q : Quaternionf) :
  squaredNorm (axis (angleaxis_of_quaternion q)) = 1.
Proof.
  unfold angleaxis_of_quaternion, norm.
  destruct (Req_dec_T (sqrt (squaredNorm (qvec q))) 0) as [Hz|Hz]; simpl.
  - unfold squaredNorm, dot, UnitX. simpl. ring.
  - pose proof (squaredNorm_nonneg (qvec q)) as Hn.
    assert (sqrt (squaredNorm (qvec q)) * sqrt (squaredNorm (qvec q))
            = squaredNorm (qvec q)) as Hs by (now apply sqrt_sqrt).
    set (n := sqrt (squaredNorm (qvec q))) in *.
    set (n' := if Rlt_dec (qw q) 0 then - n else n).
    assert (n' * n' = squaredNorm (qvec q) /\ n' <> 0) as [Hn' Hnz].
    { unfold n'. destruct (Rlt_dec (qw q) 0); split; lra. }
    destruct (qvec q) as [a b c]. unfold squaredNorm, dot, vscale in *.
    simpl in *.
    assert (/ n' * n' = 1) as Hi by (field; exact Hnz).
    generalize dependent (/ n'). intros i Hi. nsatz.
Qed.

Lemma scaled_forward_z (rot : Matrix3f) :
  tangent_divisor rot <> 0 -> vz (scaled_forward rot) = -1.
Proof.
  intros Hd. unfold scaled_forward. simpl.
  change (vz (forward_guard (swung_forward rot))) with (tangent_divisor rot).
  field. exact Hd.
Qed.

Lemma clamped_forward_squaredNorm (rot : Matrix3f) (tl tr tc tu : R) :
  tangent_divisor rot <> 0 -> 0 < squaredNorm (clamped_forward rot tl tr tc tu).
Proof.
  intros Hd. unfold clamped_forward, squaredNorm, dot. cbn [vx vy vz].
  rewrite (scaled_forward_z rot Hd).
  pose proof (Rle_0_sqr (clamp (vx (scaled_forward rot)) tl tr)) as H1.
  pose proof (Rle_0_sqr (clamp (vy (scaled_forward rot)) tc tu)) as H2.
  unfold Rsqr in *. lra.
Qed.

Lemma clamp_twist_axis (aa : AngleAxisf) (max_swing_angle : R) :
  axis (clamp_twist aa max_swing_angle) = axis aa.
Proof. unfold clamp_twist. destruct (Rlt_dec _ _); reflexivity. Qed.

Lemma clamp_proximals_linear_is_rotation (rot : Matrix3f)
    (max_swing_angle tl tr tc tu : R) :
  tangent_divisor rot <> 0 ->
  is_rotation (clamp_proximals_linear rot max_swing_angle tl tr tc tu).
Proof.
  intros Hd. unfold clamp_proximals_linear. cbv zeta.
  apply is_rotation_mmul.
  - apply aa_toRotationMatrix_is_rotation. rewrite clamp_twist_axis.
    apply angleaxis_of_quaternion_axis_unit.
  - apply swing_of_is_rotation, normalized_squaredNorm.
    now apply clamped_forward_squaredNorm.
Qed.

(** X4: the three per-bone steps keep the local rotation of their bone a
    rotation, orthonormal and of determinant one.  The estimator does so
    on every bone with a chain below it, degenerate directions included;
    the hinge clamp does so with its angle range on or off; the
    swing-twist clamp does so whenever the forward component it divides
    by is not zero. *)
Theorem X4_steps_keep_rotations :
  forall (hand : kinematic_hand_4f) (f b : nat),
    hand_wf hand -> (f < 5)%nat -> (b < 4)%nat ->
    (is_rotation (bone_linear hand f b) ->
     forall flag, is_rotation (bone_linear (do_it_for_bone hand f b flag) f b)) /\
    (is_rotation (bone_linear hand f b) ->
     forall clamp_angle min_angle max_angle,
       is_rotation (bone_linear
                      (clamp_to_x_axis hand f b clamp_angle min_angle max_angle) f b)) /\
    (is_rotation (bone_linear hand f b) ->
     tangent_divisor (bone_linear hand f b) <> 0 ->
     forall max_swing_angle tl tr tc tu,
       is_rotation (bone_linear
                      (clamp_proximals hand f b max_swing_angle tl tr tc tu) f b)).
Proof.
  intros hand f b Hwf Hf Hb.
  assert (b < 5)%nat as Hb' by lia.
  split; [|split].
  - intros Hr flag. unfold do_it_for_bone.
    rewrite (bone_linear_set_bone_linear hand f b _ Hwf Hf Hb').
    apply is_rotation_mmul; [exact Hr|apply bone_correction_is_rotation].
  - intros Hr ca lo hi. unfold clamp_to_x_axis.
    rewrite (bone_linear_set_bone_linear hand f b _ Hwf Hf Hb').
    now apply clamp_to_x_axis_linear_is_rotation.
  - intros _ Hd th tl tr tc tu. unfold clamp_proximals.
    rewrite (bone_linear_set_bone_linear hand f b _ Hwf Hf Hb').
    now apply clamp_proximals_linear_is_rotation.
Qed.

Lemma X4_steps_keep_rotations_witness :
  is_rotation (bone_linear (do_it_for_bone swing_hand 1 1 true) 1 1) /\
  is_rotation (bone_linear (clamp_to_x_axis swing_hand 1 1 true (rad (-90)) (rad 10)) 1 1) /\
  is_rotation (bone_linear (clamp_proximals swing_hand 1 1 (rad 4) (-1) 1 (-1) 1) 1 1).
Proof.
  destruct (X4_steps_keep_rotations swing_hand 1 1 swing_hand_wf
              ltac:(lia) ltac:(lia)) as (H1 & H2 & H3).
  assert (is_rotation (bone_linear swing_hand 1 1)) as Hr
    by (rewrite swing_hand_bone; exact swing_rot_is_rotation).
  split; [|split].
  - apply H1. exact Hr.
  - apply H2. exact Hr.
  - apply H3; [exact Hr|]. rewrite swing_hand_bone. unfold tangent_divisor.
    rewrite swing_rot_forward. unfold forward_guard. simpl.
    destruct (Rlt_dec 0 (-1 / 3)); simpl; lra.
Defined.

(** ** The estimator on a degenerate direction *)

Lemma set_bone_linear_same (hand : kinematic_hand_4f) (f b : nat) :
  hand_wf hand -> (f < 5)%nat -> (b < 5)%nat ->
  set_bone_linear hand f b (bone_linear hand f b) = hand.
Proof.
  intros Hwf Hf Hb.
  destruct (hand_wf_bone_slot hand f b Hwf Hf Hb) as [Hf' Hb'].
  unfold set_bone_linear, set_bone, bone_linear, get_bone.
  destruct hand as [w fs t tm k]. simpl in *. f_equal.
  apply list_eq. intros j. rewrite list_lookup_alter.
  destruct (decide (f = j)) as [<-|_]; [|reflexivity].
  rewrite (list_lookup_lookup_total_lt fs f Hf'). simpl. f_equal.
  destruct (fs !!! f) as [bs]. simpl in *. f_equal.
  apply list_insert_id.
  rewrite (list_lookup_lookup_total_lt bs b Hb'). f_equal.
  destruct (bs !!! b) as [[l tr] wp kp]. reflexivity.
Qed.

Lemma rest_hand_directions : bone_directions rest_hand 1 2 = (Zero, Zero).
Proof.
  unfold bone_directions, sum_children, get_bone, rest_hand. cbn.
  assert (aff_apply (aff_inverse aff_Identity)
            (vscale (1 / (1 + 1)) (vadd (vadd Zero Zero) Zero)) = Zero) as E.
  { unfold aff_apply, aff_inverse, aff_Identity, inverse, determinant, Identity,
      mulv, vadd, vscale, vneg, Zero. simpl. f_equal; field. }
  change (map_vec3 (XrtVec3 0 0 0)) with Zero.
  rewrite E. now rewrite normalized_Zero.
Qed.

(** X5: a degenerate direction leaves the bone as it is.  When the
    centroid of the more distal bones, or the centroid of their target
    points, sits exactly at the origin of the bone, its normalized
    direction is the zero vector; [setFromTwoVectors] then yields the
    identity, and [do_it_for_bone] returns the hand unchanged. *)
Theorem X5_estimator_degenerate_direction :
  forall (hand : kinematic_hand_4f) (f b : nat) (flag : bool),
    hand_wf hand -> (f < 5)%nat -> (b < 4)%nat ->
    fst (bone_directions hand f b) = Zero \/ snd (bone_directions hand f b) = Zero ->
    bone_correction hand f b = Identity /\
    do_it_for_bone hand f b flag = hand.
Proof.
  intros hand f b flag Hwf Hf Hb Hz.
  assert (bone_correction hand f b = Identity) as Hc.
  { unfold bone_correction.
    destruct (bone_directions hand f b) as [kine target]. simpl in Hz.
    now apply setFromTwoVectors_degenerate. }
  split; [exact Hc|].
  unfold do_it_for_bone. rewrite Hc, mmul_Identity_r.
  apply set_bone_linear_same; [assumption..|lia].
Qed.

Lemma X5_estimator_degenerate_direction_witness :
  do_it_for_bone rest_hand 1 2 true = rest_hand.
Proof.
  apply (X5_estimator_degenerate_direction rest_hand 1 2 true rest_hand_wf).
  - lia.
  - lia.
  - left. rewrite rest_hand_directions. reflexivity.
Defined.

(** ** The hinge clamp: its result *)

Lemma atan2_range (y x : R) : - PI < atan2 y x <= PI.
Proof.
  pose proof PI_RGT_0 as Hpi. pose proof (atan_bound (y / x)) as [Hlo Hhi].
  unfold atan2.
  destruct (Rlt_dec 0 x) as [Hx|Hx]; [lra|].
  destruct (Rlt_dec x 0) as [Hx'|Hx'].
  - assert (/ x < 0) as Hi by (now apply Rinv_lt_0_compat).
    destruct (Rle_dec 0 y) as [Hy|Hy].
    + assert (y / x <= 0) as Hq by (unfold Rdiv; nra).
      assert (atan (y / x) <= 0).
      { destruct Hq as [Hq|Hq]; [|rewrite Hq, atan_0; lra].
        apply atan_increasing in Hq. rewrite atan_0 in Hq. lra. }
      lra.
    + assert (0 < y / x) as Hq by (unfold Rdiv; nra).
      apply atan_increasing in Hq. rewrite atan_0 in Hq. lra.
  - destruct (Rlt_dec 0 y); [lra|]. destruct (Rlt_dec y 0); lra.
Qed.

(** On the unit circle the two-argument arctangent is the angle of the
    point. *)
Lemma cos_sin_atan2 (s c : R) :
  c * c + s * s = 1 -> cos (atan2 s c) = c /\ sin (atan2 s c) = s.
Proof.
  intros H. unfold atan2.
  assert (forall c, c <> 0 -> c * c + s * s = 1 ->
                    1 + (s / c)² = (/ c)²) as Hsq.
  { intros d Hd Hu. unfold Rsqr. field_simplify_eq; [|exact Hd]. lra. }
  destruct (Rlt_dec 0 c) as [Hc|Hc].
  - assert (0 < / c) as Hi by (now apply Rinv_0_lt_compat).
    rewrite cos_atan, sin_atan, Hsq by lra.
    rewrite sqrt_Rsqr by lra. split; field; lra.
  - destruct (Rlt_dec c 0) as [Hc'|Hc'].
    + assert (/ c < 0) as Hi by (now apply Rinv_lt_0_compat).
      assert (sqrt (1 + (s / c)²) = - / c) as Hs.
      { rewrite Hsq by lra. rewrite Rsqr_neg. apply sqrt_Rsqr. lra. }
      destruct (Rle_dec 0 s) as [Hy|Hy].
      * rewrite neg_cos, neg_sin, cos_atan, sin_atan, Hs. split; field; lra.
      * rewrite cos_minus, sin_minus, cos_PI, sin_PI, cos_atan, sin_atan, Hs.
        split; field; lra.
    + assert (c = 0) as -> by lra.
      assert (s * s = 1) as Hs1 by lra.
      destruct (Rlt_dec 0 s) as [Hs|Hs].
      * assert (s = 1) as -> by nra. rewrite cos_PI2, sin_PI2. split; reflexivity.
      * destruct (Rlt_dec s 0) as [Hs'|Hs'].
        -- assert (s = -1) as -> by nra.
           rewrite cos_neg, sin_neg, cos_PI2, sin_PI2. split; lra.
        -- exfalso. assert (s = 0) by lra. subst s. lra.
Qed.


Lemma hinge_choose_bound_cases (rv lo hi : R) :
  hinge_choose_bound rv lo hi = lo \/ hinge_choose_bound rv lo hi = hi.
Proof. unfold hinge_choose_bound. destruct (Rlt_dec _ _); auto. Qed.




(** ** The hinge clamp: applied twice, and the bound it picks *)



Lemma overbent_hand_wf : hand_wf overbent_hand.
Proof. apply set_bone_linear_wf, rest_hand_wf. Qed.

Lemma overbent_hand_bone : bone_linear overbent_hand 1 2 = rotation_about_x (rad (-175)).
Proof.
  unfold overbent_hand. now rewrite (bone_linear_set_bone_linear _ 1 2 _ rest_hand_wf) by lia.
Qed.



(** X8: at ranges like those of the source the bound picked is a nearest
    one.  When the range straddles zero and leans to the negative side
    ([-PI < min_angle <= 0 <= max_angle < PI], [min_angle + max_angle <= 0],
    which holds for -90..10 and for -90..40 degrees) and the measured
    angle is not strictly inside it, the hinge clamp sets the bone to the
    turn about X by a bound that is at least as close to the measured
    angle, around the circle, as the other bound. *)
Theorem X8_hinge_clamp_nearest_bound :
  forall (hand : kinematic_hand_4f) (f b : nat) (min_angle max_angle : R),
    hand_wf hand -> (f < 5)%nat -> (b < 5)%nat ->
    - PI < min_angle -> min_angle <= 0 -> 0 <= max_angle -> max_angle < PI ->
    min_angle + max_angle <= 0 ->
    let rv := hinge_rotation_value (hinge_correct (bone_linear hand f b)) in
    ~ min_angle < rv < max_angle ->
    exists bound,
      (bound = min_angle \/ bound = max_angle) /\
      bone_linear (clamp_to_x_axis hand f b true min_angle max_angle) f b
      = rotation_about_x bound /\
      angular_distance rv bound <= angular_distance rv min_angle /\
      angular_distance rv bound <= angular_distance rv max_angle.
Proof.
  intros hand f b lo hi Hwf Hf Hb Hlo Hneg Hpos Hhi Hsum rv Hout.
  exists (hinge_choose_bound rv lo hi).
  assert (- PI <= rv <= PI) as Hrv.
  { unfold rv, hinge_rotation_value.
    match goal with |- _ <= atan2 ?y ?x <= _ => pose proof (atan2_range y x) end.
    lra. }
  split; [apply hinge_choose_bound_cases|]. split.
  - unfold clamp_to_x_axis.
    rewrite (bone_linear_set_bone_linear hand f b _ Hwf Hf Hb).
    unfold clamp_to_x_axis_linear. simpl negb. cbv iota zeta. fold rv.
    destruct (Rlt_dec rv hi) as [H1|H1];
      [destruct (Rlt_dec lo rv) as [H2|H2]; [lra|]|]; reflexivity.
  - split; apply hinge_choose_bound_nearest; auto.
Qed.

Lemma X8_hinge_clamp_nearest_bound_witness :
  exists bound,
    (bound = rad (-90) \/ bound = rad 10) /\
    bone_linear (clamp_to_x_axis overbent_hand 1 2 true (rad (-90)) (rad 10)) 1 2
    = rotation_about_x bound /\
    angular_distance (rad (-175)) bound <= angular_distance (rad (-175)) (rad (-90)) /\
    angular_distance (rad (-175)) bound <= angular_distance (rad (-175)) (rad 10).
Proof.
  pose proof PI_RGT_0 as Hpi.
  assert (hinge_rotation_value (hinge_correct (bone_linear overbent_hand 1 2))
          = rad (-175)) as E.
  { rewrite overbent_hand_bone, hinge_correct_about_x.
    apply hinge_rotation_value_about_x. unfold rad. split; nra. }
  rewrite <- E.
  apply (X8_hinge_clamp_nearest_bound overbent_hand 1 2 (rad (-90)) (rad 10)
           overbent_hand_wf); try lia.
  - unfold rad. nra.
  - unfold rad. nra.
  - unfold rad. nra.
  - unfold rad. nra.
  - unfold rad. nra.
  - rewrite E. unfold rad. nra.
Defined.

(** ** The hinge clamp: the correction step *)







(** ** The hinge clamp: the bound chosen at the ranges of the source *)

Lemma iteration_calls_hinge_ranges (c : call) (f b : nat) (clamp_angle : bool)
    (lo hi : R) :
  In c iteration_calls -> c = Call_clamp_to_x_axis f b clamp_angle lo hi ->
  clamp_angle = true /\ lo = rad (-90) /\ (hi = rad 10 \/ hi = rad 40).
Proof.
  unfold iteration_calls, thumb_calls, finger_calls. simpl app.
  intros Hin ->.
  repeat (destruct Hin as [E|Hin];
          [try discriminate E; injection E as _ _ <- <- <-; auto|]).
  destruct Hin.
Qed.

(** At a range that leans to the negative side the comparison of the
    source and the comparison by the complementary wrapped value pick the
    same bound, for every angle the two-argument arctangent can
    return. *)
Lemma hinge_choose_bound_spec (rv lo hi : R) :
  - PI < rv <= PI -> lo + hi <= 0 ->
  hinge_choose_bound rv lo hi = spec_choose_bound rv lo hi.
Proof.
  intros Hrv Hsum. pose proof PI_RGT_0 as Hpi.
  unfold hinge_choose_bound, spec_choose_bound, positive_rotation_value,
    negative_rotation_value, complementary_wrapped_value.
  destruct (Rlt_dec rv 0) as [Hn|Hn]; cbv zeta;
    repeat (match goal with
            | |- context [Rlt_dec ?a ?b] => destruct (Rlt_dec a b)
            end); try reflexivity; lra.
Qed.

(** C3: the bound the hinge clamp sets.  Every [clamp_to_x_axis] call of
    a run of [optimize] has its angle range on, with the range of -90 to
    10 degrees or of -90 to 40 degrees.  At these ranges, whatever the
    hand and the bone, whenever the measured angle is not strictly inside
    the range, the bound the source's comparison picks is the one picked
    by comparing the angle through its complementary wrapped value; it
    is [min_angle] or [max_angle], and the one at least as close to the
    measured angle around the circle as the other; and the local
    rotation of the bone is set to exactly the turn by that bound about
    the locked axis, on which the clamp measures the bound itself. *)
Theorem C3_hinge_sets_nearest_bound :
  (forall (c : call) (f b : nat) (clamp_angle : bool) (lo hi : R),
      In c (optimize trace_ops []) ->
      c = Call_clamp_to_x_axis f b clamp_angle lo hi ->
      clamp_angle = true /\ lo = rad (-90) /\ (hi = rad 10 \/ hi = rad 40)) /\
  (forall (hand : kinematic_hand_4f) (finger_idx bone_idx : nat) (max_angle : R),
      hand_wf hand -> (finger_idx < 5)%nat -> (bone_idx < 5)%nat ->
      max_angle = rad 10 \/ max_angle = rad 40 ->
      let min_angle := rad (-90) in
      let rv := hinge_rotation_value
                  (hinge_correct (bone_linear hand finger_idx bone_idx)) in
      let result :=
        bone_linear (clamp_to_x_axis hand finger_idx bone_idx true min_angle max_angle)
                    finger_idx bone_idx in
      ~ min_angle < rv < max_angle ->
      let bound := spec_choose_bound rv min_angle max_angle in
      (bound = min_angle \/ bound = max_angle) /\
      hinge_choose_bound rv min_angle max_angle = bound /\
      angular_distance rv bound <= angular_distance rv min_angle /\
      angular_distance rv bound <= angular_distance rv max_angle /\
      result = rotation_about_x bound /\
      hinge_rotation_value result = bound).
Proof.
  split.
  - intros c f b ca lo hi Hin Hc. rewrite optimize_trace in Hin.
    unfold optimize_calls in Hin. apply in_app_or in Hin.
    destruct Hin as [Hin|[<-|[]]]; [|discriminate].
    apply in_concat_replicate in Hin.
    exact (iteration_calls_hinge_ranges c f b ca lo hi Hin Hc).
  - intros hand f b hi Hwf Hf Hb Hhi lo rv result Hout bound.
    pose proof PI_RGT_0 as Hpi.
    assert (- PI < lo /\ lo <= 0 /\ 0 <= hi /\ hi < PI /\ lo + hi <= 0)
      as (Hlo & Hneg & Hpos & Hhi' & Hsum).
    { unfold lo. destruct Hhi as [-> | ->]; unfold rad; repeat split; nra. }
    assert (- PI < rv <= PI) as Hrv.
    { unfold rv, hinge_rotation_value. apply atan2_range. }
    assert (hinge_choose_bound rv lo hi = bound) as Hsame
      by (now apply hinge_choose_bound_spec).
    assert (bound = lo \/ bound = hi) as Hcase
      by (rewrite <- Hsame; apply hinge_choose_bound_cases).
    assert (result = rotation_about_x bound) as Hres.
    { rewrite <- Hsame. unfold result, clamp_to_x_axis.
      rewrite (bone_linear_set_bone_linear hand f b _ Hwf Hf Hb).
      unfold clamp_to_x_axis_linear. simpl negb. cbv iota zeta. fold rv.
      destruct (Rlt_dec rv hi) as [H1|H1];
        [destruct (Rlt_dec lo rv) as [H2|H2]; [lra|]|]; reflexivity. }
    split; [exact Hcase|]. split; [exact Hsame|].
    split; [rewrite <- Hsame; apply hinge_choose_bound_nearest; auto; lra|].
    split; [rewrite <- Hsame; apply hinge_choose_bound_nearest; auto; lra|].
    split; [exact Hres|].
    rewrite Hres. apply hinge_rotation_value_about_x.
    destruct Hcase as [-> | ->]; lra.
Qed.

Lemma C3_hinge_sets_nearest_bound_witness :
  hinge_rotation_value (hinge_correct (bone_linear overbent_hand 1 2)) = rad (-175) /\
  bone_linear (clamp_to_x_axis overbent_hand 1 2 true (rad (-90)) (rad 10)) 1 2
  = rotation_about_x (spec_choose_bound (rad (-175)) (rad (-90)) (rad 10)) /\
  spec_choose_bound (rad (-175)) (rad (-90)) (rad 10) = rad (-90) /\
  angular_distance (rad (-175)) (spec_choose_bound (rad (-175)) (rad (-90)) (rad 10))
  <= angular_distance (rad (-175)) (rad 10).
Proof.
  pose proof PI_RGT_0 as Hpi.
  assert (hinge_rotation_value (hinge_correct (bone_linear overbent_hand 1 2))
          = rad (-175)) as E.
  { rewrite overbent_hand_bone, hinge_correct_about_x.
    apply hinge_rotation_value_about_x. unfold rad. split; nra. }
  destruct C3_hinge_sets_nearest_bound as [_ H].
  destruct (H overbent_hand 1%nat 2%nat (rad 10) overbent_hand_wf
              ltac:(lia) ltac:(lia) ltac:(now left))
    as (_ & _ & _ & Hd & Hr & _).
  - rewrite E. unfold rad. nra.
  - rewrite E in Hd, Hr.
    split; [exact E|]. split; [exact Hr|]. split; [|exact Hd].
    unfold spec_choose_bound, complementary_wrapped_value.
    destruct (Rlt_dec (rad (-175)) 0) as [_|n]; [|exfalso; apply n; unfold rad; nra].
    destruct (Rlt_dec _ _) as [_|n]; [reflexivity|].
    exfalso. apply n. unfold rad. nra.
Defined.

(** ** Matrix, quaternion, angle and axis: the round trips *)

(** The entries of a rotation: its rows are orthonormal as its columns
    are, and every entry is its own cofactor. *)
Lemma rotation_rows_cofactors (m : Matrix3f) :
  is_rotation m ->
  (m00 m * m00 m + m01 m * m01 m + m02 m * m02 m = 1 /\
   m10 m * m10 m + m11 m * m11 m + m12 m * m12 m = 1 /\
   m20 m * m20 m + m21 m * m21 m + m22 m * m22 m = 1 /\
   m00 m * m10 m + m01 m * m11 m + m02 m * m12 m = 0 /\
   m00 m * m20 m + m01 m * m21 m + m02 m * m22 m = 0 /\
   m10 m * m20 m + m11 m * m21 m + m12 m * m22 m = 0) /\
  (m00 m = m11 m * m22 m - m12 m * m21 m /\
   m01 m = m12 m * m20 m - m10 m * m22 m /\
   m02 m = m10 m * m21 m - m11 m * m20 m /\
   m10 m = m02 m * m21 m - m01 m * m22 m /\
   m11 m = m00 m * m22 m - m02 m * m20 m /\
   m12 m = m01 m * m20 m - m00 m * m21 m /\
   m20 m = m01 m * m12 m - m02 m * m11 m /\
   m21 m = m02 m * m10 m - m00 m * m12 m /\
   m22 m = m00 m * m11 m - m01 m * m10 m).
Proof.
  intros H. split.
  - destruct (is_rotation_transpose m H) as [Hm _].
    destruct m. unfold mmul, transpose, Identity in Hm. simpl in *.
    injection Hm as E00 E01 E02 E10 E11 E12 E20 E21 E22.
    repeat split; lra.
  - pose proof (inverse_rotation m H) as Hi. destruct H as [_ Hd].
    unfold inverse in Hi. rewrite Hd, Rinv_1 in Hi.
    destruct m. unfold transpose in Hi. simpl in *.
    injection Hi as E00 E01 E02 E10 E11 E12 E20 E21 E22.
    repeat split; lra.
Qed.

(** The quaternion read off a rotation matrix gives the matrix back. *)
Lemma quaternion_of_matrix_round_trip (m : Matrix3f) :
  is_rotation m -> toRotationMatrix (quaternion_of_matrix m) = m.
Proof.
  intros H. pose proof (rotation_trace_bounds m H) as [Hlo Hhi].
  unfold quaternion_of_matrix.
  destruct (Rlt_dec 0 (trace m)) as [Ht|Ht]; cbv zeta;
    [|destruct (Rlt_dec (m00 m) (m11 m)) as [H01|H01];
      [destruct (Rlt_dec (m11 m) (m22 m)) as [H12|H12]
      |destruct (Rlt_dec (m00 m) (m22 m)) as [H02|H02]]];
    match goal with
    | |- context [sqrt ?d] =>
        assert (1 <= d) as Hd by (unfold trace in *; lra);
        assert (sqrt d * sqrt d = d) as Hs by (apply sqrt_sqrt; lra);
        assert (0 < sqrt d) as Hp by (apply sqrt_lt_R0; lra);
        assert (1 / 2 * sqrt d = d * (1 / 2 / sqrt d)) as Hh
          by (rewrite <- Hs at 2; field; lra);
        assert (4 * (1 / 2 / sqrt d * (1 / 2 / sqrt d) * d) = 1) as Hq
          by (rewrite <- Hs at 3; field; lra);
        rewrite Hh; clear Hh;
        generalize dependent (1 / 2 / sqrt d); intros t2 Hq
    end;
    clear Hlo Hhi Hd Hp Hs;
    destruct (rotation_entries _ H) as (E0 & E1 & E2 & E3 & E4 & E5 & E6);
    destruct (rotation_rows_cofactors _ H)
      as ((R0 & R1 & R2 & R3 & R4 & R5)
          & (C0 & C1 & C2 & C3 & C4 & C5 & C6 & C7 & C8));
    clear H; destruct m;
    unfold determinant, trace, toRotationMatrix in *; simpl in *;
    f_equal; nsatz.
Qed.

(** The angle and axis read off a unit quaternion give the matrix of
    the quaternion. *)
Lemma angleaxis_of_quaternion_round_trip (q : Quaternionf) :
  unit_quaternion q ->
  aa_toRotationMatrix (angleaxis_of_quaternion q) = toRotationMatrix q.
Proof.
  intros Hu. unfold unit_quaternion in Hu.
  pose proof (squaredNorm_nonneg (qvec q)) as Hn.
  assert (squaredNorm (qvec q) = qx q * qx q + qy q * qy q + qz q * qz q) as Hv
    by reflexivity.
  unfold angleaxis_of_quaternion, norm.
  destruct (Req_dec_T (sqrt (squaredNorm (qvec q))) 0) as [Hz|Hz].
  - apply sqrt_eq_0 in Hz; [|exact Hn].
    assert (qvec q = Zero) as E by (apply squaredNorm_zero; lra).
    rewrite aa_toRotationMatrix_zero.
    destruct q as [w a b c]. unfold qvec, Zero in E. simpl in E.
    injection E as -> -> ->.
    unfold toRotationMatrix, Identity. simpl. f_equal; ring.
  - assert (sqrt (squaredNorm (qvec q)) * sqrt (squaredNorm (qvec q))
            = squaredNorm (qvec q)) as Hs by (now apply sqrt_sqrt).
    pose proof (sqrt_pos (squaredNorm (qvec q))) as Hp.
    set (n := sqrt (squaredNorm (qvec q))) in *.
    assert (Rabs (qw q) * Rabs (qw q) = qw q * qw q) as Habs.
    { unfold Rabs. destruct (Rcase_abs (qw q)); ring. }
    destruct (cos_sin_atan2 n (Rabs (qw q))) as [Hc Hsn]; [lra|].
    set (h := atan2 n (Rabs (qw q))) in *.
    set (n' := if Rlt_dec (qw q) 0 then - n else n).
    assert (n' <> 0 /\ n' * n' = n * n /\ n * Rabs (qw q) = n' * qw q)
      as (Hnz & Hn2 & Hnw).
    { unfold n', Rabs. destruct (Rlt_dec (qw q) 0); destruct (Rcase_abs (qw q));
        repeat split; try lra; try ring. }
    assert (cos (2 * h) = 2 * (qw q * qw q) - 1) as HC.
    { rewrite cos_2a_cos, Hc. lra. }
    assert (sin (2 * h) = 2 * (n' * qw q)) as HS.
    { rewrite sin_2a, Hsn, Hc. lra. }
    unfold aa_toRotationMatrix. cbn [angle axis]. rewrite HC, HS.
    assert (/ n' * n' = 1) as Hi by (field; exact Hnz).
    assert (n' * n' = qx q * qx q + qy q * qy q + qz q * qz q) as Hn3 by lra.
    clear Hc Hsn HC HS Hnw Hn2 Habs Hs Hp Hz Hn Hv. clearbody n'. clear h n.
    generalize dependent (/ n'). intros i Hi.
    destruct q as [w a b c]. unfold toRotationMatrix, vscale, qvec. simpl in *.
    f_equal; nsatz.
Qed.

(** The angle and axis read off a rotation matrix give the matrix back. *)
Lemma angleaxis_of_matrix_round_trip (m : Matrix3f) :
  is_rotation m -> aa_toRotationMatrix (angleaxis_of_matrix m) = m.
Proof.
  intros H. unfold angleaxis_of_matrix.
  rewrite angleaxis_of_quaternion_round_trip.
  - now apply quaternion_of_matrix_round_trip.
  - destruct (quaternion_of_rotation m H) as [Hv Hw].
    unfold unit_quaternion. unfold squaredNorm, dot, qvec in Hv. simpl in Hv. lra.
Qed.

(** ** The swing-twist clamp: the decomposition *)

Lemma forward_axis_unit : squaredNorm (vneg UnitZ) = 1.
Proof. unfold squaredNorm, dot, vneg, UnitZ. simpl. ring. Qed.

Lemma swung_forward_unit (rot : Matrix3f) :
  is_rotation rot -> squaredNorm (swung_forward rot) = 1.
Proof.
  intros H. unfold swung_forward.
  rewrite is_rotation_squaredNorm by exact H. apply forward_axis_unit.
Qed.

Lemma swing_of_forward (rot : Matrix3f) :
  is_rotation rot ->
  is_rotation (swing_of (swung_forward rot)) /\
  mulv (swing_of (swung_forward rot)) (vneg UnitZ) = swung_forward rot.
Proof.
  intros Hrot. pose proof (swung_forward_unit rot Hrot) as Hu. split.
  - now apply swing_of_is_rotation.
  - unfold swing_of. apply setFromTwoVectors_maps; [apply forward_axis_unit|exact Hu].
Qed.

Lemma twist_matrix_facts (rot : Matrix3f) :
  is_rotation rot ->
  is_rotation (twist_matrix rot) /\
  mulv (twist_matrix rot) (swung_forward rot) = swung_forward rot /\
  mmul (twist_matrix rot) (swing_of (swung_forward rot)) = rot.
Proof.
  intros Hrot. pose proof (swung_forward_unit rot Hrot) as Hu.
  destruct (swing_of_forward rot Hrot) as [HS HSf].
  rewrite (twist_matrix_unit rot Hu).
  set (simple := swing_of (swung_forward rot)) in *.
  assert (mulv (transpose simple) (swung_forward rot) = vneg UnitZ) as HSb.
  { rewrite <- HSf at 1. rewrite <- mulv_mmul. destruct HS as [-> _].
    unfold mulv, Identity, vneg, UnitZ. simpl. f_equal; ring. }
  split; [|split].
  - apply is_rotation_mmul; [exact Hrot|]. now apply is_rotation_transpose.
  - now rewrite mulv_mmul, HSb.
  - rewrite mmul_assoc. destruct HS as [-> _]. apply mmul_Identity_r.
Qed.

Lemma twist_of_round_trip (rot : Matrix3f) :
  is_rotation rot ->
  aa_toRotationMatrix (twist_of rot) = twist_matrix rot /\
  0 <= angle (twist_of rot) <= PI.
Proof.
  intros Hrot. destruct (twist_matrix_facts rot Hrot) as (HT & _). split.
  - unfold twist_of. now apply angleaxis_of_matrix_round_trip.
  - apply (angleaxis_of_quaternion_range (quaternion_of_matrix (twist_matrix rot))).
Qed.



(** ** The swing-twist clamp: the cone and the rotations it keeps *)

Lemma clamp_range (x lo hi : R) : lo <= hi -> lo <= clamp x lo hi <= hi.
Proof.
  intros H. unfold clamp, Rmin, Rmax.
  destruct (Rle_dec lo x); destruct (Rle_dec hi _); lra.
Qed.

(** The direction the clamped swing is built from: a unit vector that
    points forward, with both tangents within the limits. *)
Lemma normalized_clamped_forward_cone (rot : Matrix3f) (tl tr tc tu : R) :
  tangent_divisor rot <> 0 -> tl <= tr -> tc <= tu ->
  let d := normalized (clamped_forward rot tl tr tc tu) in
  squaredNorm d = 1 /\ vz d < 0 /\
  tl <= vx d / - vz d <= tr /\ tc <= vy d / - vz d <= tu.
Proof.
  intros Hd Hlr Hcu d.
  pose proof (clamped_forward_squaredNorm rot tl tr tc tu Hd) as Hpos.
  split; [now apply normalized_squaredNorm|].
  unfold d, normalized.
  destruct (Rlt_dec 0 (squaredNorm (clamped_forward rot tl tr tc tu))) as [_|n];
    [|contradiction].
  assert (0 < sqrt (squaredNorm (clamped_forward rot tl tr tc tu))) as Hs
    by (now apply sqrt_lt_R0).
  set (s := sqrt (squaredNorm (clamped_forward rot tl tr tc tu))) in *.
  assert (0 < / s) as Hi by (now apply Rinv_0_lt_compat).
  unfold clamped_forward. cbv zeta. unfold vscale. cbn [vx vy vz].
  rewrite (scaled_forward_z rot Hd).
  pose proof (clamp_range (vx (scaled_forward rot)) tl tr Hlr) as Hx.
  pose proof (clamp_range (vy (scaled_forward rot)) tc tu Hcu) as Hy.
  set (cx := clamp (vx (scaled_forward rot)) tl tr) in *.
  set (cy := clamp (vy (scaled_forward rot)) tc tu) in *.
  replace (/ s * cx / - (/ s * -1)) with cx by (field; lra).
  replace (/ s * cy / - (/ s * -1)) with cy by (field; lra).
  repeat split; lra.
Qed.

Lemma clamp_twist_zero (aa : AngleAxisf) :
  aa_toRotationMatrix (clamp_twist aa 0) = Identity.
Proof.
  unfold clamp_twist, fabs.
  destruct (Rlt_dec 0 (Rabs (angle aa))) as [H|H].
  - replace (0 * (angle aa / Rabs (angle aa))) with 0 by ring.
    apply aa_toRotationMatrix_zero.
  - assert (angle aa = 0) as E.
    { pose proof (Rabs_pos (angle aa)).
      destruct (Req_dec (angle aa) 0) as [E|E]; [exact E|].
      apply Rabs_pos_lt in E. lra. }
    destruct aa as [a ax]. simpl in E. subst a. apply aa_toRotationMatrix_zero.
Qed.

Lemma clamped_forward_kept (rot : Matrix3f) (tl tr tc tu : R) :
  squaredNorm (swung_forward rot) = 1 -> vz (swung_forward rot) < 0 ->
  tl <= vx (scaled_forward rot) <= tr ->
  tc <= vy (scaled_forward rot) <= tu ->
  normalized (clamped_forward rot tl tr tc tu) = swung_forward rot.
Proof.
  intros Hu Hz Hx Hy. unfold clamped_forward. cbv zeta.
  rewrite (clamp_inside_range _ _ _ Hx), (clamp_inside_range _ _ _ Hy).
  replace (Vec3 (vx (scaled_forward rot)) (vy (scaled_forward rot))
                (vz (scaled_forward rot)))
    with (scaled_forward rot) by (destruct (scaled_forward rot); reflexivity).
  unfold scaled_forward, tangent_divisor, forward_guard.
  destruct (Rlt_dec 0 (vz (swung_forward rot))) as [Hc|_]; [lra|].
  apply normalized_vscale; [|exact Hu].
  apply Rdiv_neg_neg; lra.
Qed.

(** X10: the swing clamp brings the forward axis into the cone.  On a
    bone whose local rotation is a rotation, when the forward component
    divided by is not zero and the limits are ordered, the swing factor of the result takes the forward axis [-Z]
    to a unit direction that points forward ([z < 0]) with its
    left-right tangent [x / -z] and its curl tangent [y / -z] within
    the limits; with [max_swing_angle = 0], the default of the
    parameter, the twist factor is the identity and this direction is
    the forward axis of the bone itself. *)
Theorem X10_swing_clamp_cone :
  forall (hand : kinematic_hand_4f) (f b : nat) (tl tr tc tu : R),
    hand_wf hand -> (f < 5)%nat -> (b < 5)%nat ->
    is_rotation (bone_linear hand f b) ->
    tangent_divisor (bone_linear hand f b) <> 0 -> tl <= tr -> tc <= tu ->
    let simple :=
      swing_of (normalized (clamped_forward (bone_linear hand f b) tl tr tc tu)) in
    let d := mulv simple (vneg UnitZ) in
    (squaredNorm d = 1 /\ vz d < 0 /\
     tl <= vx d / - vz d <= tr /\ tc <= vy d / - vz d <= tu) /\
    (forall max_swing_angle,
        bone_linear (clamp_proximals hand f b max_swing_angle tl tr tc tu) f b
        = mmul (aa_toRotationMatrix
                  (clamp_twist (twist_of (bone_linear hand f b)) max_swing_angle))
               simple) /\
    bone_linear (clamp_proximals hand f b 0 tl tr tc tu) f b = simple /\
    swung_forward (bone_linear (clamp_proximals hand f b 0 tl tr tc tu) f b) = d.
Proof.
  intros hand f b tl tr tc tu Hwf Hf Hb _ Hd Hlr Hcu simple d.
  destruct (normalized_clamped_forward_cone (bone_linear hand f b) tl tr tc tu
              Hd Hlr Hcu) as (Hn & Hcone).
  assert (d = normalized (clamped_forward (bone_linear hand f b) tl tr tc tu)) as Ed.
  { unfold d, simple, swing_of.
    apply setFromTwoVectors_maps; [apply forward_axis_unit|exact Hn]. }
  assert (forall th,
             bone_linear (clamp_proximals hand f b th tl tr tc tu) f b
             = mmul (aa_toRotationMatrix
                       (clamp_twist (twist_of (bone_linear hand f b)) th)) simple) as Hres.
  { intros th. unfold clamp_proximals.
    now rewrite (bone_linear_set_bone_linear hand f b _ Hwf Hf Hb). }
  assert (bone_linear (clamp_proximals hand f b 0 tl tr tc tu) f b = simple) as H0.
  { rewrite Hres, clamp_twist_zero. apply mmul_Identity_l. }
  split; [rewrite Ed; split; [exact Hn|exact Hcone]|].
  split; [exact Hres|]. split; [exact H0|].
  rewrite H0. reflexivity.
Qed.

Lemma swing_rot_divisor : tangent_divisor swing_rot <> 0.
Proof.
  unfold tangent_divisor. rewrite swing_rot_forward. unfold forward_guard. simpl.
  destruct (Rlt_dec 0 (-1 / 3)); simpl; lra.
Qed.

Lemma X10_swing_clamp_cone_witness :
  let d := swung_forward (bone_linear (clamp_proximals swing_hand 1 1 0 (-1) 1 (-1) 1) 1 1) in
  vz d < 0 /\ -1 <= vx d / - vz d <= 1 /\ -1 <= vy d / - vz d <= 1.
Proof.
  destruct (X10_swing_clamp_cone swing_hand 1 1 (-1) 1 (-1) 1 swing_hand_wf
              ltac:(lia) ltac:(lia)) as ((_ & Hc) & _ & _ & E).
  - rewrite swing_hand_bone. exact swing_rot_is_rotation.
  - rewrite swing_hand_bone. exact swing_rot_divisor.
  - lra.
  - lra.
  - cbv zeta. rewrite E. exact Hc.
Defined.

(** X11: the swing-twist clamp leaves alone what is within its limits.
    On a bone whose local rotation is a rotation with its forward axis
    pointing forward ([z < 0]), both tangents within the limits and a
    twist angle of at most [max_swing_angle], [clamp_proximals] returns
    the hand unchanged.  When only the swing is within its limits, the
    forward axis of the bone is kept and a second call with the same
    limits changes nothing. *)
Theorem X11_swing_twist_clamp_fixed :
  forall (hand : kinematic_hand_4f) (f b : nat) (max_swing_angle tl tr tc tu : R),
    hand_wf hand -> (f < 5)%nat -> (b < 5)%nat ->
    is_rotation (bone_linear hand f b) -> 0 <= max_swing_angle ->
    vz (swung_forward (bone_linear hand f b)) < 0 ->
    tl <= vx (scaled_forward (bone_linear hand f b)) <= tr ->
    tc <= vy (scaled_forward (bone_linear hand f b)) <= tu ->
    let once := clamp_proximals hand f b max_swing_angle tl tr tc tu in
    (angle (twist_of (bone_linear hand f b)) <= max_swing_angle -> once = hand) /\
    swung_forward (bone_linear once f b) = swung_forward (bone_linear hand f b) /\
    clamp_proximals once f b max_swing_angle tl tr tc tu = once.
Proof.
  intros hand f b th tl tr tc tu Hwf Hf Hb Hr Hth Hz Hx Hy once.
  assert (forall h, hand_wf h -> is_rotation (bone_linear h f b) ->
             vz (swung_forward (bone_linear h f b)) < 0 ->
             tl <= vx (scaled_forward (bone_linear h f b)) <= tr ->
             tc <= vy (scaled_forward (bone_linear h f b)) <= tu ->
             angle (twist_of (bone_linear h f b)) <= th ->
             clamp_proximals h f b th tl tr tc tu = h) as Hfix.
  { intros h Hwfh Hrh Hzh Hxh Hyh Hang.
    destruct (twist_matrix_facts _ Hrh) as (_ & _ & Hrec).
    destruct (twist_of_round_trip _ Hrh) as [Hrt Hrange].
    unfold clamp_proximals, clamp_proximals_linear. cbv zeta.
    rewrite (clamped_forward_kept _ tl tr tc tu (swung_forward_unit _ Hrh) Hzh Hxh Hyh).
    assert (clamp_twist (twist_of (bone_linear h f b)) th
            = twist_of (bone_linear h f b)) as ->.
    { unfold clamp_twist, fabs. rewrite Rabs_pos_eq by lra.
      destruct (Rlt_dec th _) as [Hc|_]; [lra|reflexivity]. }
    rewrite Hrt, Hrec. now apply set_bone_linear_same. }
  destruct (clamp_proximals_linear_kept_swing (bone_linear hand f b) th tl tr tc tu
              Hr Hth Hz Hx Hy) as (Hfw & Hang & _).
  assert (bone_linear once f b
          = clamp_proximals_linear (bone_linear hand f b) th tl tr tc tu) as Hlin.
  { unfold once, clamp_proximals.
    now rewrite (bone_linear_set_bone_linear hand f b _ Hwf Hf Hb). }
  split; [|split].
  - intros Hang0. apply Hfix; assumption.
  - rewrite Hlin. exact Hfw.
  - assert (scaled_forward (bone_linear once f b)
            = scaled_forward (bone_linear hand f b)) as Hsc.
    { unfold scaled_forward, tangent_divisor. rewrite Hlin, Hfw. reflexivity. }
    apply Hfix.
    + apply set_bone_linear_wf. exact Hwf.
    + rewrite Hlin. apply clamp_proximals_linear_is_rotation.
      unfold tangent_divisor, forward_guard.
      destruct (Rlt_dec 0 _) as [Hc|_]; [lra|lra].
    + rewrite Hlin, Hfw. exact Hz.
    + rewrite Hsc. exact Hx.
    + rewrite Hsc. exact Hy.
    + rewrite Hlin, Hang. apply Rmin_l.
Qed.

Lemma X11_swing_twist_clamp_fixed_witness :
  clamp_proximals swing_hand 1 1 (PI / 2) (-3) 3 (-3) 3 = swing_hand /\
  clamp_proximals (clamp_proximals swing_hand 1 1 (PI / 4) (-3) 3 (-3) 3)
                  1 1 (PI / 4) (-3) 3 (-3) 3
  = clamp_proximals swing_hand 1 1 (PI / 4) (-3) 3 (-3) 3.
Proof.
  pose proof PI_RGT_0 as Hpi.
  assert (is_rotation (bone_linear swing_hand 1 1)) as Hr
    by (rewrite swing_hand_bone; exact swing_rot_is_rotation).
  assert (vz (swung_forward (bone_linear swing_hand 1 1)) < 0) as Hz
    by (rewrite swing_hand_bone, swing_rot_forward; simpl; lra).
  assert (-3 <= vx (scaled_forward (bone_linear swing_hand 1 1)) <= 3) as Hx
    by (rewrite swing_hand_bone, swing_rot_scaled_forward; simpl; lra).
  assert (-3 <= vy (scaled_forward (bone_linear swing_hand 1 1)) <= 3) as Hy
    by (rewrite swing_hand_bone, swing_rot_scaled_forward; simpl; lra).
  split.
  - destruct (X11_swing_twist_clamp_fixed swing_hand 1 1 (PI / 2) (-3) 3 (-3) 3
                swing_hand_wf ltac:(lia) ltac:(lia) Hr ltac:(lra) Hz Hx Hy)
      as (H & _ & _).
    apply H. rewrite swing_hand_bone, swing_rot_twist. simpl. lra.
  - destruct (X11_swing_twist_clamp_fixed swing_hand 1 1 (PI / 4) (-3) 3 (-3) 3
                swing_hand_wf ltac:(lia) ltac:(lia) Hr ltac:(lra) Hz Hx Hy)
      as (_ & _ & H).
    exact H.
Defined.

(** ** The joint set: what one write leaves *)

Lemma mirror_conjugate_involutive (m : Matrix3f) :
  mirror_conjugate (mirror_conjugate m) = m.
Proof. destruct m. unfold mirror_conjugate. simpl. f_equal; ring. Qed.

Lemma mirror_conjugate_mmul (m : Matrix3f) :
  mirror_conjugate m
  = mmul (Mat3 (-1) 0 0  0 1 0  0 0 1) (mmul m (Mat3 (-1) 0 0  0 1 0  0 0 1)).
Proof. destruct m. unfold mirror_conjugate, mmul. simpl. f_equal; ring. Qed.

Lemma mirror_conjugate_is_rotation (m : Matrix3f) :
  is_rotation m -> is_rotation (mirror_conjugate m).
Proof.
  intros [Hm Hd]. destruct m. unfold is_rotation, mmul, transpose, mirror_conjugate,
    determinant, Identity in *. simpl in *.
  injection Hm as E00 E01 E02 E10 E11 E12 E20 E21 E22.
  split; [f_equal|]; nsatz.
Qed.

(** The quaternion of the mirrored matrix is the quaternion of the
    matrix with [y] and [z] negated, up to the sign of the whole
    quaternion: Eigen's conversion pivots on the scalar part when the
    trace is positive and on the largest diagonal entry otherwise, and
    the mirror flips the sign of the pivot when that one is [y] or
    [z]. *)
Lemma quaternion_of_mirror_conjugate (m : Matrix3f) :
  let q := store_quat (quaternion_of_matrix m) in
  let q' := store_quat (quaternion_of_matrix (mirror_conjugate m)) in
  (q' = mirror_quat q \/ q' = neg_quat (mirror_quat q)) /\
  (0 < trace m \/ (m11 m <= m00 m /\ m22 m <= m00 m) -> q' = mirror_quat q).
Proof.
  destruct m as [a00 a01 a02 a10 a11 a12 a20 a21 a22].
  unfold quaternion_of_matrix, mirror_conjugate, trace.
  cbn [m00 m01 m02 m10 m11 m12 m20 m21 m22].
  destruct (Rlt_dec 0 (a00 + a11 + a22)) as [Ht|Ht]; cbv zeta;
    [|destruct (Rlt_dec a00 a11) as [H01|H01];
      [destruct (Rlt_dec a11 a22) as [H12|H12]
      |destruct (Rlt_dec a00 a22) as [H02|H02]]];
    unfold store_quat, mirror_quat, neg_quat; simpl;
    match goal with
    | |- context [1 / 2 / sqrt ?d] => generalize (1 / 2 / sqrt d); intros t2
    end;
    match goal with
    | |- context [sqrt ?d] => generalize (sqrt d); intros t1
    end.
  - split; [left|intros _]; f_equal; ring.
  - split; [right; f_equal; ring|]. intros [H|[H1 H2]]; lra.
  - split; [right; f_equal; ring|]. intros [H|[H1 H2]]; lra.
  - split; [right; f_equal; ring|]. intros [H|[H1 H2]]; lra.
  - split; [left|intros _]; f_equal; ring.
Qed.

(** ** The joint set: lists of writes *)

Lemma number_from_app {A : Type} (start : nat) (l1 l2 : list A) :
  number_from start (l1 ++ l2)
  = number_from start l1 ++ number_from (start + length l1) l2.
Proof.
  revert start. induction l1 as [|a l1 IH]; intros start; simpl.
  - now rewrite Nat.add_0_r.
  - rewrite IH. do 3 f_equal. lia.
Qed.

Lemma last_write_number_from_below (start idx : nat) (l : list Affine3f) :
  (idx < start)%nat -> last_write (number_from start l) idx = None.
Proof.
  revert start. induction l as [|a l IH]; intros start Hlt; simpl; [reflexivity|].
  rewrite IH by lia.
  destruct (Nat.eqb_spec start idx); [lia|reflexivity].
Qed.

Lemma last_write_number_from_above (start idx : nat) (l : list Affine3f) :
  (start + length l <= idx)%nat -> last_write (number_from start l) idx = None.
Proof.
  revert start. induction l as [|a l IH]; intros start Hlt; simpl in *; [reflexivity|].
  rewrite IH by lia.
  destruct (Nat.eqb_spec start idx); [lia|reflexivity].
Qed.

Lemma last_write_number_from (start k : nat) (l : list Affine3f) (p : Affine3f) :
  l !! k = Some p -> last_write (number_from start l) (start + k) = Some p.
Proof.
  revert start k. induction l as [|a l IH]; intros start k Hk; [discriminate|].
  destruct k as [|k]; simpl in *.
  - injection Hk as ->. rewrite last_write_number_from_below by lia.
    rewrite Nat.add_0_r, Nat.eqb_refl. reflexivity.
  - replace (start + S k)%nat with (S start + k)%nat by lia.
    now rewrite (IH (S start) k Hk).
Qed.

Lemma written_joint_twice (rotation : Affine3f -> Matrix3f) (flags hand_idx : Z)
    (p p' : Affine3f) (v : xrt_hand_joint_value) :
  written_joint rotation flags hand_idx p' (written_joint rotation flags hand_idx p v)
  = written_joint rotation flags hand_idx p' v.
Proof. reflexivity. Qed.

Lemma written_joint_position (rotation : Affine3f -> Matrix3f) (flags hand_idx : Z)
    (p : Affine3f) (v : xrt_hand_joint_value) :
  joint_position (written_joint rotation flags hand_idx p v)
  = (if Z.eqb hand_idx 0 then map_back (translation p)
     else mirror_x (map_back (translation p))).
Proof. reflexivity. Qed.

Section SolverFurther.

Variable umeyama : list Vector3f -> list Vector3f -> Affine3f.
Variable _statics_init_world_poses : kinematic_hand_4f -> kinematic_hand_4f.
Variable rotation : Affine3f -> Matrix3f.
Variable hidden_thumb : nat -> nat -> bool.
Variables OV OT PV PT : Z.
Variables PALM WRIST THUMB_METACARPAL : nat.

Abbreviation all_flags := (all_relation_flags OV OT PV PT).
Abbreviation solve :=
  (optimize_new_frame umeyama _statics_init_world_poses rotation hidden_thumb
     OV OT PV PT PALM WRIST THUMB_METACARPAL).
Abbreviation emit := (emit_fingers rotation hidden_thumb OV OT PV PT).
Abbreviation make_joint := (make_joint_at_matrix rotation OV OT PV PT).
Abbreviation joints m := (hand_joint_set_default (out_set m)).
Abbreviation written := (written_joint rotation all_flags).
Abbreviation apply_writes hand_idx ws out :=
  (fold_left (fun o w => make_joint (fst w) (snd w) o hand_idx) ws out).
Abbreviation writes := (solve_writes hidden_thumb PALM WRIST THUMB_METACARPAL).
Abbreviation two_ := (two umeyama _statics_init_world_poses).

(** One call of [make_joint_at_matrix] alters one slot. *)
Lemma make_joint_written (idx : nat) (pose : Affine3f) (out : xrt_hand_joint_set)
    (hand_idx : Z) :
  make_joint idx pose out hand_idx
  = XrtHandJointSet
      (alter (written hand_idx pose) idx (hand_joint_set_default out))
      (is_active out).
Proof.
  unfold make_joint_at_matrix, written_joint.
  destruct (Z.eqb hand_idx 0).
  - reflexivity.
  - unfold make_joint_at_matrix_right_hand, write_joint. cbv zeta.
    match goal with
    | |- context [quaternion_of_matrix (Mat3 ?a ?b ?c ?d ?e ?f ?g ?h ?i)] =>
        replace (Mat3 a b c d e f g h i) with (mirror_conjugate (rotation pose))
    end; [reflexivity|].
    unfold mirror_conjugate, mmul. simpl. f_equal; ring.
Qed.

Lemma apply_writes_lookup (hand_idx : Z) (ws : list (nat * Affine3f))
    (out : xrt_hand_joint_set) (idx : nat) :
  hand_joint_set_default (apply_writes hand_idx ws out) !! idx
  = match last_write ws idx with
    | Some p => written hand_idx p <$> hand_joint_set_default out !! idx
    | None => hand_joint_set_default out !! idx
    end.
Proof.
  revert out. induction ws as [|[i p] ws IH]; intros out; simpl; [reflexivity|].
  rewrite IH, make_joint_written. simpl.
  destruct (last_write ws idx) as [p'|].
  - destruct (decide (i = idx)) as [->|Hne].
    + rewrite list_lookup_alter_eq.
      destruct (hand_joint_set_default out !! idx); reflexivity.
    + now rewrite list_lookup_alter_ne.
  - destruct (Nat.eqb_spec i idx) as [->|Hne].
    + apply list_lookup_alter_eq.
    + now rewrite list_lookup_alter_ne.
Qed.

Lemma apply_writes_is_active (hand_idx : Z) (ws : list (nat * Affine3f))
    (out : xrt_hand_joint_set) :
  is_active (apply_writes hand_idx ws out) = is_active out.
Proof.
  revert out. induction ws as [|[i p] ws IH]; intros out; simpl; [reflexivity|].
  rewrite IH, make_joint_written. reflexivity.
Qed.

Lemma emit_bones_writes (h : kinematic_hand_4f) (hand_idx : Z) (f : nat)
    (bs : list nat) (acc : nat * xrt_hand_joint_set) :
  fold_left
    (fun acc bone_idx =>
       if hidden_thumb f bone_idx then acc
       else if negb (Nat.eqb f 0 && Nat.eqb bone_idx 0)
       then (S (fst acc),
             make_joint (fst acc) (world_pose (get_bone h f bone_idx))
               (snd acc) hand_idx)
       else acc) bs acc
  = let emitted :=
      filter (fun fb => negb (hidden_thumb (fst fb) (snd fb)) &&
                        negb (Nat.eqb (fst fb) 0 && Nat.eqb (snd fb) 0))
             (map (pair f) bs) in
    ((fst acc + length emitted)%nat,
     apply_writes hand_idx
       (number_from (fst acc)
          (map (fun fb => world_pose (get_bone h (fst fb) (snd fb))) emitted))
       (snd acc)).
Proof.
  revert acc. induction bs as [|b bs IHb]; intros [s o]; simpl.
  - now rewrite Nat.add_0_r.
  - rewrite filter_cons. simpl.
    destruct (hidden_thumb f b); simpl.
    + apply IHb.
    + destruct (negb (Nat.eqb f 0 && Nat.eqb b 0)); simpl.
      * rewrite IHb. simpl. f_equal. lia.
      * apply IHb.
Qed.

Lemma emit_fingers_writes_gen (h : kinematic_hand_4f) (hand_idx : Z)
    (fs bs : list nat) (acc : nat * xrt_hand_joint_set) :
  fold_left
    (fun acc finger_idx =>
       fold_left
         (fun acc bone_idx =>
            if hidden_thumb finger_idx bone_idx then acc
            else if negb (Nat.eqb finger_idx 0 && Nat.eqb bone_idx 0)
            then (S (fst acc),
                  make_joint (fst acc)
                    (world_pose (get_bone h finger_idx bone_idx))
                    (snd acc) hand_idx)
            else acc) bs acc) fs acc
  = let emitted :=
      filter (fun fb => negb (hidden_thumb (fst fb) (snd fb)) &&
                        negb (Nat.eqb (fst fb) 0 && Nat.eqb (snd fb) 0))
             (flat_map (fun f => map (pair f) bs) fs) in
    ((fst acc + length emitted)%nat,
     apply_writes hand_idx
       (number_from (fst acc)
          (map (fun fb => world_pose (get_bone h (fst fb) (snd fb))) emitted))
       (snd acc)).
Proof.
  revert acc. induction fs as [|f fs IH]; intros [s o]; simpl.
  - now rewrite Nat.add_0_r.
  - rewrite emit_bones_writes, IH. cbv zeta. simpl fst. simpl snd.
    rewrite filter_app, map_app, number_from_app, fold_left_app, length_app, length_map.
    f_equal. lia.
Qed.

Lemma emit_fingers_writes (h : kinematic_hand_4f) (hand_idx : Z) (start : nat)
    (out : xrt_hand_joint_set) :
  snd (emit h hand_idx start out)
  = apply_writes hand_idx
      (number_from start
         (map (fun fb => world_pose (get_bone h (fst fb) (snd fb)))
              (emitted_bones hidden_thumb)))
      out.
Proof.
  unfold emit_fingers.
  rewrite (emit_fingers_writes_gen h hand_idx (seq 0 5) (seq 0 5) (start, out)).
  reflexivity.
Qed.

(** The joint array after a solve: the writes of [solve_writes], applied
    in order to the array handed in. *)
Lemma solve_joints_writes (mem : frame_memory) (hand_idx : Z) :
  joints (solve mem hand_idx)
  = hand_joint_set_default
      (apply_writes hand_idx (writes (hand (solve mem hand_idx))) (out_set mem)).
Proof.
  unfold optimize_new_frame.
  set (h := optimize _ _).
  destruct (emit h hand_idx THUMB_METACARPAL _) as [s o] eqn:E. simpl.
  apply (f_equal snd) in E. rewrite emit_fingers_writes in E. simpl in E.
  now rewrite <- E.
Qed.

Lemma solve_slot (mem : frame_memory) (hand_idx : Z) (idx : nat) :
  joints (solve mem hand_idx) !! idx
  = match last_write (writes (hand (solve mem hand_idx))) idx with
    | Some p => written hand_idx p <$> joints mem !! idx
    | None => joints mem !! idx
    end.
Proof. rewrite solve_joints_writes. apply apply_writes_lookup. Qed.

Lemma store_load_quat (q : Quaternionf) : load_quat (store_quat q) = q.
Proof. destruct q. reflexivity. Qed.

Lemma unit_quaternion_of_rotation (m : Matrix3f) :
  is_rotation m -> unit_quaternion (quaternion_of_matrix m).
Proof.
  intros H. destruct (quaternion_of_rotation m H) as [Hv Hw].
  unfold unit_quaternion. unfold squaredNorm, dot, qvec in Hv. simpl in Hv. lra.
Qed.

(** X12: the orientation a joint is written with encodes the rotation of
    its pose.  One [make_joint_at_matrix] on a slot of the array writes
    the four flags, keeps the velocities and the radius, and leaves every
    other slot alone.  For the left hand the orientation is the
    quaternion of [pose.rotation()]; for the right hand it is the
    quaternion of that matrix mirrored on X, [M * R * M] with
    [M = diag(-1, 1, 1)], and the position has its X negated.  Whenever
    [pose.rotation()] is a rotation matrix, both quaternions have norm
    one and convert back to exactly those matrices. *)
Theorem X12_joint_orientation_encodes_rotation :
  forall (idx : nat) (pose : Affine3f) (out : xrt_hand_joint_set)
         (hand_idx : Z) (v : xrt_hand_joint_value),
    hand_joint_set_default out !! idx = Some v ->
    let out' := make_joint idx pose out hand_idx in
    let r := if Z.eqb hand_idx 0 then rotation pose
             else mirror_conjugate (rotation pose) in
    exists v',
      hand_joint_set_default out' !! idx = Some v' /\
      (forall j, j <> idx ->
                 hand_joint_set_default out' !! j = hand_joint_set_default out !! j) /\
      relation_flags (relation v') = all_flags /\
      linear_velocity (relation v') = linear_velocity (relation v) /\
      angular_velocity (relation v') = angular_velocity (relation v) /\
      radius v' = radius v /\
      joint_position v'
      = (if Z.eqb hand_idx 0 then map_back (translation pose)
         else mirror_x (map_back (translation pose))) /\
      load_quat (joint_orientation v') = quaternion_of_matrix r /\
      (is_rotation (rotation pose) ->
       is_rotation r /\
       unit_quaternion (load_quat (joint_orientation v')) /\
       toRotationMatrix (load_quat (joint_orientation v')) = r).
Proof.
  intros idx pose out hand_idx v Hv out' r.
  exists (written hand_idx pose v).
  unfold out'. rewrite make_joint_written. simpl.
  split; [rewrite list_lookup_alter_eq, Hv; reflexivity|].
  split; [intros j Hj; now rewrite list_lookup_alter_ne|].
  do 4 (split; [reflexivity|]).
  split; [unfold written_joint, joint_position; simpl; destruct (Z.eqb hand_idx 0); reflexivity|].
  assert (load_quat (joint_orientation (written hand_idx pose v))
          = quaternion_of_matrix r) as Hq.
  { unfold written_joint, joint_orientation. simpl. apply store_load_quat. }
  split; [exact Hq|].
  intros Hr.
  assert (is_rotation r) as Hr'.
  { unfold r. destruct (Z.eqb hand_idx 0); [exact Hr|].
    now apply mirror_conjugate_is_rotation. }
  split; [exact Hr'|]. rewrite Hq. split.
  - now apply unit_quaternion_of_rotation.
  - now apply quaternion_of_matrix_round_trip.
Qed.

(** ** The joint set: what a solve writes *)

Lemma palm_relation_midpoint (h : kinematic_hand_4f) :
  linear (palm_relation h) = linear (world_pose (get_bone h 2 0)) /\
  translation (palm_relation h)
  = midpoint (translation (world_pose (get_bone h 2 0)))
             (translation (world_pose (get_bone h 2 1))).
Proof.
  split; [reflexivity|].
  unfold palm_relation, midpoint, vadd, vdiv, Zero. simpl. f_equal; field.
Qed.

Lemma last_write_wrist (h : kinematic_hand_4f) :
  WRIST <> PALM -> (WRIST < THUMB_METACARPAL)%nat ->
  last_write (writes h) WRIST = Some (wrist_relation h).
Proof.
  intros Hne Hlt. unfold solve_writes. simpl.
  rewrite last_write_number_from_below by exact Hlt.
  destruct (Nat.eqb_spec PALM WRIST) as [E|_]; [congruence|].
  now rewrite Nat.eqb_refl.
Qed.

Lemma last_write_palm (h : kinematic_hand_4f) :
  (PALM < THUMB_METACARPAL)%nat ->
  last_write (writes h) PALM = Some (palm_relation h).
Proof.
  intros Hlt. unfold solve_writes. simpl.
  rewrite last_write_number_from_below by exact Hlt.
  now rewrite Nat.eqb_refl.
Qed.

Lemma last_write_bone (h : kinematic_hand_4f) (k f b : nat) :
  emitted_bones hidden_thumb !! k = Some (f, b) ->
  last_write (writes h) (THUMB_METACARPAL + k) = Some (world_pose (get_bone h f b)).
Proof.
  intros Hk. unfold solve_writes. simpl.
  rewrite (last_write_number_from THUMB_METACARPAL k _ (world_pose (get_bone h f b))).
  - reflexivity.
  - rewrite list_lookup_fmap, Hk. reflexivity.
Qed.

Lemma last_write_none (h : kinematic_hand_4f) (idx : nat) :
  idx <> WRIST -> idx <> PALM ->
  ~ (THUMB_METACARPAL <= idx < THUMB_METACARPAL + length (emitted_bones hidden_thumb))%nat ->
  last_write (writes h) idx = None.
Proof.
  intros Hw Hp Hr. unfold solve_writes. simpl.
  assert (last_write
            (number_from THUMB_METACARPAL
               (map (fun fb => world_pose (get_bone h (fst fb) (snd fb)))
                    (emitted_bones hidden_thumb))) idx = None) as ->.
  { destruct (Nat.lt_ge_cases idx THUMB_METACARPAL) as [Hlt|Hge].
    - now apply last_write_number_from_below.
    - apply last_write_number_from_above. rewrite length_map. lia. }
  destruct (Nat.eqb_spec PALM idx) as [E|_]; [congruence|].
  destruct (Nat.eqb_spec WRIST idx) as [E|_]; [congruence|reflexivity].
Qed.

(** X13: the wrist and the palm of the output.  With the wrist and the
    palm slots distinct and before the thumb metacarpal, as in
    [enum xrt_hand_joint], a solve leaves in the wrist slot the joint
    written for the wrist pose of the solved hand, and in the palm slot
    the joint written for the palm pose, whose rotation is that of the
    world pose of bone 0 of the middle finger and whose position is the
    midpoint between the world positions of bones 0 and 1 of the middle
    finger (X negated for the right hand). *)
Theorem X13_solve_wrist_and_palm :
  forall (mem : frame_memory) (hand_idx : Z),
    WRIST <> PALM -> (WRIST < THUMB_METACARPAL)%nat -> (PALM < THUMB_METACARPAL)%nat ->
    let h := hand (solve mem hand_idx) in
    joints (solve mem hand_idx) !! WRIST
    = written hand_idx (wrist_relation h) <$> joints mem !! WRIST /\
    joints (solve mem hand_idx) !! PALM
    = written hand_idx (palm_relation h) <$> joints mem !! PALM /\
    linear (palm_relation h) = linear (world_pose (get_bone h 2 0)) /\
    translation (palm_relation h)
    = midpoint (translation (world_pose (get_bone h 2 0)))
               (translation (world_pose (get_bone h 2 1))) /\
    (forall v, joints (solve mem hand_idx) !! PALM = Some v ->
               joint_position v
               = (if Z.eqb hand_idx 0
                  then map_back (translation (palm_relation h))
                  else mirror_x (map_back (translation (palm_relation h))))).
Proof.
  intros mem hand_idx Hne Hw Hp h.
  assert (joints (solve mem hand_idx) !! PALM
          = written hand_idx (palm_relation h) <$> joints mem !! PALM) as Hpalm.
  { rewrite solve_slot. fold h. now rewrite last_write_palm. }
  split; [rewrite solve_slot; fold h; now rewrite last_write_wrist|].
  split; [exact Hpalm|].
  split; [apply palm_relation_midpoint|]. split; [apply palm_relation_midpoint|].
  intros v Hv. rewrite Hpalm in Hv.
  apply fmap_Some in Hv. destruct Hv as (v0 & _ & ->).
  apply written_joint_position.
Qed.

Lemma emitted_bones_standard :
  (forall f b, hidden_thumb f b = true -> f = 0%nat /\ b = 0%nat) ->
  emitted_bones hidden_thumb
  = [(0, 1); (0, 2); (0, 3); (0, 4);
     (1, 0); (1, 1); (1, 2); (1, 3); (1, 4);
     (2, 0); (2, 1); (2, 2); (2, 3); (2, 4);
     (3, 0); (3, 1); (3, 2); (3, 3); (3, 4);
     (4, 0); (4, 1); (4, 2); (4, 3); (4, 4)]%nat.
Proof.
  intros Hh.
  assert (forall f b, (f, b) <> (0, 0)%nat -> hidden_thumb f b = false) as Hf.
  { intros f b Hne. destruct (hidden_thumb f b) eqn:E; [|reflexivity].
    destruct (Hh f b E) as [-> ->]. congruence. }
  transitivity (emitted_bones (fun _ _ => false)); [|reflexivity].
  unfold emitted_bones. apply list_filter_iff. intros [f b]. simpl.
  destruct (decide ((f, b) = (0, 0)%nat)) as [[= -> ->]|Hne].
  - simpl. rewrite !andb_false_r. reflexivity.
  - now rewrite (Hf f b Hne).
Qed.

(** X14: the finger joints of the output, slot by slot.  A solve writes
    the emitted finger bones to consecutive slots from the thumb
    metacarpal on: the slot [THUMB_METACARPAL + k] holds the joint
    written for the world pose, in the solved hand, of the [k]-th bone
    that the hidden-thumb macro lets through (the thumb's bone 0 is never
    emitted).  Every slot other than the wrist, the palm and these is
    as the caller passed it.  When the macro hides at most the thumb's
    bone 0 there are 24 such slots, and the bone [b] of the finger [f]
    is in the slot [THUMB_METACARPAL + 5 * f + b - 1]. *)
Theorem X14_solve_finger_slots :
  forall (mem : frame_memory) (hand_idx : Z),
    let h := hand (solve mem hand_idx) in
    (forall k f b,
        emitted_bones hidden_thumb !! k = Some (f, b) ->
        joints (solve mem hand_idx) !! (THUMB_METACARPAL + k)%nat
        = written hand_idx (world_pose (get_bone h f b))
            <$> joints mem !! (THUMB_METACARPAL + k)%nat) /\
    (forall idx,
        idx <> WRIST -> idx <> PALM ->
        ~ (THUMB_METACARPAL <= idx
           < THUMB_METACARPAL + length (emitted_bones hidden_thumb))%nat ->
        joints (solve mem hand_idx) !! idx = joints mem !! idx) /\
    ((forall f b, hidden_thumb f b = true -> f = 0%nat /\ b = 0%nat) ->
     length (emitted_bones hidden_thumb) = 24%nat /\
     forall f b,
       (f < 5)%nat -> (b < 5)%nat -> (f, b) <> (0, 0)%nat ->
       joints (solve mem hand_idx) !! (THUMB_METACARPAL + (5 * f + b - 1))%nat
       = written hand_idx (world_pose (get_bone h f b))
           <$> joints mem !! (THUMB_METACARPAL + (5 * f + b - 1))%nat).
Proof.
  intros mem hand_idx h.
  assert (forall k f b,
             emitted_bones hidden_thumb !! k = Some (f, b) ->
             joints (solve mem hand_idx) !! (THUMB_METACARPAL + k)%nat
             = written hand_idx (world_pose (get_bone h f b))
                 <$> joints mem !! (THUMB_METACARPAL + k)%nat) as Hk.
  { intros k f b E. rewrite solve_slot. fold h. now rewrite (last_write_bone h k f b E). }
  split; [exact Hk|]. split.
  - intros idx Hw Hp Hr. rewrite solve_slot. fold h. now rewrite last_write_none.
  - intros Hh. rewrite (emitted_bones_standard Hh) in *.
    split; [reflexivity|].
    intros f b Hf Hb Hne. apply Hk.
    destruct f as [|[|[|[|[|f]]]]]; try lia;
      destruct b as [|[|[|[|[|b]]]]]; try lia; try reflexivity.
    congruence.
Qed.

(** ** The joint set: left against right, the orientations *)

Lemma solve_hand (mem : frame_memory) (hand_idx : Z) :
  hand (solve mem hand_idx)
  = optimize (hand_ops umeyama _statics_init_world_poses)
      (intake (model_joints_3d mem) (hand mem) hand_idx).
Proof.
  unfold optimize_new_frame. set (h := optimize _ _).
  destruct (emit h hand_idx THUMB_METACARPAL _) as [s o]. reflexivity.
Qed.

Lemma last_write_emitted (h : kinematic_hand_4f) (idx : nat) :
  emitted_index hidden_thumb PALM WRIST THUMB_METACARPAL idx ->
  exists p, last_write (writes h) idx = Some p.
Proof.
  intros [->|[->|Hr]]; unfold solve_writes; simpl.
  - destruct (last_write _ WRIST); [eauto|].
    destruct (Nat.eqb PALM WRIST); [eauto|]. rewrite Nat.eqb_refl. eauto.
  - destruct (last_write _ PALM); [eauto|]. rewrite Nat.eqb_refl. eauto.
  - assert (exists k, idx = (THUMB_METACARPAL + k)%nat /\
                      (k < length (emitted_bones hidden_thumb))%nat) as (k & -> & Hk)
      by (exists (idx - THUMB_METACARPAL)%nat; lia).
    destruct (lookup_lt_is_Some_2 (emitted_bones hidden_thumb) k Hk) as [[f b] E].
    rewrite (last_write_number_from THUMB_METACARPAL k _ (world_pose (get_bone h f b))).
    + eauto.
    + rewrite list_lookup_fmap, E. reflexivity.
Qed.

Lemma toRotationMatrix_mirror_quat (q : xrt_quat) :
  toRotationMatrix (load_quat (mirror_quat q))
  = mirror_conjugate (toRotationMatrix (load_quat q)) /\
  toRotationMatrix (load_quat (neg_quat (mirror_quat q)))
  = mirror_conjugate (toRotationMatrix (load_quat q)).
Proof.
  destruct q. unfold toRotationMatrix, mirror_conjugate, load_quat, mirror_quat, neg_quat.
  simpl. split; f_equal; ring.
Qed.

(** X15: left against right, the orientations.  From the same hand and
    joint set, the left-hand solve of the points [P] and the right-hand
    solve of their X-mirror images write, in every emitted slot, the same
    flags and orientations that mirror each other: the right one is the
    left one with [y] and [z] negated, up to the sign of the whole
    quaternion, and so stands for the left rotation mirrored on X,
    [M * R * M]. *)
Theorem X15_mirror_symmetry_orientations :
  forall (P : list xrt_vec3) (hand0 : kinematic_hand_4f) (out0 : xrt_hand_joint_set)
         (idx : nat) (vl vr : xrt_hand_joint_value),
    let left := solve (FrameMemory P hand0 out0) 0 in
    let right := solve (FrameMemory (mirror_x <$> P) hand0 out0) 1 in
    emitted_index hidden_thumb PALM WRIST THUMB_METACARPAL idx ->
    joints left !! idx = Some vl -> joints right !! idx = Some vr ->
    (joint_orientation vr = mirror_quat (joint_orientation vl) \/
     joint_orientation vr = neg_quat (mirror_quat (joint_orientation vl))) /\
    toRotationMatrix (load_quat (joint_orientation vr))
    = mirror_conjugate (toRotationMatrix (load_quat (joint_orientation vl))) /\
    relation_flags (relation vr) = relation_flags (relation vl) /\
    radius vr = radius vl.
Proof.
  intros P hand0 out0 idx vl vr left right Hidx Hl Hr.
  assert (hand right = hand left) as Hh.
  { unfold left, right. rewrite !solve_hand. simpl. now rewrite intake_mirror. }
  unfold left in Hl. unfold right in Hr.
  rewrite solve_slot in Hl, Hr. fold left in Hl. fold right in Hr.
  rewrite Hh in Hr.
  destruct (last_write_emitted (hand left) idx Hidx) as [p Hp].
  rewrite Hp in Hl, Hr. clear Hp Hh. clearbody left right.
  cbn [out_set] in Hl, Hr.
  apply fmap_Some in Hl, Hr.
  destruct Hl as (v0 & E0 & ->), Hr as (v1 & E1 & ->).
  assert (v1 = v0) as -> by congruence.
  assert (joint_orientation (written 1 p v0)
          = mirror_quat (joint_orientation (written 0 p v0)) \/
          joint_orientation (written 1 p v0)
          = neg_quat (mirror_quat (joint_orientation (written 0 p v0)))) as Ho.
  { unfold written_joint, joint_orientation. simpl.
    apply (quaternion_of_mirror_conjugate (rotation p)). }
  split; [exact Ho|]. split; [|split; reflexivity].
  destruct (toRotationMatrix_mirror_quat (joint_orientation (written 0 p v0)))
    as [H1 H2].
  destruct Ho as [-> | ->]; assumption.
Qed.

(** ** The alignment *)

(** X17: what [two] aligns.  [two] fills the 3x21 matrix [kinematic]
    with the wrist position in column 0 and the world position of the
    bone [b] (1 to 4) of the finger [f] in column [4 * f + b], the order
    of the 21 keypoints; the bones 0 are left out and the columns beyond
    are not touched.  It then hands to the forward kinematics the hand
    whose wrist is [umeyama(kinematic, t_jts_as_mat) * wrist_relation],
    with the fingers and the target points as they were. *)
Theorem X17_two_alignment :
  forall hand : kinematic_hand_4f,
    (21 <= length (kinematic hand))%nat ->
    let k := two_kinematic hand in
    two_ hand = _statics_init_world_poses (two_aligned umeyama hand) /\
    wrist_relation (two_aligned umeyama hand)
    = aff_mul (umeyama k (t_jts_as_mat hand)) (wrist_relation hand) /\
    fingers (two_aligned umeyama hand) = fingers hand /\
    t_jts (two_aligned umeyama hand) = t_jts hand /\
    t_jts_as_mat (two_aligned umeyama hand) = t_jts_as_mat hand /\
    kinematic (two_aligned umeyama hand) = k /\
    length k = length (kinematic hand) /\
    k !! 0%nat = Some (translation (wrist_relation hand)) /\
    (forall f b, (f < 5)%nat -> (1 <= b <= 4)%nat ->
                 k !! (4 * f + b)%nat
                 = Some (translation (world_pose (get_bone hand f b)))) /\
    (forall i, (21 <= i)%nat -> k !! i = kinematic hand !! i).
Proof.
  intros hand Hlen k.
  split.
  { unfold two, two_aligned, two_kinematic, _two_set_ele.
    destruct (fold_left _ (seq 0 5) _) as [i k1]. reflexivity. }
  do 5 (split; [reflexivity|]).
  unfold k, two_kinematic. cbn [fold_left seq fst snd].
  split; [now rewrite !length_insert|].
  split.
  { rewrite !list_lookup_insert_ne by discriminate. apply list_lookup_insert_eq. lia. }
  split.
  - intros f b Hf Hb.
    destruct f as [|[|[|[|[|f]]]]]; try lia;
      destruct b as [|[|[|[|[|b]]]]]; try lia;
      cbn [Nat.mul Nat.add];
      rewrite ?list_lookup_insert_ne by discriminate;
      apply list_lookup_insert_eq; rewrite ?length_insert; lia.
  - intros i Hi. now rewrite !list_lookup_insert_ne by lia.
Qed.

End SolverFurther.
(** ** The joint set and the alignment on the sample frame *)

Lemma sample_frame_slot (idx : nat) :
  (idx < 26)%nat -> hand_joint_set_default (out_set sample_frame) !! idx = Some inhabitant.
Proof.
  intros H. unfold sample_frame. cbn [out_set hand_joint_set_default].
  now apply lookup_replicate_2.
Qed.

Lemma X12_joint_orientation_encodes_rotation_witness :
  exists v',
    hand_joint_set_default
      (make_joint_at_matrix linear 1 16 2 32 3 (Affine quarter_turn_x (Vec3 1 2 3))
         (out_set sample_frame) 1) !! 3%nat = Some v' /\
    joint_position v' = XrtVec3 (-1) 2 3 /\
    toRotationMatrix (load_quat (joint_orientation v')) = mirror_conjugate quarter_turn_x.
Proof.
  destruct (X12_joint_orientation_encodes_rotation linear 1 16 2 32 3
              (Affine quarter_turn_x (Vec3 1 2 3)) (out_set sample_frame) 1 inhabitant)
    as (v' & H1 & _ & _ & _ & _ & _ & H2 & _ & H3).
  - apply sample_frame_slot. lia.
  - exists v'. split; [exact H1|]. split.
    + rewrite H2. unfold mirror_x, map_back. simpl. f_equal; ring.
    + apply H3. exact quarter_turn_x_is_rotation.
Defined.

Lemma X13_solve_wrist_and_palm_witness :
  hand_joint_set_default
    (out_set (optimize_new_frame sample_umeyama sample_statics linear
                sample_hidden_thumb 1 16 2 32 0 1 2 sample_frame 1)) !! 0%nat
  = written_joint linear (all_relation_flags 1 16 2 32) 1
      (palm_relation
         (hand (optimize_new_frame sample_umeyama sample_statics linear
                  sample_hidden_thumb 1 16 2 32 0 1 2 sample_frame 1)))
      <$> hand_joint_set_default (out_set sample_frame) !! 0%nat.
Proof.
  destruct (X13_solve_wrist_and_palm sample_umeyama sample_statics linear
              sample_hidden_thumb 1 16 2 32 0 1 2 sample_frame 1)
    as (_ & H & _); [lia..|].
  exact H.
Defined.

Lemma X14_solve_finger_slots_witness :
  length (emitted_bones sample_hidden_thumb) = 24%nat /\
  hand_joint_set_default
    (out_set (optimize_new_frame sample_umeyama sample_statics linear
                sample_hidden_thumb 1 16 2 32 0 1 2 sample_frame 0)) !! 6%nat
  = written_joint linear (all_relation_flags 1 16 2 32) 0
      (world_pose
         (get_bone
            (hand (optimize_new_frame sample_umeyama sample_statics linear
                     sample_hidden_thumb 1 16 2 32 0 1 2 sample_frame 0)) 1 0))
      <$> hand_joint_set_default (out_set sample_frame) !! 6%nat.
Proof.
  destruct (X14_solve_finger_slots sample_umeyama sample_statics linear
              sample_hidden_thumb 1 16 2 32 0 1 2 sample_frame 0)
    as (_ & _ & H).
  destruct H as [Hlen Hslot].
  - intros f b E. unfold sample_hidden_thumb in E.
    apply andb_true_iff in E. destruct E as [E1 E2].
    apply Nat.eqb_eq in E1, E2. auto.
  - split; [exact Hlen|].
    apply (Hslot 1%nat 0%nat); [lia|lia|discriminate].
Defined.

Lemma X15_mirror_symmetry_orientations_witness :
  exists vl vr,
    hand_joint_set_default
      (out_set (optimize_new_frame sample_umeyama sample_statics linear
                  sample_hidden_thumb 1 16 2 32 0 1 2
                  (FrameMemory [XrtVec3 1 2 3] rest_hand (out_set sample_frame)) 0))
      !! 1%nat = Some vl /\
    hand_joint_set_default
      (out_set (optimize_new_frame sample_umeyama sample_statics linear
                  sample_hidden_thumb 1 16 2 32 0 1 2
                  (FrameMemory (mirror_x <$> [XrtVec3 1 2 3]) rest_hand
                               (out_set sample_frame)) 1))
      !! 1%nat = Some vr /\
    toRotationMatrix (load_quat (joint_orientation vr))
    = mirror_conjugate (toRotationMatrix (load_quat (joint_orientation vl))).
Proof.
  assert (forall (P : list xrt_vec3) (hand_idx : Z),
             exists v,
               hand_joint_set_default
                 (out_set (optimize_new_frame sample_umeyama sample_statics linear
                             sample_hidden_thumb 1 16 2 32 0 1 2
                             (FrameMemory P rest_hand (out_set sample_frame)) hand_idx))
                 !! 1%nat = Some v) as Hex.
  { intros P hand_idx. apply lookup_lt_is_Some_2.
    rewrite solve_length. unfold sample_frame.
    cbn [out_set hand_joint_set_default]. rewrite length_replicate. lia. }
  destruct (Hex [XrtVec3 1 2 3] 0%Z) as [vl Hl].
  destruct (Hex (mirror_x <$> [XrtVec3 1 2 3]) 1%Z) as [vr Hr].
  exists vl, vr. split; [exact Hl|]. split; [exact Hr|].
  destruct (X15_mirror_symmetry_orientations sample_umeyama sample_statics linear
              sample_hidden_thumb 1 16 2 32 0 1 2
              [XrtVec3 1 2 3] rest_hand (out_set sample_frame) 1%nat vl vr)
    as (_ & H & _).
  - left. reflexivity.
  - exact Hl.
  - exact Hr.
  - exact H.
Defined.

Lemma X17_two_alignment_witness :
  two_kinematic rest_hand !! 7%nat
  = Some (translation (world_pose (get_bone rest_hand 1 3))).
Proof.
  destruct (X17_two_alignment sample_umeyama sample_statics rest_hand)
    as (_ & _ & _ & _ & _ & _ & _ & _ & H & _).
  - unfold rest_hand. cbn [kinematic]. rewrite length_replicate. lia.
  - apply (H 1%nat 3%nat); lia.
Defined.

(** ** The intake *)

(** X16: the intake loads the targets twice, consistently.  For an
    array of 21 points and a hand whose two target arrays have their 21
    slots, the intake leaves in slot [i] of [t_jts] the point [i] of the
    array, with X negated for the right hand, and in column [i] of
    [t_jts_as_mat] the same point as a vector; slots beyond the 21st,
    the wrist, the fingers and the matrix [kinematic] are not touched. *)
Theorem X16_intake_targets :
  forall (P : list xrt_vec3) (hand : kinematic_hand_4f) (hand_idx : Z),
    length P = 21%nat ->
    (21 <= length (t_jts hand))%nat -> (21 <= length (t_jts_as_mat hand))%nat ->
    let hand' := intake P hand hand_idx in
    wrist_relation hand' = wrist_relation hand /\
    fingers hand' = fingers hand /\
    kinematic hand' = kinematic hand /\
    length (t_jts hand') = length (t_jts hand) /\
    length (t_jts_as_mat hand') = length (t_jts_as_mat hand) /\
    (forall i p, P !! i = Some p ->
                 let t := if Z.eqb hand_idx 0 then p else mirror_x p in
                 t_jts hand' !! i = Some t /\
                 t_jts_as_mat hand' !! i = Some (map_vec3 t)) /\
    (forall i, (21 <= i)%nat ->
               t_jts hand' !! i = t_jts hand !! i /\
               t_jts_as_mat hand' !! i = t_jts_as_mat hand !! i).
Proof.
  intros P hand hand_idx HP Hl1 Hl2 hand'.
  assert (forall n, (n <= 21)%nat ->
            let h := fold_left
              (fun hand i =>
                 let p := P !!! i in
                 let t_jts' :=
                   if Z.eqb hand_idx 0 then <[i := p]> (t_jts hand)
                   else <[i := XrtVec3 (- x p) (y p) (z p)]> (t_jts hand) in
                 let t := t_jts' !!! i in
                 Hand (wrist_relation hand) (fingers hand) t_jts'
                      (<[i := Vec3 (x t) (y t) (z t)]> (t_jts_as_mat hand))
                      (kinematic hand))
              (seq 0 n) hand in
            wrist_relation h = wrist_relation hand /\
            fingers h = fingers hand /\
            kinematic h = kinematic hand /\
            length (t_jts h) = length (t_jts hand) /\
            length (t_jts_as_mat h) = length (t_jts_as_mat hand) /\
            (forall i p, (i < n)%nat -> P !! i = Some p ->
                 let t := if Z.eqb hand_idx 0 then p else mirror_x p in
                 t_jts h !! i = Some t /\
                 t_jts_as_mat h !! i = Some (map_vec3 t)) /\
            (forall i, (n <= i)%nat ->
                 t_jts h !! i = t_jts hand !! i /\
                 t_jts_as_mat h !! i = t_jts_as_mat hand !! i)) as Hinv.
  { induction n as [|n IH]; intros Hn; cbv zeta.
    - simpl. do 5 (split; [reflexivity|]). split.
      + intros i p Hi. lia.
      + intros i _. split; reflexivity.
    - rewrite seq_S, fold_left_app. simpl.
      destruct (IH ltac:(lia)) as (Hw & Hf & Hk & Hlt & Hlm & Hin & Hout).
      cbv zeta in Hw, Hf, Hk, Hlt, Hlm, Hin, Hout.
      set (h := fold_left _ (seq 0 n) hand) in *.
      set (t := if Z.eqb hand_idx 0 then P !!! n else mirror_x (P !!! n)).
      assert ((if Z.eqb hand_idx 0 then <[n := P !!! n]> (t_jts h)
               else <[n := XrtVec3 (- x (P !!! n)) (y (P !!! n)) (z (P !!! n))]> (t_jts h))
              = <[n := t]> (t_jts h)) as Ht.
      { unfold t. destruct (Z.eqb hand_idx 0); reflexivity. }
      rewrite Ht.
      assert (<[n := t]> (t_jts h) !!! n = t) as Ett
        by (apply list_lookup_total_insert_eq; lia).
      rewrite Ett.
      split; [exact Hw|]. split; [exact Hf|]. split; [exact Hk|].
      split; [now rewrite length_insert|]. split; [now rewrite length_insert|].
      split.
      + intros i p Hi Hp. destruct (decide (i = n)) as [->|Hne].
        * assert (P !!! n = p) as Epn by (now apply list_lookup_total_correct).
          assert (t = if Z.eqb hand_idx 0 then p else mirror_x p) as <-
            by (unfold t; now rewrite Epn).
          split; apply list_lookup_insert_eq; lia.
        * rewrite !list_lookup_insert_ne by congruence. apply Hin; [lia|exact Hp].
      + intros i Hi. rewrite !list_lookup_insert_ne by lia. apply Hout. lia. }
  destruct (Hinv 21%nat ltac:(lia)) as (Hw & Hf & Hk & Hlt & Hlm & Hin & Hout).
  cbv zeta in Hw, Hf, Hk, Hlt, Hlm, Hin, Hout.
  repeat (split; [assumption|]). split; [|exact Hout].
  intros i p Hp. apply Hin; [|exact Hp].
  apply lookup_lt_Some in Hp. lia.
Qed.

Lemma X16_intake_targets_witness :
  t_jts (intake (replicate 21 (XrtVec3 1 2 3)) rest_hand 1) !! 4%nat
  = Some (XrtVec3 (-1) 2 3) /\
  t_jts_as_mat (intake (replicate 21 (XrtVec3 1 2 3)) rest_hand 1) !! 4%nat
  = Some (Vec3 (-1) 2 3).
Proof.
  destruct (X16_intake_targets (replicate 21 (XrtVec3 1 2 3)) rest_hand 1)
    as (_ & _ & _ & _ & _ & H & _).
  - apply length_replicate.
  - unfold rest_hand. cbn [t_jts]. rewrite length_replicate. lia.
  - unfold rest_hand. cbn [t_jts_as_mat]. rewrite length_replicate. lia.
  - destruct (H 4%nat (XrtVec3 1 2 3)) as [H1 H2].
    + apply lookup_replicate_2. lia.
    + split; [exact H1|exact H2].
Defined.

(** ** The estimator at its fixed point *)

Lemma aligned_hand_wf : hand_wf aligned_hand.
Proof. split; [reflexivity|]. repeat constructor. Qed.

Lemma aligned_hand_directions :
  bone_directions aligned_hand 1 3 = (Vec3 0 0 (-1), Vec3 0 0 (-1)).
Proof.
  unfold bone_directions, sum_children, get_bone, aligned_hand, estimator_hand. cbn.
  assert (aff_apply (aff_inverse (Affine quarter_turn_x Zero))
            (vscale (1 / 1) (vadd Zero (Vec3 0 1 0))) = Vec3 0 0 (-1)) as E.
  { unfold aff_apply, aff_inverse, inverse, determinant, quarter_turn_x,
      mulv, vadd, vscale, vneg, Zero. simpl. f_equal; field. }
  change (map_vec3 (XrtVec3 0 1 0)) with (Vec3 0 1 0).
  rewrite E.
  rewrite !normalized_unit; [reflexivity|]; unfold squaredNorm, dot; simpl; ring.
Qed.

(** X18: the estimator has nothing to correct when the chain already
    points at its targets.  On a bone with a chain below it, when the
    normalized current direction and the normalized target direction
    are the same vector, the correction is the identity and
    [do_it_for_bone] returns the hand unchanged. *)
Theorem X18_estimator_fixed_point :
  forall (hand : kinematic_hand_4f) (f b : nat) (flag : bool),
    hand_wf hand -> (f < 5)%nat -> (b < 4)%nat ->
    fst (bone_directions hand f b) = snd (bone_directions hand f b) ->
    bone_correction hand f b = Identity /\
    do_it_for_bone hand f b flag = hand.
Proof.
  intros hand f b flag Hwf Hf Hb Heq.
  assert (bone_correction hand f b = Identity) as Hc.
  { unfold bone_correction, bone_directions in *.
    destruct (sum_children hand (fingers hand !!! f) b) as [[n t] k].
    simpl in Heq. rewrite <- Heq.
    match goal with
    | |- toRotationMatrix (setFromTwoVectors (normalized ?v) _) = _ =>
        destruct (normalized_unit_or_zero v) as [Hu|[_ Hz]]
    end.
    - now apply setFromTwoVectors_same.
    - apply setFromTwoVectors_degenerate. now left. }
  split; [exact Hc|].
  unfold do_it_for_bone. rewrite Hc, mmul_Identity_r.
  apply set_bone_linear_same; [assumption..|lia].
Qed.

Lemma X18_estimator_fixed_point_witness :
  do_it_for_bone aligned_hand 1 3 true = aligned_hand.
Proof.
  apply (X18_estimator_fixed_point aligned_hand 1 3 true aligned_hand_wf).
  - lia.
  - lia.
  - rewrite aligned_hand_directions. reflexivity.
Defined.

(** ** The hinge clamp: the bound by the sign of the angle *)

(** X19: which bound the hinge clamp picks.  When the measured angle is
    not strictly inside the range, the bone is set to the turn about X
    by [min_angle] or by [max_angle] according to the sign of the
    measured angle: a negative angle goes to [min_angle] whenever
    [min_angle + max_angle < 2 * PI]; a non-negative angle goes to
    [min_angle] when [min_angle + max_angle + 2 * PI] is less than twice
    the angle, and to [max_angle] otherwise. *)
Theorem X19_hinge_clamp_bound_by_sign :
  forall (hand : kinematic_hand_4f) (f b : nat) (min_angle max_angle : R),
    hand_wf hand -> (f < 5)%nat -> (b < 5)%nat ->
    let rv := hinge_rotation_value (hinge_correct (bone_linear hand f b)) in
    let result := bone_linear (clamp_to_x_axis hand f b true min_angle max_angle) f b in
    ~ min_angle < rv < max_angle ->
    (rv < 0 -> min_angle + max_angle < 2 * PI ->
     result = rotation_about_x min_angle) /\
    (0 <= rv -> min_angle + max_angle + 2 * PI < 2 * rv ->
     result = rotation_about_x min_angle) /\
    (0 <= rv -> 2 * rv <= min_angle + max_angle + 2 * PI ->
     result = rotation_about_x max_angle).
Proof.
  intros hand f b lo hi Hwf Hf Hb rv result Hout.
  assert (result = rotation_about_x (hinge_choose_bound rv lo hi)) as ->.
  { unfold result, clamp_to_x_axis.
    rewrite (bone_linear_set_bone_linear hand f b _ Hwf Hf Hb).
    unfold clamp_to_x_axis_linear. simpl negb. cbv iota zeta. fold rv.
    destruct (Rlt_dec rv hi) as [H1|H1];
      [destruct (Rlt_dec lo rv) as [H2|H2]; [lra|]|]; reflexivity. }
  unfold hinge_choose_bound, positive_rotation_value, negative_rotation_value.
  split; [|split]; intros Hs Hr;
    destruct (Rlt_dec rv 0) as [Hn|Hn]; try lra;
    destruct (Rlt_dec _ _) as [Hc|Hc]; try reflexivity; lra.
Qed.

Lemma X19_hinge_clamp_bound_by_sign_witness :
  bone_linear (clamp_to_x_axis overbent_hand 1 2 true (rad (-10)) (rad 90)) 1 2
  = rotation_about_x (rad (-10)).
Proof.
  pose proof PI_RGT_0 as Hpi.
  assert (hinge_rotation_value (hinge_correct (bone_linear overbent_hand 1 2))
          = rad (-175)) as E.
  { rewrite overbent_hand_bone, hinge_correct_about_x.
    apply hinge_rotation_value_about_x. unfold rad. split; nra. }
  destruct (X19_hinge_clamp_bound_by_sign overbent_hand 1 2 (rad (-10)) (rad 90)
              overbent_hand_wf ltac:(lia) ltac:(lia)) as (H & _ & _).
  - rewrite E. unfold rad. nra.
  - apply H; [rewrite E|]; unfold rad; nra.
Defined.

(** ** The swing-twist clamp: the guard *)

(** X20: what the guard on the forward component does.  The divisor of
    [our_z *= -1.0f / our_z.z()] is never positive, and it is zero
    exactly when the forward component of the swung axis is zero.  A
    positive component, an axis that points behind the joint, is replaced
    by [-0.000001], so that the two tangents are the [x] and [y] of the
    axis times a million; a negative component divides as it is, and the
    tangents are [x / -z] and [y / -z].  In both cases the scaled axis
    has [z = -1]. *)
Theorem X20_forward_guard_divisor :
  forall rot : Matrix3f,
    let our_z := swung_forward rot in
    tangent_divisor rot <= 0 /\
    (tangent_divisor rot = 0 <-> vz our_z = 0) /\
    (0 < vz our_z ->
     tangent_divisor rot = - (1 / 1000000) /\
     scaled_forward rot = Vec3 (1000000 * vx our_z) (1000000 * vy our_z) (-1)) /\
    (vz our_z < 0 ->
     tangent_divisor rot = vz our_z /\
     scaled_forward rot = Vec3 (vx our_z / - vz our_z) (vy our_z / - vz our_z) (-1)).
Proof.
  intros rot our_z.
  destruct (tangent_divisor_cases rot) as [Hpos Hle]. fold our_z in Hpos, Hle.
  split.
  { destruct (Rlt_dec 0 (vz our_z)) as [H|H].
    - rewrite (Hpos H). lra.
    - rewrite Hle by lra. lra. }
  split; [apply tangent_divisor_zero_iff|].
  split.
  - intros Hz. split; [now apply Hpos|].
    unfold scaled_forward. rewrite (Hpos Hz).
    unfold forward_guard. fold our_z.
    destruct (Rlt_dec 0 (vz our_z)) as [_|n]; [|contradiction].
    clear Hpos Hle. clearbody our_z. destruct our_z as [ox oy oz].
    unfold vscale. simpl in *. f_equal; field.
  - intros Hz. split; [apply Hle; lra|].
    unfold scaled_forward. rewrite Hle by lra.
    unfold forward_guard. fold our_z.
    destruct (Rlt_dec 0 (vz our_z)) as [n|_]; [lra|].
    clear Hpos Hle. clearbody our_z. destruct our_z as [ox oy oz].
    unfold vscale. simpl in *. f_equal; field; lra.
Qed.
